(** * Event races and the fake image checker

    A shallow embedding of [src/extension.ts]: the [first] primitive (taken
    from ee-first) which races event emitters, its private helper [listener],
    and the [check] callback of [registerProvider], which races a
    cancellation emitter against a timer emitter and resolves a promise;
    also the [check] of the failing provider and [deactivate].  The calls
    into the host API ([registerImageCheckerProvider], [createProvider]) and
    the sample data of [activate] are not modelled.

    The program is stateful JavaScript.  It is embedded by explicit state
    passing over a [state] record which holds the listener tables of all
    event emitters, the closure environments created by calls of [first],
    the promises, the callbacks registered with the host, and two
    observation channels (the list of calls made to completion callbacks and
    the console).  What the rest of the program and the host do afterwards
    is a trace of actions; the properties are proved for all traces.

    The program is embedded twice.  The first embedding is the program with
    nothing nested: nobody listens to the emitters' own ['newListener'] and
    ['removeListener'] events, and the listeners and callbacks of other code
    are observed, not run.  It carries the properties of [check], of its
    promise and its settlement handler, of the providers, and of [first] on
    malformed and on empty input.  The second embedding, [Reentrant], has
    the emitter deliver its own events and runs the bodies of the listeners
    and callbacks of other code, nested to any depth; it carries the
    properties of races in general.  With nothing nested the second is the
    first ([run_cut]). *)

From stdpp Require Import base decidable option list gmap strings fin_maps.
From Stdlib Require Import Lia.

Open Scope string_scope.
Open Scope nat_scope.
Open Scope list_scope.

(** ** Data *)

(** JavaScript values passed as event arguments. *)
Inductive value :=
| VUndefined
| VNull
| VBool (b : bool)
| VNumber (n : Z)
| VString (s : string)
| VObject (o : nat).

(** One finding of a check and the payload a provider returns
    ([extensionApi.ImageCheck], [extensionApi.ImageChecks]). *)
Record ImageCheck := {
  name : string;
  status : string;
  severity : option string;
  markdownDescription : option string
}.

Record ImageChecks := { checks : list ImageCheck }.

(** A completion callback handed to [first].  [DoneUser k] is a callback of
    other code, observed only through the calls it receives; [DoneCheck p
    result] is the function literal at lines 54-60, closed over the [resolve]
    function of promise [p] and over [result]. *)
Inductive donefn :=
| DoneUser (k : nat)
| DoneCheck (p : nat) (result : ImageChecks).

(** Function objects registered as listeners.  [Onevent id event race] is the
    closure [onevent] returned by [listener(event, callback)] inside the call
    of [first] numbered [race]; [id] is the identity of the function object.
    [Foreign k] is a listener registered by other code. *)
Inductive fn :=
| Onevent (id : nat) (event : string) (race : nat)
| Foreign (k : nat).

Global Instance fn_eq_dec : EqDecision fn.
Proof. solve_decision. Defined.

Definition fn_race (f : fn) : option nat :=
  match f with
  | Onevent _ _ r => Some r
  | Foreign _ => None
  end.

(** An element of the [cleanups] array: [{ee: ee, event: event, fn: fn}]. *)
Record cleanup_entry := {
  c_ee : nat;
  c_event : string;
  c_fn : fn
}.

(** The variables a call of [first] closes over: the [cleanups] array and the
    (assignable) parameter [done]. *)
Record race_env := {
  cleanups : list cleanup_entry;
  done : donefn
}.

Inductive promise :=
| Pending
| Fulfilled (v : ImageChecks)
| Rejected (msg : string).

(** A recorded invocation [done(err, ee, event, args)] made by the [callback]
    of race [call_race]. *)
Record call := {
  call_race : nat;
  call_done : donefn;
  call_err : value;
  call_ee : nat;
  call_event : string;
  call_args : list value
}.

(** The state of the program and of its environment: the listener tables
    of all emitters ([ev], keyed by emitter and event name), the closure
    environments of the calls of [first], the counters which allocate
    function objects and emitters, the promises, the timers set with
    [setTimeout] (delay and the emitter the callback closes over), the
    callbacks registered on cancellation tokens (token and the emitter the
    callback closes over), the calls made to completion callbacks, and the
    console. *)
Record state := State {
  ev : gmap (nat * string) (list fn);
  races : list race_env;
  next_fn : nat;
  next_ee : nat;
  promises : list promise;
  timers : list (nat * nat);
  subscriptions : list (nat * nat);
  log : list call;
  console : list string
}.

Definition set_ev (g : gmap (nat * string) (list fn)) (st : state) : state :=
  State g (races st) (next_fn st) (next_ee st) (promises st) (timers st)
    (subscriptions st) (log st) (console st).
Definition set_races (rs : list race_env) (st : state) : state :=
  State (ev st) rs (next_fn st) (next_ee st) (promises st) (timers st)
    (subscriptions st) (log st) (console st).
Definition set_next_fn (n : nat) (st : state) : state :=
  State (ev st) (races st) n (next_ee st) (promises st) (timers st)
    (subscriptions st) (log st) (console st).
Definition set_next_ee (n : nat) (st : state) : state :=
  State (ev st) (races st) (next_fn st) n (promises st) (timers st)
    (subscriptions st) (log st) (console st).
Definition set_promises (ps : list promise) (st : state) : state :=
  State (ev st) (races st) (next_fn st) (next_ee st) ps (timers st)
    (subscriptions st) (log st) (console st).
Definition set_timers (ts : list (nat * nat)) (st : state) : state :=
  State (ev st) (races st) (next_fn st) (next_ee st) (promises st) ts
    (subscriptions st) (log st) (console st).
Definition set_subscriptions (ss : list (nat * nat)) (st : state) : state :=
  State (ev st) (races st) (next_fn st) (next_ee st) (promises st) (timers st)
    ss (log st) (console st).
Definition set_log (l : list call) (st : state) : state :=
  State (ev st) (races st) (next_fn st) (next_ee st) (promises st) (timers st)
    (subscriptions st) l (console st).
Definition set_console (c : list string) (st : state) : state :=
  State (ev st) (races st) (next_fn st) (next_ee st) (promises st) (timers st)
    (subscriptions st) (log st) c.

Definition init : state := State ∅ [] 0 0 [] [] [] [] [].

(** ** The event emitter

    [EventEmitter] is Node's [events] module, which is not part of the
    repository.  The three methods the program calls are modelled after their
    documented behaviour: [on] appends to the listener array of the event,
    [removeListener] removes at most one instance of the listener, the most
    recently added one, and [emit] synchronously calls the listeners that
    were registered when [emit] was called, in registration order.  The
    emitter's own events about its listener table (['newListener'] and
    ['removeListener']) have no listener here; [Reentrant] below delivers
    them. *)

Definition listeners (st : state) (ee : nat) (event : string) : list fn :=
  default [] (ev st !! (ee, event)).

Definition new_EventEmitter (st : state) : nat * state :=
  (next_ee st, set_next_ee (S (next_ee st)) st).

Definition on (ee : nat) (event : string) (f : fn) (st : state) : state :=
  set_ev (<[(ee, event) := listeners st ee event ++ [f]]> (ev st)) st.

(** Removes the last occurrence of [f]; [None] when [f] does not occur. *)
Fixpoint remove_last (f : fn) (l : list fn) : option (list fn) :=
  match l with
  | [] => None
  | x :: l' =>
      match remove_last f l' with
      | Some l'' => Some (x :: l'')
      | None => if decide (x = f) then Some l' else None
      end
  end.

Definition removeListener (ee : nat) (event : string) (f : fn) (st : state) : state :=
  match remove_last f (listeners st ee event) with
  | None => st
  | Some l' => set_ev (<[(ee, event) := l']> (ev st)) st
  end.

(** ** [first] and [listener] *)

(** [listener(event, done)], called from [first] with [done = callback]:
    allocates the function object [onevent]. *)
Definition listener (event : string) (r : nat) (st : state) : fn * state :=
  (Onevent (next_fn st) event r, set_next_fn (S (next_fn st)) st).

Definition push_cleanup (r : nat) (c : cleanup_entry) (st : state) : state :=
  set_races
    (alter (fun env => {| cleanups := cleanups env ++ [c]; done := done env |}) r (races st))
    st.

(** The function [cleanup] of race [r] (lines 217-223). *)
Fixpoint cleanup_loop (xs : list cleanup_entry) (st : state) : state :=
  match xs with
  | [] => st
  | x :: xs' => cleanup_loop xs' (removeListener (c_ee x) (c_event x) (c_fn x) st)
  end.

Definition cleanup (r : nat) (st : state) : state :=
  match races st !! r with
  | Some env => cleanup_loop (cleanups env) st
  | None => st
  end.

Definition resolve (p : nat) (v : ImageChecks) (st : state) : state :=
  match promises st !! p with
  | Some Pending => set_promises (<[p := Fulfilled v]> (promises st)) st
  | _ => st
  end.

Definition reject (p : nat) (msg : string) (st : state) : state :=
  match promises st !! p with
  | Some Pending => set_promises (<[p := Rejected msg]> (promises st)) st
  | _ => st
  end.

(** The settlement handler of [check] (lines 54-60). *)
Definition settle (p : nat) (result : ImageChecks) (event : string) (st : state) : state :=
  if decide (event = "done") then resolve p result st
  else resolve p {| checks := [] |} st.

(** [done.apply(null, arguments)]: the current value of [done] is called. *)
Definition apply_done (r : nat) (err : value) (ee : nat) (event : string)
    (args : list value) (st : state) : state :=
  match races st !! r with
  | None => st
  | Some env =>
      let st := set_log (log st ++ [{| call_race := r; call_done := done env;
                                       call_err := err; call_ee := ee;
                                       call_event := event; call_args := args |}]) st in
      match done env with
      | DoneUser _ => st
      | DoneCheck p result => settle p result event st
      end
  end.

(** The function [callback] of race [r] (lines 212-215). *)
Definition callback (r : nat) (err : value) (ee : nat) (event : string)
    (args : list value) (st : state) : state :=
  apply_done r err ee event args (cleanup r st).

(** The body of [onevent] (lines 240-253); [this] is the emitter which calls
    the listener and [arguments] the arguments of the event. *)
Definition onevent (event : string) (r : nat) (this : nat) (arguments : list value)
    (st : state) : state :=
  let arg1 := nth 0 arguments VUndefined in
  let args := arguments in
  let ee := this in
  let err := if decide (event = "error") then arg1 else VNull in
  callback r err ee event args st.

Definition invoke (f : fn) (this : nat) (arguments : list value) (st : state) : state :=
  match f with
  | Onevent _ event r => onevent event r this arguments st
  | Foreign _ => st
  end.

Fixpoint dispatch (snapshot : list fn) (this : nat) (arguments : list value)
    (st : state) : state :=
  match snapshot with
  | [] => st
  | f :: rest => dispatch rest this arguments (invoke f this arguments st)
  end.

Inductive emit_outcome :=
| EmitReturned (had_listeners : bool)
| EmitThrew.

(** [ee.emit(event, ...args)].  An ['error'] event without listeners is
    thrown by the emitter. *)
Definition emit_outcome_of (ee : nat) (event : string) (st : state) : emit_outcome :=
  match listeners st ee event with
  | [] => if decide (event = "error") then EmitThrew else EmitReturned false
  | _ :: _ => EmitReturned true
  end.

Definition emit (ee : nat) (event : string) (args : list value) (st : state) : state :=
  dispatch (listeners st ee event) ee args st.

(** The argument [stuff] of [first]: any value; when it is an array, each
    member is any value; a member which is an array is either empty or
    [[ee, events...]]. *)
Inductive entry :=
| ENotArray
| EEmpty
| EArray (ee : nat) (events : list string).

Inductive jsarg :=
| NotArray
| Array (entries : list entry).

Definition isArray (arr : entry) : bool :=
  match arr with
  | ENotArray => false
  | _ => true
  end.

Definition arr_length (arr : entry) : nat :=
  match arr with
  | ENotArray => 0
  | EEmpty => 0
  | EArray _ events => S (length events)
  end.

Inductive result :=
| Return (thunk : nat)
| Throw (msg : string).

(** The inner loop of [first] (lines 197-209). *)
Fixpoint attach_events (r ee : nat) (events : list string) (st : state) : state :=
  match events with
  | [] => st
  | event :: rest =>
      let '(f, st) := listener event r st in
      let st := on ee event f st in
      let st := push_cleanup r {| c_ee := ee; c_event := event; c_fn := f |} st in
      attach_events r ee rest st
  end.

(** The outer loop of [first] (lines 188-210). *)
Fixpoint attach_entries (r : nat) (stuff : list entry) (st : state) : result * state :=
  match stuff with
  | [] => (Return r, st)
  | arr :: rest =>
      if negb (isArray arr) || (arr_length arr <? 2)
      then (Throw "each array member must be [ee, events...]", st)
      else
        match arr with
        | EArray ee events => attach_entries r rest (attach_events r ee events st)
        | _ => (Throw "each array member must be [ee, events...]", st)
        end
  end.

(** [first(stuff, done)].  The returned [thunk] is identified with the number
    of the race: [thunk(fn)] is [thunk r fn] and [thunk.cancel()] is
    [cancel r]. *)
Definition first (stuff : jsarg) (d : donefn) (st : state) : result * state :=
  match stuff with
  | NotArray => (Throw "arg must be an array of [ee, events...] arrays", st)
  | Array entries =>
      let r := length (races st) in
      attach_entries r entries
        (set_races (races st ++ [{| cleanups := []; done := d |}]) st)
  end.

Definition thunk (r : nat) (f : donefn) (st : state) : state :=
  set_races (alter (fun env => {| cleanups := cleanups env; done := f |}) r (races st)) st.

Definition cancel (r : nat) (st : state) : state := cleanup r st.

(** ** [check] *)

Record handle := {
  h_promise : nat;
  h_cancelEmitter : nat;
  h_doneEmitter : nat
}.

(** The array literal of lines 50-53. *)
Definition check_pairs (cancelEmitter doneEmitter : nat) : list entry :=
  [EArray cancelEmitter ["cancel"]; EArray doneEmitter ["done"]].

(** The callback given to [token.onCancellationRequested] (lines 35-38). *)
Definition on_cancellation_requested (cancelEmitter : nat) (st : state) : state :=
  emit cancelEmitter "cancel" []
    (set_console (console st ++ ["check cancellation requested for async"]) st).

(** The callback given to [setTimeout] (lines 44-46). *)
Definition on_timeout (doneEmitter : nat) (st : state) : state :=
  emit doneEmitter "done" [] st.

(** [new Promise(executor)] for the executor of lines 48-62: an exception of
    the executor rejects the promise, its return value is dropped. *)
Definition new_Promise (executor : nat -> state -> result * state) (st : state)
    : nat * state :=
  let p := length (promises st) in
  let '(res, st) := executor p (set_promises (promises st ++ [Pending]) st) in
  match res with
  | Return _ => (p, st)
  | Throw msg => (p, reject p msg st)
  end.

(** [token?.onCancellationRequested(callback)]: registers the callback of
    lines 35-38, which closes over [cancelEmitter], when a token was given. *)
Definition onCancellationRequested (token : option nat) (cancelEmitter : nat)
    (st : state) : state :=
  match token with
  | Some t => set_subscriptions (subscriptions st ++ [(t, cancelEmitter)]) st
  | None => st
  end.

(** [setTimeout(callback, timeout)] for the callback of lines 44-46, which
    closes over [doneEmitter]. *)
Definition setTimeout (doneEmitter : nat) (timeout : nat) (st : state) : state :=
  set_timers (timers st ++ [(timeout, doneEmitter)]) st.

(** The [check] function of the provider (lines 28-63).  The host later runs
    the two registered callbacks: [on_cancellation_requested] when
    cancellation is requested on the token, [on_timeout] when the timer
    fires. *)
Definition check (data : list ImageCheck) (timeout : nat) (token : option nat)
    (st : state) : handle * state :=
  let '(cancelEmitter, st) := new_EventEmitter st in
  let '(doneEmitter, st) := new_EventEmitter st in
  let st := onCancellationRequested token cancelEmitter st in
  let result := {| checks := data |} in
  let st := setTimeout doneEmitter timeout st in
  let '(p, st) :=
    new_Promise
      (fun p st =>
         first (Array (check_pairs cancelEmitter doneEmitter)) (DoneCheck p result) st)
      st in
  ({| h_promise := p; h_cancelEmitter := cancelEmitter; h_doneEmitter := doneEmitter |}, st).

(** The [check] function of the third provider registered by [activate]
    (lines 150-157): the executor rejects its promise at once; the image and
    the token are not used. *)
Definition failing_check (token : option nat) (st : state) : nat * state :=
  let p := length (promises st) in
  (p, reject p "an internal error occured"
        (set_promises (promises st ++ [Pending]) st)).

(** [deactivate()] (lines 167-169). *)
Definition deactivate (st : state) : state :=
  set_console (console st ++ ["stopping image-checker extension"]) st.

(** ** Traces of what the environment does

    What happens after a call of [first] or [check] is up to the rest of the
    program and to the host.  An action is one synchronous piece of it: some
    code emits an event, calls [cancel()] or [thunk(fn)] on the controller
    of a race, starts another race or another check, registers or removes a
    listener of its own, creates an emitter, or the host runs the callback
    registered on a cancellation token or with [setTimeout] (named by the
    emitter the callback closes over).  Callbacks of other code ([DoneUser],
    [Foreign]) are observed, not run; in [Reentrant] they run. *)

Inductive action :=
| AEmit (ee : nat) (event : string) (args : list value)
| ACancel (r : nat)
| AThunk (r : nat) (k : nat)
| AFirst (stuff : jsarg) (k : nat)
| AOn (ee : nat) (event : string) (k : nat)
| ARemoveListener (ee : nat) (event : string) (k : nat)
| ANewEmitter
| ACheck (data : list ImageCheck) (timeout : nat) (token : option nat)
| ACancellationRequested (cancelEmitter : nat)
| ATimeout (doneEmitter : nat).

Definition step (a : action) (st : state) : state :=
  match a with
  | AEmit ee event args => emit ee event args st
  | ACancel r => cancel r st
  | AThunk r k => thunk r (DoneUser k) st
  | AFirst stuff k => snd (first stuff (DoneUser k) st)
  | AOn ee event k => on ee event (Foreign k) st
  | ARemoveListener ee event k => removeListener ee event (Foreign k) st
  | ANewEmitter => snd (new_EventEmitter st)
  | ACheck data timeout token => snd (check data timeout token st)
  | ACancellationRequested ce => on_cancellation_requested ce st
  | ATimeout de => on_timeout de st
  end.

Fixpoint run (tr : list action) (st : state) : state :=
  match tr with
  | [] => st
  | a :: tr' => run tr' (step a st)
  end.

(** The calls the [callback] of race [r] has made to its [done]. *)
Definition rcalls (r : nat) (st : state) : list call :=
  filter (fun c => call_race c = r) (log st).

(** The listeners created by race [r] which are registered for [event] on
    [ee]. *)
Definition race_listeners (r : nat) (st : state) (ee : nat) (event : string) : list fn :=
  filter (fun f => fn_race f = Some r) (listeners st ee event).

(** The pairs (emitter, event) which [stuff] asks to watch, in source order. *)
Definition entry_combos (arr : entry) : list (nat * string) :=
  match arr with
  | EArray ee events => map (fun e => (ee, e)) events
  | _ => []
  end.

Definition combos (stuff : list entry) : list (nat * string) :=
  concat (map entry_combos stuff).

Definition well_formed (arr : entry) : Prop :=
  isArray arr = true /\ 2 <= arr_length arr.

(** ** Listeners that act, and the emitter's own events

    In the definitions above a listener or a callback of other code is
    observed, not run, and nobody hears of changes of a listener table.
    Node's emitter tells of them: [on] emits ['newListener'] (with the event
    name and the listener) before it adds a listener, and
    [removeListener] emits ['removeListener'] after it has removed one; the
    listeners of these two events are called like those of any event.  And
    a listener or callback of other code may itself emit events, cancel a
    race, or start one, while the emitter which called it is still going
    through its listeners.

    This part embeds [first] and what it calls over such an emitter and such
    an environment.  A [world] gives each listener and each completion
    callback of other code its body, a list of actions which it runs when it
    is called, whatever the arguments of the call (exceptions are not
    embedded: the properties are stated for bodies which return normally).
    The calls below the current one are a parameter, [below], of each
    function; [nested] closes the recursion up to a given depth of nesting,
    at which a further nested emission or body is cut off.  The properties
    are proved for every depth, hence for every run which completes. *)

(** The bodies of the listeners [Foreign k] and of the callbacks
    [DoneUser k]. *)
Record world := {
  listener_body : nat -> list action;
  callback_body : nat -> list action
}.

(** A listener as an event argument: the reference to the function object. *)
Definition fn_value (f : fn) : value :=
  match f with
  | Onevent id _ _ => VObject (2 * id)
  | Foreign k => VObject (S (2 * k))
  end.

(** What runs below the current call: emissions made by the emitter itself
    and by bodies, and bodies. *)
Record inner := {
  inner_emit : nat -> string -> list value -> state -> state;
  inner_run : list action -> state -> state
}.

Module Reentrant.

Section semantics.
Context (w : world) (below : inner).

(** [ee.on(event, f)]: ['newListener'] is emitted before [f] is added. *)
Definition on (ee : nat) (event : string) (f : fn) (st : state) : state :=
  let st := inner_emit below ee "newListener" [VString event; fn_value f] st in
  set_ev (<[(ee, event) := listeners st ee event ++ [f]]> (ev st)) st.

(** [ee.removeListener(event, f)]: when an instance of [f] was found and
    removed, ['removeListener'] is emitted afterwards. *)
Definition removeListener (ee : nat) (event : string) (f : fn) (st : state) : state :=
  match remove_last f (listeners st ee event) with
  | None => st
  | Some l' =>
      let st := set_ev (<[(ee, event) := l']> (ev st)) st in
      inner_emit below ee "removeListener" [VString event; fn_value f] st
  end.

(** The function [cleanup] of race [r] (lines 217-223). *)
Fixpoint cleanup_loop (xs : list cleanup_entry) (st : state) : state :=
  match xs with
  | [] => st
  | x :: xs' => cleanup_loop xs' (removeListener (c_ee x) (c_event x) (c_fn x) st)
  end.

Definition cleanup (r : nat) (st : state) : state :=
  match races st !! r with
  | Some env => cleanup_loop (cleanups env) st
  | None => st
  end.

(** [done.apply(null, arguments)]: the current value of [done] is called; a
    callback of other code runs its body. *)
Definition apply_done (r : nat) (err : value) (ee : nat) (event : string)
    (args : list value) (st : state) : state :=
  match races st !! r with
  | None => st
  | Some env =>
      let st := set_log (log st ++ [{| call_race := r; call_done := done env;
                                       call_err := err; call_ee := ee;
                                       call_event := event; call_args := args |}]) st in
      match done env with
      | DoneUser k => inner_run below (callback_body w k) st
      | DoneCheck p result => settle p result event st
      end
  end.

(** The function [callback] of race [r] (lines 212-215). *)
Definition callback (r : nat) (err : value) (ee : nat) (event : string)
    (args : list value) (st : state) : state :=
  apply_done r err ee event args (cleanup r st).

(** The body of [onevent] (lines 240-253). *)
Definition onevent (event : string) (r : nat) (this : nat) (arguments : list value)
    (st : state) : state :=
  let arg1 := nth 0 arguments VUndefined in
  let args := arguments in
  let ee := this in
  let err := if decide (event = "error") then arg1 else VNull in
  callback r err ee event args st.

Definition invoke (f : fn) (this : nat) (arguments : list value) (st : state) : state :=
  match f with
  | Onevent _ event r => onevent event r this arguments st
  | Foreign k => inner_run below (listener_body w k) st
  end.

Fixpoint dispatch (snapshot : list fn) (this : nat) (arguments : list value)
    (st : state) : state :=
  match snapshot with
  | [] => st
  | f :: rest => dispatch rest this arguments (invoke f this arguments st)
  end.

(** [ee.emit(event, ...args)]: the listeners registered when [emit] is
    called are called in registration order, whatever they do to the table
    meanwhile. *)
Definition emit (ee : nat) (event : string) (args : list value) (st : state) : state :=
  dispatch (listeners st ee event) ee args st.

(** The inner loop of [first] (lines 197-209). *)
Fixpoint attach_events (r ee : nat) (events : list string) (st : state) : state :=
  match events with
  | [] => st
  | event :: rest =>
      let '(f, st) := listener event r st in
      let st := on ee event f st in
      let st := push_cleanup r {| c_ee := ee; c_event := event; c_fn := f |} st in
      attach_events r ee rest st
  end.

(** The outer loop of [first] (lines 188-210). *)
Fixpoint attach_entries (r : nat) (stuff : list entry) (st : state) : result * state :=
  match stuff with
  | [] => (Return r, st)
  | arr :: rest =>
      if negb (isArray arr) || (arr_length arr <? 2)
      then (Throw "each array member must be [ee, events...]", st)
      else
        match arr with
        | EArray ee events => attach_entries r rest (attach_events r ee events st)
        | _ => (Throw "each array member must be [ee, events...]", st)
        end
  end.

(** [first(stuff, done)]. *)
Definition first (stuff : jsarg) (d : donefn) (st : state) : result * state :=
  match stuff with
  | NotArray => (Throw "arg must be an array of [ee, events...] arrays", st)
  | Array entries =>
      let r := length (races st) in
      attach_entries r entries
        (set_races (races st ++ [{| cleanups := []; done := d |}]) st)
  end.

(** [thunk.cancel()]. *)
Definition cancel (r : nat) (st : state) : state := cleanup r st.

(** The [check] function of the provider (lines 28-63). *)
Definition check (data : list ImageCheck) (timeout : nat) (token : option nat)
    (st : state) : handle * state :=
  let '(cancelEmitter, st) := new_EventEmitter st in
  let '(doneEmitter, st) := new_EventEmitter st in
  let st := onCancellationRequested token cancelEmitter st in
  let result := {| checks := data |} in
  let st := setTimeout doneEmitter timeout st in
  let '(p, st) :=
    new_Promise
      (fun p st =>
         first (Array (check_pairs cancelEmitter doneEmitter)) (DoneCheck p result) st)
      st in
  ({| h_promise := p; h_cancelEmitter := cancelEmitter; h_doneEmitter := doneEmitter |}, st).

(** One action of the environment. *)
Definition step (a : action) (st : state) : state :=
  match a with
  | AEmit ee event args => emit ee event args st
  | ACancel r => cancel r st
  | AThunk r k => thunk r (DoneUser k) st
  | AFirst stuff k => snd (first stuff (DoneUser k) st)
  | AOn ee event k => on ee event (Foreign k) st
  | ARemoveListener ee event k => removeListener ee event (Foreign k) st
  | ANewEmitter => snd (new_EventEmitter st)
  | ACheck data timeout token => snd (check data timeout token st)
  | ACancellationRequested ce =>
      emit ce "cancel" []
        (set_console (console st ++ ["check cancellation requested for async"]) st)
  | ATimeout de => emit de "done" [] st
  end.

Fixpoint run (tr : list action) (st : state) : state :=
  match tr with
  | [] => st
  | a :: tr' => run tr' (step a st)
  end.

End semantics.

(** Nothing runs below. *)
Definition cut : inner :=
  {| inner_emit := fun _ _ _ st => st; inner_run := fun _ st => st |}.

(** The calls below the current one, to [depth] levels of nesting. *)
Fixpoint nested (w : world) (depth : nat) : inner :=
  match depth with
  | 0 => cut
  | S n => {| inner_emit := emit w (nested w n); inner_run := run w (nested w n) |}
  end.

(** A world in which other code does nothing when called. *)
Definition inert : world :=
  {| listener_body := fun _ => []; callback_body := fun _ => [] |}.

End Reentrant.

(** * Invariants and observations

    The vocabulary in which the properties of the program are stated and
    proved: well-formedness of states, what it means that a step leaves a
    race alone, the life of a race from [first] to its settlement, and the
    reading of a trace by an observer of one race. *)

(** Well-formed states: function objects of a race exist only once the race
    exists, the [cleanups] array of a race holds listeners of that race only,
    a [resolve] function belongs to an existing promise, and so does a
    recorded call to an existing race.  The initial state is well-formed and
    every action keeps states well-formed ([reachable_wf]). *)
Record wf (st : state) : Prop := {
  wf_listeners : forall ee event f r,
    f ∈ listeners st ee event -> fn_race f = Some r -> r < length (races st);
  wf_cleanups : forall r env c,
    races st !! r = Some env -> c ∈ cleanups env -> fn_race (c_fn c) = Some r;
  wf_promises : forall r env p res,
    races st !! r = Some env -> done env = DoneCheck p res -> p < length (promises st);
  wf_log : forall c, c ∈ log st -> call_race c < length (races st)
}.

(** No other race holds the [resolve] function of promise [p]. *)
Definition private (p r : nat) (st : state) : Prop :=
  forall r' env res, races st !! r' = Some env -> done env = DoneCheck p res -> r' = r.

(** [frame r st st']: going from [st] to [st'] left race [r] alone. *)
Record frame (r : nat) (st st' : state) : Prop := {
  fr_env : races st' !! r = races st !! r;
  fr_listeners : forall ee event,
    race_listeners r st' ee event = race_listeners r st ee event;
  fr_calls : rcalls r st' = rcalls r st;
  fr_len : length (promises st) <= length (promises st');
  fr_promises : forall p, private p r st -> p < length (promises st) ->
    promises st' !! p = promises st !! p /\ private p r st'
}.

(** The listeners of the cleanup entries [cs] which belong to [event] on
    [ee], in the order of [cs]. *)
Definition own (cs : list cleanup_entry) (ee : nat) (event : string) : list fn :=
  map c_fn (filter (fun c => c_ee c = ee /\ c_event c = event) cs).

(** The entries the inner loop pushes for [events], starting with function
    identity [id]. *)
Fixpoint mk_cleanups (r ee id : nat) (events : list string) : list cleanup_entry :=
  match events with
  | [] => []
  | event :: rest =>
      {| c_ee := ee; c_event := event; c_fn := Onevent id event r |}
        :: mk_cleanups r ee (S id) rest
  end.

Global Instance well_formed_dec arr : Decision (well_formed arr).
Proof. unfold well_formed. apply _. Defined.

(** The members of [stuff] before the first malformed one. *)
Fixpoint good_prefix (stuff : list entry) : list entry :=
  match stuff with
  | [] => []
  | arr :: rest => if decide (well_formed arr) then arr :: good_prefix rest else []
  end.

(** The entries [first] pushes for well-formed [stuff]. *)
Fixpoint mk_all (r id : nat) (stuff : list entry) : list cleanup_entry :=
  match stuff with
  | [] => []
  | EArray ee events :: rest =>
      mk_cleanups r ee id events ++ mk_all r (id + length events) rest
  | _ :: rest => mk_all r id rest
  end.

(** A state extended by one more race, as [first] does. *)
Record extends (st st' : state) (env : race_env) : Prop := {
  ex_races : races st' = races st ++ [env];
  ex_listeners : forall ee event,
    listeners st' ee event = listeners st ee event ++ own (cleanups env) ee event;
  ex_fn : forall c, c ∈ cleanups env -> fn_race (c_fn c) = Some (length (races st));
  ex_log : log st' = log st;
  ex_promises : exists ps, promises st' = promises st ++ ps
}.

(** The [err] argument [onevent] computes. *)
Definition err_of (event : string) (arguments : list value) : value :=
  if decide (event = "error") then nth 0 arguments VUndefined else VNull.

(** The call [done(err, ee, event, args)] which [onevent], created for
    [event] in race [r] and run by emitter [this], ends in. *)
Definition mkcall (r : nat) (d : donefn) (this : nat) (event : string)
    (arguments : list value) : call :=
  {| call_race := r; call_done := d; call_err := err_of event arguments;
     call_ee := this; call_event := event; call_args := arguments |}.

(** The call the listener [f] of race [r] ends in. *)
Definition call_of (r : nat) (d : donefn) (this : nat) (arguments : list value) (f : fn) : call :=
  match f with
  | Onevent _ event _ => mkcall r d this event arguments
  | Foreign _ => mkcall r d this "" arguments
  end.

(** The [cleanups] array of race [r] once [first] has returned: distinct
    function objects, each an [onevent] of the race for the event of its
    entry. *)
Record race_built (r : nat) (cs : list cleanup_entry) : Prop := {
  built_nodup : NoDup (map c_fn cs);
  built_fn : forall c, c ∈ cs -> exists id, c_fn c = Onevent id (c_event c) r
}.

(** The listeners of race [r] are registered as [first] left them. *)
Definition attached (r : nat) (cs : list cleanup_entry) (st : state) : Prop :=
  forall ee event, race_listeners r st ee event = own cs ee event.

(** No listener of race [r] is registered anywhere. *)
Definition detached (r : nat) (st : state) : Prop :=
  forall ee event, race_listeners r st ee event = [].

(** A race waits with its listeners attached until a watched event or
    [cancel] detaches them. *)
Inductive phase := Waiting | Settled.

Definition in_phase (ph : phase) (r : nat) (cs : list cleanup_entry) (st : state) : Prop :=
  match ph with
  | Waiting => attached r cs st
  | Settled => detached r st
  end.

(** What holds of race [r] from the return of [first] on. *)
Record race_inv (r : nat) (cs : list cleanup_entry) (d : donefn) (ph : phase)
    (st : state) : Prop := {
  inv_wf : wf st;
  inv_env : races st !! r = Some {| cleanups := cs; done := d |};
  inv_built : race_built r cs;
  inv_phase : in_phase ph r cs st
}.

(** The phase after an emitter has run a snapshot containing the listeners
    [own_listeners] of the race. *)
Definition phase_after (ph : phase) (own_listeners : list fn) : phase :=
  match own_listeners with
  | [] => ph
  | _ :: _ => Settled
  end.

(** What the calls made by a race do to promise [p], by the handler of lines
    54-60. *)
Definition replay1 (p : nat) (pr : promise) (c : call) : promise :=
  match call_done c, pr with
  | DoneCheck p' res, Pending =>
      if decide (p' = p)
      then Fulfilled (if decide (call_event c = "done") then res else {| checks := [] |})
      else pr
  | _, _ => pr
  end.

(** The state of promise [p] after the calls [calls]. *)
Definition replay (p : nat) (calls : list call) : promise :=
  foldl (replay1 p) Pending calls.

(** Promise [p] is resolved by race [r] only, and by nothing else. *)
Record promise_inv (p r : nat) (st : state) : Prop := {
  pi_private : private p r st;
  pi_lt : p < length (promises st);
  pi_state : promises st !! p = Some (replay p (rcalls r st))
}.

(** The event an action delivers, if any. *)
Definition emitted (a : action) : option (nat * string * list value) :=
  match a with
  | AEmit ee event args => Some (ee, event, args)
  | ACancellationRequested ce => Some (ce, "cancel", [])
  | ATimeout de => Some (de, "done", [])
  | _ => None
  end.

(** How often [stuff] asks to watch [event] on [ee]. *)
Definition watch_count (stuff : list entry) (ee : nat) (event : string) : nat :=
  length (filter (fun k => k = (ee, event)) (combos stuff)).

(** What an observer of race [r] keeps track of: the current [done], whether
    the listeners are still attached, and the calls made so far. *)
Record view := {
  v_done : donefn;
  v_phase : phase;
  v_calls : list call
}.

(** One action, as the observer of race [r] reads it; [mult ee event] is
    the number of listeners the race attached for [event] on [ee]. *)
Definition observe (r : nat) (mult : nat -> string -> nat) (v : view) (a : action) : view :=
  match a with
  | ACancel r' =>
      if decide (r' = r)
      then {| v_done := v_done v; v_phase := Settled; v_calls := v_calls v |}
      else v
  | AThunk r' k =>
      if decide (r' = r)
      then {| v_done := DoneUser k; v_phase := v_phase v; v_calls := v_calls v |}
      else v
  | _ =>
      match emitted a, v_phase v with
      | Some (ee, event, args), Waiting =>
          match mult ee event with
          | 0 => v
          | S n =>
              {| v_done := v_done v; v_phase := Settled;
                 v_calls := v_calls v ++ replicate (S n) (mkcall r (v_done v) ee event args) |}
          end
      | _, _ => v
      end
  end.

(** [d] can be handed to [first] in [st]. *)
Definition valid_done (d : donefn) (st : state) : Prop :=
  forall q res, d = DoneCheck q res -> q < length (promises st).

(** [a] delivers [event] with [args] on [ee], which [entries] watch. *)
Definition fires (entries : list entry) (a : action) (ee : nat) (event : string)
    (args : list value) : Prop :=
  emitted a = Some (ee, event, args) /\ (ee, event) ∈ combos entries.

(** [a] settles race [r]: it cancels the race or delivers a watched event. *)
Definition settles (r : nat) (entries : list entry) (a : action) : Prop :=
  a = ACancel r \/ exists ee event args, fires entries a ee event args.

(** [a] neither cancels race [r] nor delivers a watched event. *)
Definition leaves_waiting (r : nat) (entries : list entry) (a : action) : Prop :=
  a <> ACancel r /\
  forall ee event args, emitted a = Some (ee, event, args) -> (ee, event) ∉ combos entries.

(** The view when [first] returns. *)
Definition start (d : donefn) : view :=
  {| v_done := d; v_phase := Waiting; v_calls := [] |}.

(** Decides a closed decidable proposition by evaluation. *)
Ltac by_evaluation :=
  match goal with
  | |- ?P =>
      let H := fresh in
      assert (H : Is_true (bool_decide P)) by (vm_compute; exact I);
      exact (bool_decide_unpack P H)
  end.

(** The state in which [check] calls [first]: two more emitters, the two
    host callbacks registered, one more promise. *)
Definition check_setup (timeout : nat) (token : option nat) (st : state) : state :=
  set_promises (promises st ++ [Pending])
    (setTimeout (S (next_ee st)) timeout
       (onCancellationRequested token (next_ee st)
          (set_next_ee (S (S (next_ee st))) st))).

(** [a] neither settles race [r] nor replaces its completion callback. *)
Definition quiet (r : nat) (entries : list entry) (a : action) : Prop :=
  leaves_waiting r entries a /\ forall k, a <> AThunk r k.

(** Shows that a closed action is [quiet]. *)
Ltac quiet_action :=
  split;
  [ split;
    [ discriminate
    | let He := fresh in intros ? ? ? He; inversion He; subst; by_evaluation ]
  | intros ?; discriminate ].

Ltac quiet_trace :=
  repeat first [ apply List.Forall_nil | apply List.Forall_cons; [quiet_action|] ].

(** No race holds the [resolve] function of promise [p]. *)
Definition unheld (p : nat) (st : state) : Prop :=
  forall r env res, races st !! r = Some env -> done env <> DoneCheck p res.

(** ** Races in a world which acts

    The vocabulary for the functions of [Reentrant].  Two kinds of
    statements are made about a race [r]: what holds whatever the race
    watches and whatever other code does ([held], [shrinks]), and what holds
    of a race which does not watch the emitter's own events ([plain]) in a
    world whose other code leaves the race alone ([passive], [spares]). *)

(** No watched event is one of the emitter's own. *)
Definition plain (entries : list entry) : Prop :=
  forall ee event, (ee, event) ∈ combos entries ->
    event <> "newListener" /\ event <> "removeListener".

(** An action which cannot raise when a body runs it: it does not call
    [first] on malformed input, and does not emit ['error'] (which the
    emitter throws when the event has no listener). *)
Definition returns (a : action) : Prop :=
  match a with
  | AFirst stuff _ => exists entries, stuff = Array entries /\ Forall well_formed entries
  | AEmit _ event _ => event <> "error"
  | _ => True
  end.

(** The listeners and callbacks of other code return normally.  An
    exception would leave the emitter which called them, and the caller of
    [emit], [cancel] or [first] above it; that is not embedded, and the
    properties of races are stated for worlds without it. *)
Definition tame (w : world) : Prop :=
  forall k, Forall returns (listener_body w k) /\ Forall returns (callback_body w k).

(** No listener and no callback of other code cancels race [r], replaces
    its callback or emits an event which [entries] watch. *)
Definition passive (w : world) (r : nat) (entries : list entry) : Prop :=
  forall k, Forall (quiet r entries) (listener_body w k)
            /\ Forall (quiet r entries) (callback_body w k).

(** Race [r] has listeners on watched pairs only. *)
Definition confined (r : nat) (entries : list entry) (st : state) : Prop :=
  forall ee event, (ee, event) ∉ combos entries -> race_listeners r st ee event = [].

(** A state in which what runs below can be trusted to spare race [r]. *)
Record calm (r : nat) (entries : list entry) (st : state) : Prop := {
  calm_wf : wf st;
  calm_confined : confined r entries st;
  calm_exists : r < length (races st)
}.

(** Going from [st] to [st'] kept the environment and the calls of race
    [r]. *)
Record keeps (r : nat) (st st' : state) : Prop := {
  k_wf : wf st';
  k_env : races st' !! r = races st !! r;
  k_calls : rcalls r st' = rcalls r st;
  k_next : next_fn st <= next_fn st';
  k_races : length (races st) <= length (races st')
}.

(** ... and its listeners as well. *)
Record spares (r : nat) (st st' : state) : Prop := {
  sp_keeps : keeps r st st';
  sp_listeners : forall ee event,
    race_listeners r st' ee event = race_listeners r st ee event
}.

(** What runs below spares race [r], as long as it emits no watched event
    and runs quiet bodies only. *)
Record sound (r : nat) (entries : list entry) (below : inner) : Prop := {
  sound_emit : forall ee event args st,
    calm r entries st -> (ee, event) ∉ combos entries ->
    spares r st (inner_emit below ee event args st);
  sound_run : forall tr st,
    calm r entries st -> Forall (quiet r entries) tr ->
    spares r st (inner_run below tr st)
}.

(** The entries of [cs] are for watched pairs. *)
Definition watched (entries : list entry) (cs : list cleanup_entry) : Prop :=
  forall c, c ∈ cs -> (c_ee c, c_event c) ∈ combos entries.

(** Race [r] while [first] attaches its listeners: those pushed so far are
    registered, and the callback has not been called. *)
Record building (r : nat) (entries : list entry) (cs : list cleanup_entry) (d : donefn)
    (st : state) : Prop := {
  b_wf : wf st;
  b_env : races st !! r = Some {| cleanups := cs; done := d |};
  b_attached : attached r cs st;
  b_nodup : NoDup (map c_fn cs);
  b_fn : forall c, c ∈ cs -> exists id, c_fn c = Onevent id (c_event c) r /\ id < next_fn st;
  b_keys : watched entries cs;
  b_calls : rcalls r st = []
}.

(** Going from [st] to [st'] kept the state well-formed and dropped no
    race. *)
Record grows (st st' : state) : Prop := {
  g_wf : wf st';
  g_races : length (races st) <= length (races st')
}.

(** What runs below keeps states well-formed. *)
Record orderly (below : inner) : Prop := {
  orderly_emit : forall ee event args st, wf st -> grows st (inner_emit below ee event args st);
  orderly_run : forall tr st, wf st -> grows st (inner_run below tr st)
}.

(** The [err] argument of a recorded call is the one [onevent] computes for
    the event of the call. *)
Definition call_ok (c : call) : Prop :=
  call_err c = err_of (call_event c) (call_args c).

(** The [cleanups] array of race [r] is [cs], and the registered listeners
    of the race are among those of [cs]. *)
Record held (r : nat) (cs : list cleanup_entry) (st : state) : Prop := {
  held_env : exists d, races st !! r = Some {| cleanups := cs; done := d |};
  held_listeners : forall ee event,
    race_listeners r st ee event `sublist_of` own cs ee event
}.

(** Going from [st] to [st'] registered no listener of race [r], changed
    nothing of its [cleanups], and called its completion callback only with
    all its listeners removed. *)
Record shrinks (r : nat) (st st' : state) : Prop := {
  sh_env : cleanups <$> races st' !! r = cleanups <$> races st !! r;
  sh_listeners : forall ee event,
    race_listeners r st' ee event `sublist_of` race_listeners r st ee event;
  sh_log : exists l,
    log st' = log st ++ l /\ Forall call_ok l
    /\ (filter (fun c => call_race c = r) l = [] \/ detached r st');
  sh_next : next_fn st <= next_fn st';
  sh_races : length (races st) <= length (races st')
}.

(** What runs below only shrinks race [r], whatever it does. *)
Record general (r : nat) (cs : list cleanup_entry) (below : inner) : Prop := {
  general_emit : forall ee event args st,
    held r cs st -> shrinks r st (inner_emit below ee event args st);
  general_run : forall tr st,
    held r cs st -> shrinks r st (inner_run below tr st)
}.

(** Race [r] from the moment [first] has created its environment. *)
Record holding (r : nat) (cs : list cleanup_entry) (st : state) : Prop := {
  hd_held : held r cs st;
  hd_nodup : NoDup (map c_fn cs);
  hd_fn : forall c, c ∈ cs -> exists id, c_fn c = Onevent id (c_event c) r /\ id < next_fn st;
  hd_calls : Forall call_ok (rcalls r st)
}.

(** Going from [st] to [st'] added the call [c] of race [r]. *)
Definition adds (r : nat) (st st' : state) (c : call) : Prop :=
  exists l, rcalls r st' = rcalls r st ++ l /\ c ∈ l.

(** The calls recorded are those of one watched event, as many as the pair
    is listed. *)
Definition one_winner (r : nat) (entries : list entry) (calls : list call) : Prop :=
  calls = [] \/
  exists ee event args d,
    (ee, event) ∈ combos entries
    /\ calls = replicate (watch_count entries ee event) (mkcall r d ee event args).

(** The world of the examples: the listeners of other code emit on an
    emitter of their own, the callbacks register a listener there. *)
Definition busy : world :=
  {| listener_body := fun _ => [AEmit 9 "tick" []];
     callback_body := fun k => [AOn 9 "tick" k] |}.

(** * Proofs *)

(** ** Lists of listeners *)

Section remove_last.
Implicit Types (f x : fn) (l : list fn).

Lemma remove_last_None f l : remove_last f l = None <-> f ∉ l.
Proof.
  induction l as [|x l IH]; simpl.
  - split; [intros _; apply not_elem_of_nil | done].
  - destruct (remove_last f l) as [l''|] eqn:E.
    + split; [done|]. intros Hn. exfalso.
      assert (f ∉ l) as Hl by (intros ?; apply Hn; by right).
      apply IH in Hl. done.
    + destruct (decide (x = f)) as [->|Hne].
      * split; [done|]. intros Hn. exfalso. apply Hn. by left.
      * split; [|done]. intros _. apply not_elem_of_cons. split; [done|].
        by apply IH.
Qed.

Lemma remove_last_elem_of f l l' x :
  remove_last f l = Some l' -> x ∈ l' -> x ∈ l.
Proof.
  revert l'. induction l as [|y l IH]; simpl; intros l' H Hx; [done|].
  destruct (remove_last f l) as [l''|] eqn:E.
  - inversion H; subst. apply elem_of_cons in Hx as [->|Hx]; [by left|].
    right. by eapply IH.
  - destruct (decide (y = f)); [|done]. inversion H; subst. by right.
Qed.

Lemma remove_last_filter_out (P : fn -> Prop) `{!forall x, Decision (P x)} f l l' :
  remove_last f l = Some l' -> ~ P f -> filter P l' = filter P l.
Proof.
  revert l'. induction l as [|y l IH]; simpl; intros l' Hr Hf; [done|].
  destruct (remove_last f l) as [l''|] eqn:E.
  - inversion Hr; subst. rewrite !filter_cons. erewrite IH; eauto.
  - destruct (decide (y = f)) as [->|]; [|done]. inversion Hr; subst.
    by rewrite filter_cons_False.
Qed.

Lemma remove_last_filter_in (P : fn -> Prop) `{!forall x, Decision (P x)} f l l' :
  remove_last f l = Some l' -> P f ->
  remove_last f (filter P l) = Some (filter P l').
Proof.
  revert l'. induction l as [|y l IH]; simpl; intros l' Hr Hf; [done|].
  destruct (remove_last f l) as [l''|] eqn:E.
  - inversion Hr; subst. rewrite !filter_cons.
    destruct (decide (P y)); simpl; [|by apply IH].
    by rewrite (IH l'').
  - destruct (decide (y = f)) as [->|]; [|done]. inversion Hr; subst.
    rewrite filter_cons_True by done. simpl.
    assert (remove_last f (filter P l') = None) as ->.
    { apply remove_last_None. intros Hin. apply list_elem_of_filter in Hin as [_ Hin].
      apply remove_last_None in E. done. }
    by rewrite decide_True.
Qed.

Lemma remove_last_head f l : f ∉ l -> remove_last f (f :: l) = Some l.
Proof.
  intros H. simpl. apply remove_last_None in H. rewrite H.
  by rewrite decide_True.
Qed.
End remove_last.

(** ** The listener tables *)

Section emitter.
Implicit Types (st : state) (f : fn) (r ee : nat) (event : string).

Lemma listeners_on ee event f st ee' event' :
  listeners (on ee event f st) ee' event' =
    if decide ((ee, event) = (ee', event')) then listeners st ee event ++ [f]
    else listeners st ee' event'.
Proof.
  unfold on, listeners at 1; simpl. rewrite lookup_insert.
  case_decide as Hk; [|done]. by inversion Hk; subst.
Qed.

Lemma listeners_removeListener ee event f st ee' event' :
  listeners (removeListener ee event f st) ee' event' =
    if decide ((ee, event) = (ee', event'))
    then default (listeners st ee event) (remove_last f (listeners st ee event))
    else listeners st ee' event'.
Proof.
  unfold removeListener.
  destruct (remove_last f (listeners st ee event)) as [l'|] eqn:E; simpl.
  - unfold listeners at 1; simpl. rewrite lookup_insert. by case_decide.
  - case_decide as Hk; [|done]. by inversion Hk; subst.
Qed.

Lemma race_listeners_on r ee event f st ee' event' :
  race_listeners r (on ee event f st) ee' event' =
    if decide ((ee, event) = (ee', event') /\ fn_race f = Some r)
    then race_listeners r st ee' event' ++ [f]
    else race_listeners r st ee' event'.
Proof.
  unfold race_listeners. rewrite listeners_on.
  destruct (decide ((ee, event) = (ee', event'))) as [Hk|Hk].
  - inversion Hk; subst. rewrite filter_app, filter_cons, filter_nil.
    destruct (decide (fn_race f = Some r)).
    + by rewrite decide_True.
    + rewrite decide_False by tauto. by rewrite app_nil_r.
  - by rewrite decide_False by tauto.
Qed.

Lemma race_listeners_removeListener r ee event f st ee' event' :
  race_listeners r (removeListener ee event f st) ee' event' =
    if decide ((ee, event) = (ee', event') /\ fn_race f = Some r)
    then default (race_listeners r st ee' event')
                 (remove_last f (race_listeners r st ee' event'))
    else race_listeners r st ee' event'.
Proof.
  unfold race_listeners. rewrite listeners_removeListener.
  destruct (decide ((ee, event) = (ee', event'))) as [Hk|Hk].
  - inversion Hk; subst.
    destruct (remove_last f (listeners st ee' event')) as [l'|] eqn:E; simpl.
    + destruct (decide (fn_race f = Some r)) as [Hf|Hf].
      * rewrite decide_True by done.
        by rewrite (remove_last_filter_in _ _ _ _ E Hf).
      * rewrite decide_False by tauto.
        by apply (remove_last_filter_out _ _ _ _ E).
    + case_decide; [|done].
      assert (remove_last f (filter (fun f0 => fn_race f0 = Some r)
                               (listeners st ee' event')) = None) as ->; [|done].
      apply remove_last_None. intros Hin.
      apply list_elem_of_filter in Hin as [_ Hin].
      by apply remove_last_None in E.
  - by rewrite decide_False by tauto.
Qed.

Lemma removeListener_absent ee event f st :
  f ∉ listeners st ee event -> removeListener ee event f st = st.
Proof.
  intros H. unfold removeListener. apply remove_last_None in H. by rewrite H.
Qed.

Lemma races_removeListener ee event f st :
  races (removeListener ee event f st) = races st.
Proof. unfold removeListener. by destruct (remove_last _ _). Qed.

Lemma log_removeListener ee event f st :
  log (removeListener ee event f st) = log st.
Proof. unfold removeListener. by destruct (remove_last _ _). Qed.

Lemma promises_removeListener ee event f st :
  promises (removeListener ee event f st) = promises st.
Proof. unfold removeListener. by destruct (remove_last _ _). Qed.

Lemma elem_of_listeners_removeListener ee event f st ee' event' x :
  x ∈ listeners (removeListener ee event f st) ee' event' ->
  x ∈ listeners st ee' event'.
Proof.
  rewrite listeners_removeListener. case_decide as Hk; [|done].
  inversion Hk; subst.
  destruct (remove_last f (listeners st ee' event')) eqn:E; simpl; [|done].
  by eapply remove_last_elem_of.
Qed.
End emitter.

(** ** Well-formed states *)

Lemma wf_init : wf init.
Proof.
  split.
  - intros ee event f r H. unfold listeners in H; simpl in H.
    rewrite lookup_empty in H. simpl in H. by apply elem_of_nil in H.
  - intros r env c H. simpl in H. by rewrite lookup_nil in H.
  - intros r env p res H. simpl in H. by rewrite lookup_nil in H.
  - intros c H. simpl in H. by apply elem_of_nil in H.
Qed.

Lemma frame_refl r st : frame r st st.
Proof. by split. Qed.

Lemma frame_trans r st1 st2 st3 :
  frame r st1 st2 -> frame r st2 st3 -> frame r st1 st3.
Proof.
  intros [E1 L1 C1 N1 P1] [E2 L2 C2 N2 P2]. split.
  - by rewrite E2.
  - intros. by rewrite L2.
  - by rewrite C2.
  - lia.
  - intros p Hp Hlt. destruct (P1 p Hp Hlt) as [Ha Hb].
    destruct (P2 p Hb) as [Hc Hd]; [lia|]. split; [by rewrite Hc|done].
Qed.

(** ** Operations which leave a race alone *)

Section frames.
Implicit Types (st : state) (f : fn) (r ee : nat) (event : string).

Lemma on_frame r ee event f st :
  fn_race f <> Some r -> frame r st (on ee event f st).
Proof.
  intros Hf. split; try done.
  intros ee' event'. rewrite race_listeners_on. by rewrite decide_False by tauto.
Qed.

Lemma on_wf ee event f st :
  wf st -> (forall r, fn_race f = Some r -> r < length (races st)) ->
  wf (on ee event f st).
Proof.
  intros [W1 W2 W3 W4] Hf. split; [|exact W2|exact W3|exact W4].
  intros ee' event' x r Hx Hr. rewrite listeners_on in Hx.
  case_decide as Hk; [|by eapply W1].
  apply elem_of_app in Hx as [Hx|Hx]; [by eapply W1|].
  apply list_elem_of_singleton in Hx. subst. by apply Hf.
Qed.

Lemma removeListener_frame r ee event f st :
  fn_race f <> Some r -> frame r st (removeListener ee event f st).
Proof.
  intros Hf. split.
  - by rewrite races_removeListener.
  - intros ee' event'. rewrite race_listeners_removeListener.
    by rewrite decide_False by tauto.
  - unfold rcalls. by rewrite log_removeListener.
  - by rewrite promises_removeListener.
  - intros p Hp _. rewrite promises_removeListener. split; [done|].
    unfold private. by rewrite races_removeListener.
Qed.

Lemma removeListener_wf ee event f st : wf st -> wf (removeListener ee event f st).
Proof.
  intros [W1 W2 W3 W4]. split.
  - intros ee' event' x r Hx Hr. rewrite races_removeListener.
    apply elem_of_listeners_removeListener in Hx. by eapply W1.
  - rewrite races_removeListener. exact W2.
  - rewrite races_removeListener, promises_removeListener. exact W3.
  - rewrite races_removeListener, log_removeListener. exact W4.
Qed.

Lemma cleanup_loop_frame r xs st :
  Forall (fun c => fn_race (c_fn c) <> Some r) xs -> frame r st (cleanup_loop xs st).
Proof.
  revert st. induction xs as [|x xs IH]; intros st H; simpl; [apply frame_refl|].
  inversion H; subst. eapply frame_trans; [|by apply IH].
  by apply removeListener_frame.
Qed.

Lemma cleanup_loop_wf xs st : wf st -> wf (cleanup_loop xs st).
Proof.
  revert st. induction xs as [|x xs IH]; intros st H; simpl; [done|].
  apply IH. by apply removeListener_wf.
Qed.

Lemma races_cleanup_loop xs st : races (cleanup_loop xs st) = races st.
Proof.
  revert st. induction xs as [|x xs IH]; intros st; simpl; [done|].
  by rewrite IH, races_removeListener.
Qed.

Lemma log_cleanup_loop xs st : log (cleanup_loop xs st) = log st.
Proof.
  revert st. induction xs as [|x xs IH]; intros st; simpl; [done|].
  by rewrite IH, log_removeListener.
Qed.

Lemma promises_cleanup_loop xs st : promises (cleanup_loop xs st) = promises st.
Proof.
  revert st. induction xs as [|x xs IH]; intros st; simpl; [done|].
  by rewrite IH, promises_removeListener.
Qed.

Lemma races_cleanup r st : races (cleanup r st) = races st.
Proof. unfold cleanup. destruct (races st !! r); [apply races_cleanup_loop|done]. Qed.

Lemma log_cleanup r st : log (cleanup r st) = log st.
Proof. unfold cleanup. destruct (races st !! r); [apply log_cleanup_loop|done]. Qed.

Lemma promises_cleanup r st : promises (cleanup r st) = promises st.
Proof. unfold cleanup. destruct (races st !! r); [apply promises_cleanup_loop|done]. Qed.

Lemma cleanup_wf r st : wf st -> wf (cleanup r st).
Proof. intros H. unfold cleanup. destruct (races st !! r); [by apply cleanup_loop_wf|done]. Qed.

Lemma cleanup_frame r r' st : wf st -> r' <> r -> frame r st (cleanup r' st).
Proof.
  intros W Hne. unfold cleanup. destruct (races st !! r') as [env|] eqn:E; [|apply frame_refl].
  apply cleanup_loop_frame. apply Forall_forall. intros c Hc.
  rewrite (wf_cleanups _ W _ _ _ E Hc). congruence.
Qed.

Lemma races_resolve p v st : races (resolve p v st) = races st.
Proof. unfold resolve. by destruct (promises st !! p) as [[]|]. Qed.

Lemma ev_resolve p v st : ev (resolve p v st) = ev st.
Proof. unfold resolve. by destruct (promises st !! p) as [[]|]. Qed.

Lemma log_resolve p v st : log (resolve p v st) = log st.
Proof. unfold resolve. by destruct (promises st !! p) as [[]|]. Qed.

Lemma length_promises_resolve p v st :
  length (promises (resolve p v st)) = length (promises st).
Proof.
  unfold resolve. destruct (promises st !! p) as [[]|]; simpl; try done.
  by rewrite length_insert.
Qed.

Lemma promises_resolve_ne p q v st :
  p <> q -> promises (resolve p v st) !! q = promises st !! q.
Proof.
  intros Hne. unfold resolve. destruct (promises st !! p) as [[]|]; simpl; try done.
  by rewrite list_lookup_insert_ne.
Qed.

Lemma promises_resolve_eq p v st :
  promises (resolve p v st) !! p =
    match promises st !! p with
    | Some Pending => Some (Fulfilled v)
    | o => o
    end.
Proof.
  unfold resolve. destruct (promises st !! p) as [[]|] eqn:E; simpl; try done.
  apply list_lookup_insert_eq. by eapply lookup_lt_Some.
Qed.

Lemma races_settle p res event st : races (settle p res event st) = races st.
Proof. unfold settle. case_decide; apply races_resolve. Qed.

Lemma ev_settle p res event st : ev (settle p res event st) = ev st.
Proof. unfold settle. case_decide; apply ev_resolve. Qed.

Lemma log_settle p res event st : log (settle p res event st) = log st.
Proof. unfold settle. case_decide; apply log_resolve. Qed.

Lemma length_promises_settle p res event st :
  length (promises (settle p res event st)) = length (promises st).
Proof. unfold settle. case_decide; apply length_promises_resolve. Qed.

Lemma promises_settle_ne p q res event st :
  p <> q -> promises (settle p res event st) !! q = promises st !! q.
Proof. intros. unfold settle. case_decide; by apply promises_resolve_ne. Qed.

Lemma races_apply_done r err ee event args st :
  races (apply_done r err ee event args st) = races st.
Proof.
  unfold apply_done. destruct (races st !! r) as [env|]; [|done].
  destruct (done env); [done|]. by rewrite races_settle.
Qed.

Lemma ev_apply_done r err ee event args st :
  ev (apply_done r err ee event args st) = ev st.
Proof.
  unfold apply_done. destruct (races st !! r) as [env|]; [|done].
  destruct (done env); [done|]. by rewrite ev_settle.
Qed.

Lemma length_promises_apply_done r err ee event args st :
  length (promises (apply_done r err ee event args st)) = length (promises st).
Proof.
  unfold apply_done. destruct (races st !! r) as [env|]; [|done].
  destruct (done env); [done|]. by rewrite length_promises_settle.
Qed.

Lemma log_apply_done r err ee event args st :
  log (apply_done r err ee event args st) =
    match races st !! r with
    | Some env => log st ++ [{| call_race := r; call_done := done env; call_err := err;
                                call_ee := ee; call_event := event; call_args := args |}]
    | None => log st
    end.
Proof.
  unfold apply_done. destruct (races st !! r) as [env|]; [|done].
  destruct (done env); [done|]. by rewrite log_settle.
Qed.

Lemma listeners_same_ev st st' ee event :
  ev st' = ev st -> listeners st' ee event = listeners st ee event.
Proof. unfold listeners. by intros ->. Qed.

Lemma race_listeners_same_ev r st st' ee event :
  ev st' = ev st -> race_listeners r st' ee event = race_listeners r st ee event.
Proof. unfold race_listeners. intros H. by rewrite (listeners_same_ev _ _ _ _ H). Qed.

Lemma apply_done_wf r err ee event args st : wf st -> wf (apply_done r err ee event args st).
Proof.
  intros [W1 W2 W3 W4]. split.
  - intros ee' event' x r' Hx Hr. rewrite races_apply_done.
    rewrite (listeners_same_ev st) in Hx by apply ev_apply_done. by eapply W1.
  - rewrite races_apply_done. exact W2.
  - rewrite races_apply_done, length_promises_apply_done. exact W3.
  - rewrite races_apply_done, log_apply_done. intros c Hc.
    destruct (races st !! r) as [env|] eqn:E; [|by apply W4].
    apply elem_of_app in Hc as [Hc|Hc]; [by apply W4|].
    apply list_elem_of_singleton in Hc. subst c. simpl. by eapply lookup_lt_Some.
Qed.

Lemma apply_done_frame r r' err ee event args st :
  r' <> r -> frame r st (apply_done r' err ee event args st).
Proof.
  intros Hne. split.
  - by rewrite races_apply_done.
  - intros. apply race_listeners_same_ev, ev_apply_done.
  - unfold rcalls. rewrite log_apply_done. destruct (races st !! r'); [|done].
    rewrite filter_app, filter_cons_False, filter_nil by (simpl; congruence).
    by rewrite app_nil_r.
  - by rewrite length_promises_apply_done.
  - intros p Hp _. split; [|unfold private; by rewrite races_apply_done].
    unfold apply_done. destruct (races st !! r') as [env|] eqn:E; [|done].
    destruct (done env) as [k|p' res] eqn:D; [done|].
    rewrite promises_settle_ne; [done|].
    intros ->. apply Hne. by eapply Hp.
Qed.

Lemma callback_wf r err ee event args st : wf st -> wf (callback r err ee event args st).
Proof. intros. unfold callback. by apply apply_done_wf, cleanup_wf. Qed.

Lemma callback_frame r r' err ee event args st :
  wf st -> r' <> r -> frame r st (callback r' err ee event args st).
Proof.
  intros W Hne. unfold callback. eapply frame_trans.
  - by apply cleanup_frame.
  - by apply apply_done_frame.
Qed.

Lemma invoke_wf f this args st : wf st -> wf (invoke f this args st).
Proof. intros. destruct f; simpl; [|done]. by apply callback_wf. Qed.

Lemma invoke_frame r f this args st :
  wf st -> fn_race f <> Some r -> frame r st (invoke f this args st).
Proof.
  intros W Hf. destruct f as [id e r'|k]; simpl; [|apply frame_refl].
  apply callback_frame; [done|]. simpl in Hf. congruence.
Qed.

Lemma dispatch_wf snapshot this args st : wf st -> wf (dispatch snapshot this args st).
Proof.
  revert st. induction snapshot as [|f l IH]; intros st W; simpl; [done|].
  by apply IH, invoke_wf.
Qed.

Lemma dispatch_frame r snapshot this args st :
  wf st -> Forall (fun f => fn_race f <> Some r) snapshot ->
  frame r st (dispatch snapshot this args st).
Proof.
  revert st. induction snapshot as [|f l IH]; intros st W H; simpl; [apply frame_refl|].
  inversion H; subst. eapply frame_trans; [by apply invoke_frame|].
  apply IH; [by apply invoke_wf|done].
Qed.
End frames.

(** ** What [first] builds *)

Section build.
Implicit Types (st : state) (f : fn) (r ee id : nat) (event : string)
  (cs : list cleanup_entry).

Lemma own_nil ee event : own [] ee event = [].
Proof. done. Qed.

Lemma own_app cs1 cs2 ee event : own (cs1 ++ cs2) ee event = own cs1 ee event ++ own cs2 ee event.
Proof. unfold own. by rewrite filter_app, map_app. Qed.

Lemma own_cons c cs ee event :
  own (c :: cs) ee event =
    if decide ((c_ee c, c_event c) = (ee, event)) then c_fn c :: own cs ee event
    else own cs ee event.
Proof.
  unfold own. rewrite filter_cons. destruct (decide (c_ee c = ee /\ c_event c = event)) as [[<- <-]|Hn].
  - by rewrite decide_True.
  - rewrite decide_False; [done|]. intros Hk. inversion Hk. tauto.
Qed.

Lemma elem_of_own cs ee event f :
  f ∈ own cs ee event <-> exists c, c ∈ cs /\ c_fn c = f /\ c_ee c = ee /\ c_event c = event.
Proof.
  unfold own. rewrite list_elem_of_fmap. split.
  - intros (c & -> & Hc). apply list_elem_of_filter in Hc as [[? ?] ?]. eauto.
  - intros (c & Hc & <- & ? & ?). exists c. split; [done|].
    apply list_elem_of_filter. eauto.
Qed.

Lemma mk_cleanups_length r ee id events :
  length (mk_cleanups r ee id events) = length events.
Proof. revert id. induction events; intros; simpl; [done|]. by rewrite IHevents. Qed.

Lemma mk_cleanups_keys r ee id events :
  map (fun c => (c_ee c, c_event c)) (mk_cleanups r ee id events) =
    map (fun e => (ee, e)) events.
Proof. revert id. induction events; intros; simpl; [done|]. by rewrite IHevents. Qed.

Lemma mk_cleanups_fn r ee id events c :
  c ∈ mk_cleanups r ee id events ->
  exists i, c_fn c = Onevent i (c_event c) r /\ id <= i < id + length events.
Proof.
  revert id. induction events as [|e es IH]; intros id H; simpl in *.
  - by apply elem_of_nil in H.
  - apply elem_of_cons in H as [->|H].
    + exists id. simpl. split; [done|lia].
    + destruct (IH _ H) as (i & ? & ?). exists i. split; [done|lia].
Qed.

Lemma mk_all_fn r id stuff c :
  c ∈ mk_all r id stuff ->
  exists i, c_fn c = Onevent i (c_event c) r /\ id <= i < id + length (mk_all r id stuff).
Proof.
  revert id. induction stuff as [|arr rest IH]; intros id H; simpl in *.
  - by apply elem_of_nil in H.
  - destruct arr as [| |ee events]; try (by apply IH).
    rewrite length_app, mk_cleanups_length.
    apply elem_of_app in H as [H|H].
    + destruct (mk_cleanups_fn _ _ _ _ _ H) as (i & ? & ?). exists i. split; [done|lia].
    + destruct (IH _ H) as (i & ? & ?). exists i. split; [done|lia].
Qed.

Lemma mk_cleanups_NoDup r ee id events : NoDup (map c_fn (mk_cleanups r ee id events)).
Proof.
  revert id. induction events as [|e es IH]; intros id; simpl; [constructor|].
  constructor; [|apply IH].
  intros Hin. apply list_elem_of_fmap in Hin as (c & Hc & Hin).
  destruct (mk_cleanups_fn _ _ _ _ _ Hin) as (i & Hi & ?).
  rewrite Hi in Hc. inversion Hc. lia.
Qed.

Lemma mk_all_NoDup r id stuff : NoDup (map c_fn (mk_all r id stuff)).
Proof.
  revert id. induction stuff as [|arr rest IH]; intros id; simpl; [constructor|].
  destruct arr as [| |ee events]; try apply IH.
  rewrite map_app. apply NoDup_app. split; [apply mk_cleanups_NoDup|]. split; [|apply IH].
  intros f H1 H2.
  apply list_elem_of_fmap in H1 as (c1 & -> & H1).
  apply list_elem_of_fmap in H2 as (c2 & E & H2).
  destruct (mk_cleanups_fn _ _ _ _ _ H1) as (i & Hi & ?).
  destruct (mk_all_fn _ _ _ _ H2) as (j & Hj & ?).
  rewrite Hi, Hj in E. inversion E. lia.
Qed.

Lemma mk_all_keys r id stuff :
  map (fun c => (c_ee c, c_event c)) (mk_all r id stuff) = combos stuff.
Proof.
  revert id. induction stuff as [|arr rest IH]; intros id; simpl; [done|].
  unfold combos; simpl. fold (combos rest).
  destruct arr as [| |ee events]; simpl; try apply IH.
  by rewrite map_app, mk_cleanups_keys, IH.
Qed.

Lemma own_length cs ee event :
  length (own cs ee event) =
    length (filter (fun k => k = (ee, event)) (map (fun c => (c_ee c, c_event c)) cs)).
Proof.
  unfold own. rewrite length_map. induction cs as [|c cs IH]; [done|].
  simpl. rewrite !filter_cons.
  destruct (decide (c_ee c = ee /\ c_event c = event)) as [[<- <-]|Hn].
  - rewrite decide_True by done. simpl. by rewrite IH.
  - rewrite decide_False; [done|]. intros Hk. inversion Hk. tauto.
Qed.
End build.

Section first_builds.
Implicit Types (st : state) (f : fn) (r ee id : nat) (event : string)
  (cs : list cleanup_entry).

Lemma alter_as_insert {A} (g : A -> A) (l : list A) i x :
  l !! i = Some x -> alter g i l = <[i := g x]> l.
Proof.
  intros H. apply list_eq. intros j. destruct (decide (i = j)) as [<-|Hne].
  - rewrite list_lookup_alter_eq, H. simpl.
    symmetry. apply list_lookup_insert_eq. by eapply lookup_lt_Some.
  - by rewrite list_lookup_alter_ne, list_lookup_insert_ne.
Qed.

Lemma attach_events_spec r ee events st env :
  races st !! r = Some env ->
  let st' := attach_events r ee events st in
  let cs := mk_cleanups r ee (next_fn st) events in
  races st' = <[r := {| cleanups := cleanups env ++ cs; done := done env |}]> (races st)
  /\ (forall ee' event',
        listeners st' ee' event' = listeners st ee' event' ++ own cs ee' event')
  /\ next_fn st' = next_fn st + length events
  /\ log st' = log st /\ promises st' = promises st.
Proof.
  revert st env. induction events as [|e es IH]; intros st env Henv; simpl.
  - rewrite app_nil_r. split.
    { symmetry. apply list_insert_id. by destruct env. }
    split; [intros; by rewrite own_nil, app_nil_r|]. split; [lia|done].
  - set (f := Onevent (next_fn st) e r).
    set (c := {| c_ee := ee; c_event := e; c_fn := f |}).
    set (st1 := push_cleanup r c (on ee e f (set_next_fn (S (next_fn st)) st))).
    assert (races st1 = <[r := {| cleanups := cleanups env ++ [c]; done := done env |}]> (races st)) as Hr1.
    { unfold st1, push_cleanup; simpl.
      exact (alter_as_insert (fun env0 => {| cleanups := cleanups env0 ++ [c]; done := done env0 |})
               _ _ env Henv). }
    assert (races st1 !! r = Some {| cleanups := cleanups env ++ [c]; done := done env |}) as Henv1.
    { rewrite Hr1. apply list_lookup_insert_eq. by eapply lookup_lt_Some. }
    destruct (IH st1 _ Henv1) as (Ha & Hb & Hc & Hd & He). simpl in *.
    split; [|split; [|split; [|split]]].
    + rewrite Ha, Hr1, list_insert_insert_eq. by rewrite <- app_assoc.
    + intros ee' event'. rewrite Hb.
      assert (listeners st1 ee' event' =
              listeners (on ee e f (set_next_fn (S (next_fn st)) st)) ee' event') as ->
        by done.
      rewrite listeners_on. fold c. rewrite (own_cons c). simpl.
      case_decide as Hk.
      * inversion Hk; subst. by rewrite <- app_assoc.
      * done.
    + rewrite Hc. simpl. lia.
    + by rewrite Hd.
    + by rewrite He.
Qed.

Lemma attach_entries_result r stuff st :
  fst (attach_entries r stuff st) =
    if decide (Forall well_formed stuff) then Return r
    else Throw "each array member must be [ee, events...]".
Proof.
  revert st. induction stuff as [|arr rest IH]; intros st.
  - by destruct (decide (Forall well_formed [])) as [|[]].
  - destruct (decide (Forall well_formed (arr :: rest))) as [Hf|Hf].
    + inversion Hf as [|?? [Ha Hl] Hrest]; subst.
      destruct arr as [| |ee events]; simpl in Ha, Hl; try done; try lia.
      destruct events as [|e es]; simpl in Hl; [lia|].
      cbn [attach_entries isArray arr_length negb orb Nat.ltb Nat.leb length].
      rewrite IH. by destruct (decide (Forall well_formed rest)).
    + destruct arr as [| |ee events]; try done.
      destruct events as [|e es]; [done|].
      cbn [attach_entries isArray arr_length negb orb Nat.ltb Nat.leb length].
      rewrite IH. destruct (decide (Forall well_formed rest)) as [Hr|Hr]; [|done].
      exfalso. apply Hf. constructor; [|done]. split; simpl; [done|lia].
Qed.

Lemma attach_entries_spec r stuff st env :
  races st !! r = Some env ->
  let st' := snd (attach_entries r stuff st) in
  let cs := mk_all r (next_fn st) (good_prefix stuff) in
  races st' = <[r := {| cleanups := cleanups env ++ cs; done := done env |}]> (races st)
  /\ (forall ee' event',
        listeners st' ee' event' = listeners st ee' event' ++ own cs ee' event')
  /\ log st' = log st /\ promises st' = promises st.
Proof.
  revert st env. induction stuff as [|arr rest IH]; intros st env Henv.
  - simpl. rewrite app_nil_r. split.
    { symmetry. apply list_insert_id. by destruct env. }
    split; [intros; by rewrite own_nil, app_nil_r|done].
  - assert (forall st0 : state, races st0 !! r = Some env ->
              races st0 = <[r := {| cleanups := cleanups env ++ []; done := done env |}]> (races st0)) as Hid.
    { intros st0 H0. rewrite app_nil_r. symmetry. apply list_insert_id. by destruct env. }
    destruct arr as [| |ee events].
    + simpl. split; [by apply Hid|]. split; [intros; by rewrite own_nil, app_nil_r|done].
    + simpl.
      split; [by apply Hid|]. split; [intros; by rewrite own_nil, app_nil_r|done].
    + destruct events as [|e es].
      * simpl.
        split; [by apply Hid|]. split; [intros; by rewrite own_nil, app_nil_r|done].
      * cbn [good_prefix]. rewrite decide_True by (split; simpl; [done|lia]).
        cbn [mk_all].
        change (snd (attach_entries r (EArray ee (e :: es) :: rest) st))
          with (snd (attach_entries r rest (attach_events r ee (e :: es) st))).
        destruct (attach_events_spec r ee (e :: es) st env Henv) as (Ha & Hb & Hc & Hd & He).
        set (st1 := attach_events r ee (e :: es) st) in *.
        assert (races st1 !! r = Some {| cleanups := cleanups env ++ mk_cleanups r ee (next_fn st) (e :: es);
                                         done := done env |}) as Henv1.
        { rewrite Ha. apply list_lookup_insert_eq. by eapply lookup_lt_Some. }
        destruct (IH st1 _ Henv1) as (Ha' & Hb' & Hc' & Hd'). cbn [cleanups done] in *.
        rewrite Hc in *.
        split; [|split; [|split]].
        -- rewrite Ha', Ha, list_insert_insert_eq. by rewrite <- app_assoc.
        -- intros ee' event'. rewrite Hb', Hb, own_app. by rewrite <- app_assoc.
        -- by rewrite Hc', Hd.
        -- by rewrite Hd', He.
Qed.
End first_builds.

Section first_spec.
Implicit Types (st : state) (f : fn) (r ee id : nat) (event : string)
  (cs : list cleanup_entry).

Lemma first_spec entries d st :
  let r := length (races st) in
  let cs := mk_all r (next_fn st) (good_prefix entries) in
  let st' := snd (first (Array entries) d st) in
  fst (first (Array entries) d st) =
    (if decide (Forall well_formed entries) then Return r
     else Throw "each array member must be [ee, events...]")
  /\ races st' = races st ++ [{| cleanups := cs; done := d |}]
  /\ (forall ee event, listeners st' ee event = listeners st ee event ++ own cs ee event)
  /\ log st' = log st /\ promises st' = promises st.
Proof.
  intros r cs st'. unfold first in *. fold r in st'.
  set (st0 := set_races (races st ++ [{| cleanups := []; done := d |}]) st) in *.
  assert (races st0 !! r = Some {| cleanups := []; done := d |}) as Henv.
  { unfold st0; simpl. by apply list_lookup_middle. }
  split; [apply attach_entries_result|].
  destruct (attach_entries_spec r entries st0 _ Henv) as (Ha & Hb & Hc & Hd).
  simpl in Ha. split; [|split; [|split]].
  - unfold st'. rewrite Ha.
    replace r with (length (races st) + 0) at 1 by (unfold r; lia).
    by rewrite insert_app_r.
  - intros ee event. unfold st'. by rewrite Hb.
  - done.
  - done.
Qed.

Lemma first_returns entries d st :
  Forall well_formed entries ->
  first (Array entries) d st = (Return (length (races st)), snd (first (Array entries) d st)).
Proof.
  intros H. destruct (first_spec entries d st) as (Ha & _).
  rewrite decide_True in Ha by done.
  destruct (first (Array entries) d st) as [res st']. simpl in *. by subst.
Qed.

Lemma good_prefix_all stuff : Forall well_formed stuff -> good_prefix stuff = stuff.
Proof.
  induction 1 as [|arr rest Ha Hr IH]; [done|].
  cbn [good_prefix]. destruct (decide (well_formed arr)); [|done]. by rewrite IH.
Qed.

Lemma race_filter_own r cs ee event :
  (forall c, c ∈ cs -> fn_race (c_fn c) = Some r) ->
  filter (fun f => fn_race f = Some r) (own cs ee event) = own cs ee event.
Proof.
  intros H. induction cs as [|c cs IH]; [done|].
  rewrite own_cons. case_decide.
  - rewrite filter_cons_True by (apply H; by left).
    rewrite IH; [done|]. intros c' Hc'. apply H. by right.
  - apply IH. intros c' Hc'. apply H. by right.
Qed.

Lemma race_filter_own_other r r' cs ee event :
  r <> r' ->
  (forall c, c ∈ cs -> fn_race (c_fn c) = Some r') ->
  filter (fun f => fn_race f = Some r) (own cs ee event) = [].
Proof.
  intros Hne H. induction cs as [|c cs IH]; [done|].
  rewrite own_cons. case_decide.
  - rewrite filter_cons_False.
    + apply IH. intros c' Hc'. apply H. by right.
    + rewrite (H c) by (by left). congruence.
  - apply IH. intros c' Hc'. apply H. by right.
Qed.

Lemma race_listeners_fresh r st ee event :
  wf st -> length (races st) <= r -> race_listeners r st ee event = [].
Proof.
  intros W Hr. unfold race_listeners.
  destruct (filter _ _) as [|f l] eqn:E; [done|]. exfalso.
  assert (f ∈ filter (fun f => fn_race f = Some r) (listeners st ee event)) as Hf
    by (rewrite E; by left).
  apply list_elem_of_filter in Hf as [Hf1 Hf2].
  pose proof (wf_listeners _ W _ _ _ _ Hf2 Hf1). lia.
Qed.

Lemma extends_wf st st' env :
  wf st -> extends st st' env ->
  (forall q res, done env = DoneCheck q res -> q < length (promises st')) ->
  wf st'.
Proof.
  intros [W1 W2 W3 W4] [Hr Hl Hf Hlog [ps Hp]] Hd. split.
  - intros ee event f r Hin Hrace. rewrite Hr, length_app. simpl.
    rewrite Hl in Hin. apply elem_of_app in Hin as [Hin|Hin].
    + pose proof (W1 _ _ _ _ Hin Hrace). lia.
    + apply elem_of_own in Hin as (c & Hc & <- & _).
      rewrite (Hf _ Hc) in Hrace. inversion Hrace. lia.
  - intros r env' c Hlook Hc. rewrite Hr in Hlook.
    apply lookup_app_Some in Hlook as [Hlook|[Hge Hlook]].
    + by eapply W2.
    + destruct (r - length (races st)) as [|n] eqn:En; simpl in Hlook; [|done].
      inversion Hlook; subst. rewrite (Hf _ Hc). f_equal. lia.
  - intros r env' p res Hlook Hdone. rewrite Hr in Hlook.
    apply lookup_app_Some in Hlook as [Hlook|[Hge Hlook]].
    + pose proof (W3 _ _ _ _ Hlook Hdone). rewrite Hp, length_app. lia.
    + destruct (r - length (races st)) as [|n] eqn:En; simpl in Hlook; [|done].
      inversion Hlook; subst. by eapply Hd.
  - intros c Hc. rewrite Hlog in Hc. rewrite Hr, length_app.
    pose proof (W4 _ Hc). lia.
Qed.

Lemma extends_frame r st st' env :
  r < length (races st) -> extends st st' env ->
  (forall q res, done env = DoneCheck q res -> length (promises st) <= q) ->
  frame r st st'.
Proof.
  intros Hlt [Hr Hl Hf Hlog [ps Hp]] Hd. split.
  - rewrite Hr. by apply lookup_app_l.
  - intros ee event. unfold race_listeners. rewrite Hl, filter_app.
    rewrite (race_filter_own_other r (length (races st))); [by rewrite app_nil_r|lia|done].
  - unfold rcalls. by rewrite Hlog.
  - rewrite Hp, length_app. lia.
  - intros p Hpriv Hplt. split.
    + rewrite Hp. by apply lookup_app_l.
    + intros r' env' res Hlook Hdone. rewrite Hr in Hlook.
      apply lookup_app_Some in Hlook as [Hlook|[Hge Hlook]]; [by eapply Hpriv|].
      destruct (r' - length (races st)) as [|n] eqn:En; simpl in Hlook; [|done].
      inversion Hlook; subst. pose proof (Hd _ _ Hdone). lia.
Qed.

Lemma first_extends entries d st :
  extends st (snd (first (Array entries) d st))
    {| cleanups := mk_all (length (races st)) (next_fn st) (good_prefix entries); done := d |}.
Proof.
  destruct (first_spec entries d st) as (_ & Hr & Hl & Hlog & Hp).
  split; try done.
  - intros c Hc. simpl in Hc. destruct (mk_all_fn _ _ _ _ Hc) as (i & -> & _). done.
  - exists []. by rewrite app_nil_r.
Qed.

Lemma first_wf stuff k st : wf st -> wf (snd (first stuff (DoneUser k) st)).
Proof.
  intros W. destruct stuff as [|entries]; [done|].
  eapply extends_wf; [done|apply first_extends|]. intros q res H. simpl in H. done.
Qed.

Lemma first_frame r stuff k st :
  r < length (races st) -> frame r st (snd (first stuff (DoneUser k) st)).
Proof.
  intros Hr. destruct stuff as [|entries]; [apply frame_refl|].
  eapply extends_frame; [done|apply first_extends|]. intros q res H. simpl in H. done.
Qed.
End first_spec.

(** ** The life of one race *)

Section race.
Implicit Types (st : state) (f : fn) (r ee id : nat) (event : string)
  (cs : list cleanup_entry) (d : donefn) (ph : phase).

Lemma built_race r cs c : race_built r cs -> c ∈ cs -> fn_race (c_fn c) = Some r.
Proof. intros [_ H] Hc. destruct (H c Hc) as [id ->]. done. Qed.

Lemma in_phase_frame ph r cs st st' :
  frame r st st' -> in_phase ph r cs st -> in_phase ph r cs st'.
Proof.
  intros F H. destruct ph; simpl in *; intros ee event;
    rewrite (fr_listeners _ _ _ F); apply H.
Qed.

Lemma race_inv_frame r cs d ph st st' :
  race_inv r cs d ph st -> wf st' -> frame r st st' -> race_inv r cs d ph st'.
Proof.
  intros [W E B P] W' F. split; [done| |done|by eapply in_phase_frame].
  by rewrite (fr_env _ _ _ F).
Qed.

Lemma first_race_inv entries d st :
  wf st -> Forall well_formed entries ->
  (forall q res, d = DoneCheck q res -> q < length (promises st)) ->
  race_inv (length (races st))
    (mk_all (length (races st)) (next_fn st) entries) d Waiting
    (snd (first (Array entries) d st)).
Proof.
  intros W Hwf Hd. pose proof (first_extends entries d st) as X.
  rewrite (good_prefix_all _ Hwf) in X.
  assert (race_built (length (races st)) (mk_all (length (races st)) (next_fn st) entries)) as B.
  { split; [apply mk_all_NoDup|]. intros c Hc.
    destruct (mk_all_fn _ _ _ _ Hc) as (i & ? & _). eauto. }
  split; [| |done|].
  - eapply extends_wf; [done..|]. simpl. intros q res Hq.
    destruct (ex_promises _ _ _ X) as [ps Hps]. unfold first in Hps. rewrite Hps, length_app.
    pose proof (Hd _ _ Hq). lia.
  - rewrite (ex_races _ _ _ X). by apply list_lookup_middle.
  - intros ee event. unfold race_listeners.
    rewrite (ex_listeners _ _ _ X), filter_app. simpl.
    fold (race_listeners (length (races st)) st ee event).
    rewrite race_listeners_fresh by (done || lia). simpl.
    apply race_filter_own. intros c Hc. by eapply built_race.
Qed.

Lemma own_not_elem c cs ee event :
  NoDup (map c_fn (c :: cs)) -> c_fn c ∉ own cs ee event.
Proof.
  intros H Hin. inversion H as [|?? Hn _]; subst. apply Hn.
  apply elem_of_own in Hin as (c' & Hc' & E & _).
  apply list_elem_of_fmap. eauto.
Qed.

Lemma cleanup_loop_detaches r cs st :
  (forall c, c ∈ cs -> fn_race (c_fn c) = Some r) ->
  NoDup (map c_fn cs) ->
  attached r cs st -> detached r (cleanup_loop cs st).
Proof.
  revert st. induction cs as [|c cs IH]; intros st Hr Hnd Hat; simpl.
  - intros ee event. by rewrite Hat.
  - apply IH.
    + intros c' Hc'. apply Hr. by right.
    + by inversion Hnd.
    + intros ee event. rewrite race_listeners_removeListener, Hat, own_cons.
      destruct (decide ((c_ee c, c_event c) = (ee, event))) as [Hk|Hk].
      * rewrite decide_True by (split; [done|apply Hr; by left]).
        rewrite remove_last_head; [done|]. by apply own_not_elem.
      * by rewrite decide_False by tauto.
Qed.

Lemma cleanup_loop_detached r cs st :
  (forall c, c ∈ cs -> fn_race (c_fn c) = Some r) ->
  detached r st -> cleanup_loop cs st = st.
Proof.
  intros Hr Hd. induction cs as [|c cs IH]; simpl; [done|].
  rewrite removeListener_absent.
  - apply IH. intros c' Hc'. apply Hr. by right.
  - intros Hin.
    assert (c_fn c ∈ race_listeners r st (c_ee c) (c_event c)) as Hin'.
    { apply list_elem_of_filter. split; [apply Hr; by left|done]. }
    rewrite Hd in Hin'. by apply elem_of_nil in Hin'.
Qed.

Lemma cleanup_settles r cs d ph st :
  race_inv r cs d ph st -> race_inv r cs d Settled (cleanup r st).
Proof.
  intros [W E B P]. split; [by apply cleanup_wf|by rewrite races_cleanup|done|].
  unfold cleanup. rewrite E. simpl. destruct ph; simpl in P.
  - apply (cleanup_loop_detaches r); [intros; by eapply built_race|apply B|done].
  - rewrite (cleanup_loop_detached r); [done| |done]. intros; by eapply built_race.
Qed.

Lemma cleanup_settled r cs d st :
  race_inv r cs d Settled st -> cleanup r st = st.
Proof.
  intros [W E B P]. unfold cleanup. rewrite E. simpl.
  apply (cleanup_loop_detached r); [|done]. intros; by eapply built_race.
Qed.

Lemma rcalls_cleanup r r' st : rcalls r (cleanup r' st) = rcalls r st.
Proof. unfold rcalls. by rewrite log_cleanup. Qed.

Lemma apply_done_own r cs d ph err ee event args st :
  race_inv r cs d ph st ->
  race_inv r cs d ph (apply_done r err ee event args st)
  /\ rcalls r (apply_done r err ee event args st) =
       rcalls r st ++ [{| call_race := r; call_done := d; call_err := err; call_ee := ee;
                          call_event := event; call_args := args |}].
Proof.
  intros [W E B P]. split.
  - split; [by apply apply_done_wf|by rewrite races_apply_done|done|].
    destruct ph; simpl in *; intros ee' event';
      rewrite (race_listeners_same_ev _ st) by apply ev_apply_done; apply P.
  - unfold rcalls. rewrite log_apply_done, E. simpl.
    by rewrite filter_app, filter_cons_True, filter_nil.
Qed.

Lemma invoke_own r cs d ph id e this args st :
  race_inv r cs d ph st ->
  race_inv r cs d Settled (invoke (Onevent id e r) this args st)
  /\ rcalls r (invoke (Onevent id e r) this args st) =
       rcalls r st ++ [mkcall r d this e args].
Proof.
  intros I. simpl. unfold onevent, callback.
  pose proof (cleanup_settles _ _ _ _ _ I) as I1.
  destruct (apply_done_own r cs d Settled (err_of e args) this e args _ I1) as [I2 C].
  split; [exact I2|]. unfold err_of in *. rewrite C. by rewrite rcalls_cleanup.
Qed.

Lemma dispatch_race r cs d ph snapshot this args st :
  race_inv r cs d ph st ->
  let mine := filter (fun f => fn_race f = Some r) snapshot in
  race_inv r cs d (phase_after ph mine) (dispatch snapshot this args st)
  /\ rcalls r (dispatch snapshot this args st) =
       rcalls r st ++ map (call_of r d this args) mine.
Proof.
  revert ph st. induction snapshot as [|f l IH]; intros ph st I; simpl.
  - by rewrite app_nil_r.
  - rewrite filter_cons. destruct (decide (fn_race f = Some r)) as [Hf|Hf].
    + destruct f as [id e r'|k]; [|done]. simpl in Hf. inversion Hf; subst r'.
      destruct (invoke_own r cs d ph id e this args st I) as [I1 C1].
      destruct (IH Settled _ I1) as [I2 C2]. split.
      * simpl. by destruct (filter _ l).
      * rewrite C2, C1. simpl. by rewrite <- app_assoc.
    + pose proof (invoke_frame r f this args st (inv_wf _ _ _ _ _ I) Hf) as F.
      pose proof (invoke_wf f this args st (inv_wf _ _ _ _ _ I)) as W.
      destruct (IH ph _ (race_inv_frame _ _ _ _ _ _ I W F)) as [I2 C2]. split; [done|].
      by rewrite C2, (fr_calls _ _ _ F).
Qed.

Lemma map_call_of_own r cs d this args ee event :
  race_built r cs ->
  map (call_of r d this args) (own cs ee event) =
    replicate (length (own cs ee event)) (mkcall r d this event args).
Proof.
  intros B. induction cs as [|c cs IH]; [done|].
  assert (race_built r cs) as B'.
  { destruct B as [Hn Hf]. split; [by inversion Hn|]. intros c' Hc'. apply Hf. by right. }
  rewrite own_cons. case_decide as Hk; [|by apply IH].
  inversion Hk; subst. simpl. rewrite IH by done.
  destruct (built_fn _ _ B c) as [id ->]; [by left|]. done.
Qed.

(** Emitting an event while the race waits. *)
Lemma emit_waiting r cs d ee event args st :
  race_inv r cs d Waiting st ->
  race_inv r cs d (phase_after Waiting (own cs ee event)) (emit ee event args st)
  /\ rcalls r (emit ee event args st) =
       rcalls r st ++ replicate (length (own cs ee event)) (mkcall r d ee event args).
Proof.
  intros I. unfold emit.
  destruct (dispatch_race r cs d Waiting (listeners st ee event) ee args st I) as [I1 C1].
  fold (race_listeners r st ee event) in I1, C1.
  rewrite (inv_phase _ _ _ _ _ I ee event) in I1, C1.
  split; [done|]. rewrite C1. f_equal. apply map_call_of_own, I.
Qed.

(** Emitting an event after the race has settled. *)
Lemma emit_settled r cs d ee event args st :
  race_inv r cs d Settled st ->
  race_inv r cs d Settled (emit ee event args st)
  /\ rcalls r (emit ee event args st) = rcalls r st.
Proof.
  intros I. unfold emit.
  destruct (dispatch_race r cs d Settled (listeners st ee event) ee args st I) as [I1 C1].
  fold (race_listeners r st ee event) in I1, C1.
  rewrite (inv_phase _ _ _ _ _ I ee event) in I1, C1. simpl in *.
  by rewrite app_nil_r in C1.
Qed.
End race.

(** ** The promise of a check *)

Section promise.
Implicit Types (st : state) (f : fn) (p r ee id : nat) (event : string)
  (cs : list cleanup_entry) (d : donefn) (ph : phase).

Lemma promise_inv_frame p r st st' :
  promise_inv p r st -> frame r st st' -> promise_inv p r st'.
Proof.
  intros [P L S] F. destruct (fr_promises _ _ _ F p P L) as [E P']. split; [done| |].
  - pose proof (fr_len _ _ _ F). lia.
  - by rewrite E, (fr_calls _ _ _ F).
Qed.

Lemma cleanup_promise p r r' st : promise_inv p r st -> promise_inv p r (cleanup r' st).
Proof.
  intros [P L S]. split.
  - unfold private. by rewrite races_cleanup.
  - by rewrite promises_cleanup.
  - by rewrite promises_cleanup, rcalls_cleanup.
Qed.

Lemma replay_snoc p calls c : replay p (calls ++ [c]) = replay1 p (replay p calls) c.
Proof. unfold replay. by rewrite foldl_app. Qed.

Lemma apply_done_promise p r cs d ph err ee event args st :
  race_inv r cs d ph st -> promise_inv p r st ->
  promise_inv p r (apply_done r err ee event args st).
Proof.
  intros I [P L S]. destruct (apply_done_own r cs d ph err ee event args st I) as [_ C].
  split.
  - unfold private. by rewrite races_apply_done.
  - by rewrite length_promises_apply_done.
  - rewrite C, replay_snoc. unfold apply_done. rewrite (inv_env _ _ _ _ _ I). simpl.
    unfold replay1; simpl. destruct d as [k|p' res]; simpl.
    + rewrite S. by destruct (replay p (rcalls r st)).
    + destruct (decide (p' = p)) as [->|Hne].
      * unfold settle. destruct (decide (event = "done"));
          rewrite promises_resolve_eq; cbn [promises set_log]; rewrite S;
          by destruct (replay p (rcalls r st)).
      * rewrite promises_settle_ne by done. cbn [promises set_log]. rewrite S.
        by destruct (replay p (rcalls r st)).
Qed.

Lemma invoke_own_promise p r cs d ph id e this args st :
  race_inv r cs d ph st -> promise_inv p r st ->
  promise_inv p r (invoke (Onevent id e r) this args st).
Proof.
  intros I Pi. simpl. unfold onevent, callback.
  eapply apply_done_promise; [by eapply cleanup_settles|by apply cleanup_promise].
Qed.

Lemma dispatch_promise p r cs d ph snapshot this args st :
  race_inv r cs d ph st -> promise_inv p r st ->
  promise_inv p r (dispatch snapshot this args st).
Proof.
  revert ph st. induction snapshot as [|f l IH]; intros ph st I Pi; simpl; [done|].
  destruct (decide (fn_race f = Some r)) as [Hf|Hf].
  - destruct f as [id e r'|k]; [|done]. simpl in Hf. inversion Hf; subst r'.
    destruct (invoke_own r cs d ph id e this args st I) as [I1 _].
    eapply (IH Settled); [done|]. by eapply invoke_own_promise.
  - pose proof (invoke_frame r f this args st (inv_wf _ _ _ _ _ I) Hf) as F.
    pose proof (invoke_wf f this args st (inv_wf _ _ _ _ _ I)) as W.
    eapply (IH ph); [by eapply race_inv_frame|by eapply promise_inv_frame].
Qed.

Lemma emit_promise p r cs d ph ee event args st :
  race_inv r cs d ph st -> promise_inv p r st ->
  promise_inv p r (emit ee event args st).
Proof. intros. unfold emit. by eapply dispatch_promise. Qed.
End promise.

(** ** Steps of the environment *)

Section steps.
Implicit Types (st : state) (f : fn) (p r ee id : nat) (event : string)
  (cs : list cleanup_entry) (d : donefn) (ph : phase) (a : action).

Lemma check_setup_fields timeout token st :
  ev (check_setup timeout token st) = ev st
  /\ races (check_setup timeout token st) = races st
  /\ next_fn (check_setup timeout token st) = next_fn st
  /\ log (check_setup timeout token st) = log st
  /\ promises (check_setup timeout token st) = promises st ++ [Pending].
Proof. unfold check_setup. by destruct token. Qed.

Lemma check_setup_wf timeout token st : wf st -> wf (check_setup timeout token st).
Proof.
  intros [W1 W2 W3 W4].
  destruct (check_setup_fields timeout token st) as (Hev & Hr & _ & Hl & Hp). split.
  - intros ee event f r Hf. rewrite (listeners_same_ev st) in Hf by done.
    rewrite Hr. by eapply W1.
  - rewrite Hr. exact W2.
  - rewrite Hr, Hp. intros r env p res Hlook Hd. rewrite length_app.
    pose proof (W3 _ _ _ _ Hlook Hd). lia.
  - rewrite Hr, Hl. exact W4.
Qed.

Lemma check_spec data timeout token st :
  fst (check data timeout token st) =
    {| h_promise := length (promises st); h_cancelEmitter := next_ee st;
       h_doneEmitter := S (next_ee st) |}
  /\ snd (check data timeout token st) =
       snd (first (Array (check_pairs (next_ee st) (S (next_ee st))))
              (DoneCheck (length (promises st)) {| checks := data |})
              (check_setup timeout token st)).
Proof.
  assert (Forall well_formed (check_pairs (next_ee st) (S (next_ee st)))) as Hwf
    by (repeat constructor; simpl; lia).
  unfold check, new_EventEmitter, new_Promise.
  cbn [next_ee set_next_ee].
  set (st0 := setTimeout _ _ _).
  assert (promises st0 = promises st) as Hp by (unfold st0; by destruct token).
  assert (set_promises (promises st ++ [Pending]) st0 = check_setup timeout token st) as Hs
    by (unfold st0; by destruct token).
  rewrite Hp, Hs. by rewrite (first_returns _ _ _ Hwf).
Qed.

Lemma check_extends data timeout token st :
  extends st (snd (check data timeout token st))
    {| cleanups := mk_all (length (races st)) (next_fn st)
                     (check_pairs (next_ee st) (S (next_ee st)));
       done := DoneCheck (length (promises st)) {| checks := data |} |}.
Proof.
  destruct (check_spec data timeout token st) as [_ ->].
  destruct (check_setup_fields timeout token st) as (Hev & Hr & Hn & Hl & Hp).
  pose proof (first_extends (check_pairs (next_ee st) (S (next_ee st)))
                (DoneCheck (length (promises st)) {| checks := data |})
                (check_setup timeout token st)) as X.
  rewrite Hr, Hn in X. destruct X as [Xr Xl Xf Xlog [ps Xp]]. split.
  - by rewrite Xr, Hr.
  - intros ee event. rewrite Xl. by rewrite (listeners_same_ev st) by done.
  - by rewrite Hr in Xf.
  - by rewrite Xlog.
  - exists ([Pending] ++ ps). rewrite Xp, Hp. by rewrite <- app_assoc.
Qed.

Lemma check_wf data timeout token st : wf st -> wf (snd (check data timeout token st)).
Proof.
  intros W. pose proof (check_extends data timeout token st) as X.
  apply (extends_wf _ _ _ W X). cbn [done]. intros q res Hq. inversion Hq; subst.
  destruct (check_spec data timeout token st) as [_ ->].
  destruct (first_spec (check_pairs (next_ee st) (S (next_ee st)))
    (DoneCheck (length (promises st)) {| checks := data |})
    (check_setup timeout token st)) as (_ & _ & _ & _ & ->).
  destruct (check_setup_fields timeout token st) as (_ & _ & _ & _ & ->).
  rewrite length_app. simpl. lia.
Qed.

Lemma check_frame r data timeout token st :
  r < length (races st) -> frame r st (snd (check data timeout token st)).
Proof.
  intros Hr. apply (extends_frame r _ _ _ Hr (check_extends data timeout token st)).
  cbn [done]. intros q res Hq. inversion Hq; subst. lia.
Qed.

Lemma thunk_wf r k st : wf st -> wf (thunk r (DoneUser k) st).
Proof.
  intros [W1 W2 W3 W4]. unfold thunk. split; cbn [races promises log set_races].
  - intros ee event f r' Hin Hr'. rewrite length_alter. by eapply W1.
  - intros r' env c Hl Hc. rewrite list_lookup_alter in Hl.
    case_decide; [|by eapply W2]. subst.
    destruct (races st !! r') as [env'|] eqn:E; simpl in Hl; [|done].
    inversion Hl; subst. simpl in Hc. by eapply W2.
  - intros r' env p res Hl Hd. rewrite list_lookup_alter in Hl.
    case_decide; [|by eapply W3]. subst.
    destruct (races st !! r') as [env'|] eqn:E; simpl in Hl; [|done].
    inversion Hl; subst. simpl in Hd. done.
  - intros c Hc. rewrite length_alter. by apply W4.
Qed.

Lemma thunk_private p r r' k st : private p r st -> private p r (thunk r' (DoneUser k) st).
Proof.
  intros P r0 env res Hl Hd. unfold thunk in Hl; cbn [races set_races] in Hl.
  rewrite list_lookup_alter in Hl. case_decide; [|by eapply P]. subst.
  destruct (races st !! r0) as [env'|] eqn:E; simpl in Hl; [|done].
  inversion Hl; subst. simpl in Hd. done.
Qed.

Lemma thunk_frame r r' k st : r' <> r -> frame r st (thunk r' (DoneUser k) st).
Proof.
  intros Hne. split; try done.
  - unfold thunk; cbn [races set_races]. by rewrite list_lookup_alter_ne.
  - intros p P _. split; [done|]. by apply thunk_private.
Qed.

Lemma thunk_own r cs d ph k st :
  race_inv r cs d ph st -> race_inv r cs (DoneUser k) ph (thunk r (DoneUser k) st).
Proof.
  intros [W E B P]. split; [by apply thunk_wf| |done|by destruct ph].
  unfold thunk; cbn [races set_races]. by rewrite list_lookup_alter_eq, E.
Qed.

Lemma thunk_promise p r r' k st :
  promise_inv p r st -> promise_inv p r (thunk r' (DoneUser k) st).
Proof. intros [P L S]. split; [by apply thunk_private|done|done]. Qed.

Lemma set_console_wf c st : wf st -> wf (set_console c st).
Proof. intros [W1 W2 W3 W4]. by split. Qed.

Lemma set_console_frame r c st : frame r st (set_console c st).
Proof. by split. Qed.

Lemma set_next_ee_wf n st : wf st -> wf (set_next_ee n st).
Proof. intros [W1 W2 W3 W4]. by split. Qed.

Lemma set_next_ee_frame r n st : frame r st (set_next_ee n st).
Proof. by split. Qed.

Lemma step_wf a st : wf st -> wf (step a st).
Proof.
  intros W. destruct a; cbn [step].
  - by apply dispatch_wf.
  - by apply cleanup_wf.
  - by apply thunk_wf.
  - by apply first_wf.
  - by apply on_wf.
  - by apply removeListener_wf.
  - by apply set_next_ee_wf.
  - by apply check_wf.
  - by apply dispatch_wf, set_console_wf.
  - by apply dispatch_wf.
Qed.

Lemma run_wf tr st : wf st -> wf (run tr st).
Proof. revert st. induction tr; intros st W; simpl; [done|]. by apply IHtr, step_wf. Qed.

Lemma reachable_wf tr : wf (run tr init).
Proof. apply run_wf, wf_init. Qed.

Lemma host_attach_events r ee events st :
  timers (attach_events r ee events st) = timers st
  /\ subscriptions (attach_events r ee events st) = subscriptions st.
Proof.
  revert st. induction events as [|e es IH]; intros st; [done|].
  cbn [attach_events listener]. by destruct (IH (push_cleanup r
    {| c_ee := ee; c_event := e; c_fn := Onevent (next_fn st) e r |}
    (on ee e (Onevent (next_fn st) e r) (set_next_fn (S (next_fn st)) st)))) as [-> ->].
Qed.

Lemma host_attach_entries r stuff st :
  timers (snd (attach_entries r stuff st)) = timers st
  /\ subscriptions (snd (attach_entries r stuff st)) = subscriptions st.
Proof.
  revert st. induction stuff as [|arr rest IH]; intros st; [done|].
  destruct arr as [| |ee [|e es]]; try done.
  change (snd (attach_entries r (EArray ee (e :: es) :: rest) st))
    with (snd (attach_entries r rest (attach_events r ee (e :: es) st))).
  destruct (IH (attach_events r ee (e :: es) st)) as [-> ->].
  apply host_attach_events.
Qed.

Lemma host_first stuff d st :
  timers (snd (first stuff d st)) = timers st
  /\ subscriptions (snd (first stuff d st)) = subscriptions st.
Proof.
  destruct stuff as [|entries]; [done|]. unfold first.
  by destruct (host_attach_entries (length (races st)) entries
    (set_races (races st ++ [{| cleanups := []; done := d |}]) st)) as [-> ->].
Qed.

(** X11: [check] registers exactly one timer, with the configured delay and
    a callback for the timer emitter of this call, and one callback on the
    cancellation token when a token is given, none otherwise; registrations
    made before are kept. *)
Lemma check_registers data timeout token st :
  let h := fst (check data timeout token st) in
  let st1 := snd (check data timeout token st) in
  timers st1 = timers st ++ [(timeout, h_doneEmitter h)]
  /\ subscriptions st1 =
       subscriptions st ++
         match token with Some t => [(t, h_cancelEmitter h)] | None => [] end.
Proof.
  intros h st1. unfold h, st1. destruct (check_spec data timeout token st) as [-> ->].
  cbn [h_doneEmitter h_cancelEmitter].
  destruct (host_first (Array (check_pairs (next_ee st) (S (next_ee st))))
              (DoneCheck (length (promises st)) {| checks := data |})
              (check_setup timeout token st)) as [-> ->].
  unfold check_setup. destruct token; simpl; by rewrite ?app_nil_r.
Qed.

Lemma race_inv_set_console r cs d ph c st :
  race_inv r cs d ph st -> race_inv r cs d ph (set_console c st).
Proof.
  intros I. eapply race_inv_frame; [done|by apply set_console_wf, I|apply set_console_frame].
Qed.

(** Events, while the race waits and once it has settled. *)
Lemma emit_observe r cs v ee event args st :
  race_inv r cs (v_done v) (v_phase v) st -> rcalls r st = v_calls v ->
  let v' := observe r (fun ee event => length (own cs ee event)) v (AEmit ee event args) in
  race_inv r cs (v_done v') (v_phase v') (emit ee event args st)
  /\ rcalls r (emit ee event args st) = v_calls v'.
Proof.
  intros I C. destruct v as [d [] calls]; cbn [observe emitted v_done v_phase v_calls] in *.
  - destruct (emit_waiting r cs d ee event args st I) as [I1 C1].
    destruct (own cs ee event) as [|f l] eqn:E; simpl in *.
    + split; [done|]. by rewrite C1, app_nil_r.
    + split; [done|]. by rewrite C1, C.
  - destruct (emit_settled r cs d ee event args st I) as [I1 C1].
    split; [done|]. by rewrite C1.
Qed.

Lemma step_observe r cs v a st :
  race_inv r cs (v_done v) (v_phase v) st -> rcalls r st = v_calls v ->
  let v' := observe r (fun ee event => length (own cs ee event)) v a in
  race_inv r cs (v_done v') (v_phase v') (step a st)
  /\ rcalls r (step a st) = v_calls v'
  /\ forall p, promise_inv p r st -> promise_inv p r (step a st).
Proof.
  intros I C.
  assert (r < length (races st)) as Hr by (eapply lookup_lt_Some, I).
  pose proof (inv_wf _ _ _ _ _ I) as W.
  assert (forall st', wf st' -> frame r st st' ->
            race_inv r cs (v_done v) (v_phase v) st' /\ rcalls r st' = v_calls v
            /\ forall p, promise_inv p r st -> promise_inv p r st') as Hframe.
  { intros st' W' F. split; [by eapply race_inv_frame|].
    split; [by rewrite (fr_calls _ _ _ F)|]. intros p Pi. by eapply promise_inv_frame. }
  destruct a as [ee event args|r'|r' k|stuff k|ee event k|ee event k| |data timeout token|ce|de].
  - destruct (emit_observe r cs v ee event args st I C) as [I1 C1].
    split; [done|]. split; [done|]. intros p Pi. by eapply emit_promise.
  - cbn [observe step]. destruct (decide (r' = r)) as [->|Hne].
    + cbn [v_done v_phase v_calls]. split; [by eapply cleanup_settles|].
      split; [by unfold cancel; rewrite rcalls_cleanup|].
      intros p Pi. by apply cleanup_promise.
    + apply Hframe; [by apply cleanup_wf|by apply cleanup_frame].
  - cbn [observe step]. destruct (decide (r' = r)) as [->|Hne].
    + cbn [v_done v_phase v_calls]. split; [by eapply thunk_own|].
      split; [done|]. intros p Pi. by apply thunk_promise.
    + apply Hframe; [by apply thunk_wf|by apply thunk_frame].
  - apply Hframe; [by apply first_wf|by apply first_frame].
  - apply Hframe; [by apply on_wf|by apply on_frame].
  - apply Hframe; [by apply removeListener_wf|by apply removeListener_frame].
  - apply Hframe; [by apply set_next_ee_wf|apply set_next_ee_frame].
  - apply Hframe; [by apply check_wf|by apply check_frame].
  - pose proof (race_inv_set_console r cs _ _
                  (console st ++ ["check cancellation requested for async"]) st I) as I0.
    destruct (emit_observe r cs v ce "cancel" [] _ I0 C) as [I1 C1].
    split; [done|]. split; [done|]. intros p Pi. eapply emit_promise; [done|].
    eapply promise_inv_frame; [done|apply set_console_frame].
  - destruct (emit_observe r cs v de "done" [] st I C) as [I1 C1].
    split; [done|]. split; [done|]. intros p Pi. by eapply emit_promise.
Qed.

Lemma run_observe r cs tr v st :
  race_inv r cs (v_done v) (v_phase v) st -> rcalls r st = v_calls v ->
  let v' := foldl (observe r (fun ee event => length (own cs ee event))) v tr in
  race_inv r cs (v_done v') (v_phase v') (run tr st)
  /\ rcalls r (run tr st) = v_calls v'
  /\ forall p, promise_inv p r st -> promise_inv p r (run tr st).
Proof.
  revert v st. induction tr as [|a tr IH]; intros v st I C; simpl; [done|].
  destruct (step_observe r cs v a st I C) as (I1 & C1 & P1).
  destruct (IH _ _ I1 C1) as (I2 & C2 & P2). split; [done|]. split; [done|].
  intros p Pi. by apply P2, P1.
Qed.
End steps.

(** ** Reading traces *)

Section views.
Context (r : nat) (entries : list entry).
Implicit Types (v : view) (a : action) (tr : list action).

Local Abbreviation obs := (observe r (watch_count entries)).

Lemma watch_count_pos ee event :
  (ee, event) ∈ combos entries -> exists n, watch_count entries ee event = S n.
Proof.
  intros H. unfold watch_count.
  destruct (filter (fun k => k = (ee, event)) (combos entries)) as [|k l] eqn:E.
  - exfalso. assert ((ee, event) ∈ filter (fun k => k = (ee, event)) (combos entries)) as Hin
      by (by apply list_elem_of_filter).
    rewrite E in Hin. by apply elem_of_nil in Hin.
  - simpl. eauto.
Qed.

Lemma watch_count_zero ee event :
  (ee, event) ∉ combos entries -> watch_count entries ee event = 0.
Proof.
  intros H. unfold watch_count.
  destruct (filter (fun k => k = (ee, event)) (combos entries)) as [|k l] eqn:E; [done|].
  exfalso. assert (k ∈ filter (fun k => k = (ee, event)) (combos entries)) as Hin
    by (rewrite E; by left).
  apply list_elem_of_filter in Hin as [-> Hin]. done.
Qed.

Lemma watch_count_NoDup ee event :
  NoDup (combos entries) -> watch_count entries ee event <= 1.
Proof.
  unfold watch_count. induction 1 as [|k l Hk Hl IH]; simpl; [lia|].
  rewrite filter_cons. case_decide as E; [|done]. subst k. simpl.
  assert (filter (fun k => k = (ee, event)) l = []) as ->; [|simpl; lia].
  destruct (filter _ l) as [|k' l'] eqn:E'; [done|]. exfalso.
  assert (k' ∈ filter (fun k => k = (ee, event)) l) as Hin by (rewrite E'; by left).
  apply list_elem_of_filter in Hin as [-> Hin]. done.
Qed.

Lemma observe_settled v a :
  v_phase v = Settled ->
  v_phase (obs v a) = Settled /\ v_calls (obs v a) = v_calls v.
Proof.
  intros H. destruct a; simpl; try case_decide; simpl; rewrite ?H; try done.
Qed.

Lemma foldl_observe_settled v tr :
  v_phase v = Settled ->
  v_phase (foldl obs v tr) = Settled /\ v_calls (foldl obs v tr) = v_calls v.
Proof.
  revert v. induction tr as [|a tr IH]; intros v H; simpl; [done|].
  destruct (observe_settled v a H) as [H1 H2].
  destruct (IH _ H1) as [H3 H4]. split; [done|]. by rewrite H4.
Qed.

Lemma observe_leaves_waiting v a :
  leaves_waiting r entries a -> v_phase v = Waiting ->
  v_phase (obs v a) = Waiting /\ v_calls (obs v a) = v_calls v
  /\ ((forall k, a <> AThunk r k) -> v_done (obs v a) = v_done v).
Proof.
  intros [Hc Hf] H.
  destruct a as [ee event args|r'|r' k| | | | | |ce|de]; simpl; rewrite ?H; try done.
  - rewrite watch_count_zero; [done|]. by eapply Hf.
  - case_decide; [congruence|done].
  - case_decide; simpl; [|done]. split; [done|]. split; [done|]. intros Hk. subst.
    by destruct (Hk k).
  - rewrite watch_count_zero; [done|]. by eapply Hf.
  - rewrite watch_count_zero; [done|]. by eapply Hf.
Qed.

Lemma foldl_observe_waiting v tr :
  Forall (leaves_waiting r entries) tr -> v_phase v = Waiting ->
  v_phase (foldl obs v tr) = Waiting /\ v_calls (foldl obs v tr) = v_calls v
  /\ (Forall (fun a => forall k, a <> AThunk r k) tr -> v_done (foldl obs v tr) = v_done v).
Proof.
  revert v. induction tr as [|a tr IH]; intros v Hq H; simpl; [done|].
  apply Forall_cons in Hq as [Hq1 Hq2].
  destruct (observe_leaves_waiting v a) as (H1 & H2 & H3); [done..|].
  destruct (IH _ Hq2 H1) as (H4 & H5 & H6).
  split; [done|]. split; [by rewrite H5|]. intros Hk.
  apply Forall_cons in Hk as [Hk1 Hk2].
  rewrite H6 by done. by apply H3.
Qed.

Lemma observe_fires v a ee event args :
  fires entries a ee event args -> v_phase v = Waiting ->
  exists n,
    watch_count entries ee event = S n /\
    obs v a = {| v_done := v_done v; v_phase := Settled;
                 v_calls := v_calls v ++ replicate (S n) (mkcall r (v_done v) ee event args) |}.
Proof.
  intros [He Hin] H. destruct (watch_count_pos _ _ Hin) as [n Hn]. exists n.
  split; [done|].
  destruct a; simpl in He; inversion He; subst; simpl; by rewrite H, Hn.
Qed.

Lemma observe_settles v a : settles r entries a -> v_phase (obs v a) = Settled.
Proof.
  intros [->|(ee & event & args & Hf)].
  - simpl. by rewrite decide_True.
  - destruct (v_phase v) eqn:H.
    + destruct (observe_fires v a _ _ _ Hf H) as (n & _ & ->). done.
    + by apply observe_settled.
Qed.

Lemma observe_emitted v a ee event args :
  emitted a = Some (ee, event, args) ->
  obs v a =
    match v_phase v, watch_count entries ee event with
    | Waiting, S n =>
        {| v_done := v_done v; v_phase := Settled;
           v_calls := v_calls v ++ replicate (S n) (mkcall r (v_done v) ee event args) |}
    | _, _ => v
    end.
Proof.
  intros He. destruct a; simpl in He; inversion He; subst; simpl;
    destruct (v_phase v); try done; by destruct (watch_count entries _ _).
Qed.

(** With every pair watched once, at most one call is ever made. *)
Lemma foldl_observe_once v tr :
  NoDup (combos entries) ->
  (v_phase v = Waiting /\ v_calls v = []) \/ (v_phase v = Settled /\ length (v_calls v) <= 1) ->
  length (v_calls (foldl obs v tr)) <= 1.
Proof.
  intros Hnd. revert v. induction tr as [|a tr IH]; intros v Hv; simpl.
  - destruct Hv as [[_ ->]|[_ ?]]; simpl; lia.
  - apply IH. destruct Hv as [[Hw Hc]|[Hs Hc]].
    + destruct (emitted a) as [[[ee event] args]|] eqn:He.
      * rewrite (observe_emitted v a ee event args He), Hw.
        pose proof (watch_count_NoDup ee event Hnd) as Hle.
        destruct (watch_count entries ee event) as [|[|n]]; [by left| |lia].
        right. simpl. rewrite Hc. simpl. split; [done|lia].
      * destruct a as [|r'|r' k| | | | | | |]; simpl in He; try done;
          try (left; simpl; by rewrite Hw, Hc).
        -- simpl. case_decide; simpl; [right; rewrite Hc; simpl; split; [done|lia]|by left].
        -- simpl. case_decide; simpl; by left.
    + right. destruct (observe_settled v a Hs) as [H1 H2]. split; [done|]. by rewrite H2.
Qed.

(** Without a cancellation, no call is lost either. *)
Lemma foldl_observe_uncancelled v tr :
  NoDup (combos entries) ->
  Forall (fun a => a <> ACancel r) tr ->
  v_phase v = Waiting -> v_calls v = [] ->
  (v_phase (foldl obs v tr) = Waiting /\ v_calls (foldl obs v tr) = [])
  \/ (v_phase (foldl obs v tr) = Settled /\ length (v_calls (foldl obs v tr)) = 1).
Proof.
  intros Hnd. revert v. induction tr as [|a tr IH]; intros v Hq Hw Hc; simpl; [by left|].
  apply Forall_cons in Hq as [Hq1 Hq2].
  destruct (emitted a) as [[[ee event] args]|] eqn:He.
  - rewrite (observe_emitted v a _ _ _ He), Hw.
    pose proof (watch_count_NoDup ee event Hnd) as Hle.
    destruct (watch_count entries ee event) as [|[|n]]; [by apply IH| |lia].
    right.
    match goal with |- context [foldl _ ?v0 tr] =>
      destruct (foldl_observe_settled v0 tr eq_refl) as [-> ->] end.
    simpl. by rewrite Hc.
  - destruct a as [|r'|r' k| | | | | | |]; simpl in He; try done; try (by apply IH).
    + simpl. case_decide; [congruence|by apply IH].
    + simpl. case_decide; by apply IH.
Qed.

Lemma foldl_observe_ext m1 m2 v tr :
  (forall ee event, m1 ee event = m2 ee event) ->
  foldl (observe r m1) v tr = foldl (observe r m2) v tr.
Proof.
  intros H. revert v. induction tr as [|a tr IH]; intros v; simpl; [done|].
  rewrite IH. f_equal.
  destruct a; simpl; try done; destruct (v_phase v); try done; by rewrite H.
Qed.
End views.

(** ** A race from its start *)

Section from_start.
Implicit Types (st : state) (r : nat) (entries : list entry) (d : donefn)
  (tr : list action).

Lemma first_Return entries d st r st1 :
  first (Array entries) d st = (Return r, st1) ->
  Forall well_formed entries /\ r = length (races st).
Proof.
  intros H. destruct (first_spec entries d st) as (Hres & _). rewrite H in Hres.
  simpl in Hres. destruct (decide (Forall well_formed entries)); [|done].
  by inversion Hres.
Qed.

Lemma rcalls_fresh r st : wf st -> length (races st) <= r -> rcalls r st = [].
Proof.
  intros W Hr. unfold rcalls. destruct (filter _ _) as [|c l] eqn:E; [done|]. exfalso.
  assert (c ∈ filter (fun c => call_race c = r) (log st)) as Hc by (rewrite E; by left).
  apply list_elem_of_filter in Hc as [Hc1 Hc2].
  pose proof (wf_log _ W _ Hc2). lia.
Qed.

Lemma race_run entries d st r st1 :
  wf st -> valid_done d st -> first (Array entries) d st = (Return r, st1) ->
  exists cs,
    map (fun c => (c_ee c, c_event c)) cs = combos entries /\
    race_inv r cs d Waiting st1 /\
    forall tr,
      let v := foldl (observe r (watch_count entries)) (start d) tr in
      race_inv r cs (v_done v) (v_phase v) (run tr st1)
      /\ rcalls r (run tr st1) = v_calls v
      /\ forall p, promise_inv p r st1 -> promise_inv p r (run tr st1).
Proof.
  intros W Hd H. destruct (first_Return _ _ _ _ _ H) as [Hwf ->].
  pose proof (first_race_inv entries d st W Hwf Hd) as I. rewrite H in I. simpl in I.
  exists (mk_all (length (races st)) (next_fn st) entries).
  split; [apply mk_all_keys|]. split; [done|]. intros tr v.
  assert (rcalls (length (races st)) st1 = []) as C.
  { destruct (first_spec entries d st) as (_ & _ & _ & Hlog & _). rewrite H in Hlog.
    simpl in Hlog. unfold rcalls. rewrite Hlog. by apply rcalls_fresh. }
  unfold v.
  rewrite (foldl_observe_ext _ (watch_count entries)
             (fun ee event => length (own (mk_all (length (races st)) (next_fn st) entries) ee event))).
  - by apply run_observe.
  - intros ee event. unfold watch_count. by rewrite own_length, mk_all_keys.
Qed.
End from_start.

(** ** Malformed input *)

Lemma attach_entries_malformed r pre bad rest st :
  Forall well_formed pre -> ~ well_formed bad ->
  attach_entries r (pre ++ bad :: rest) st =
    (Throw "each array member must be [ee, events...]", snd (attach_entries r pre st)).
Proof.
  intros Hpre Hbad. revert st. induction Hpre as [|arr pre Harr Hpre IH]; intros st.
  - simpl. destruct bad as [| |ee [|e es]]; try done.
    exfalso. apply Hbad. split; simpl; [done|lia].
  - destruct Harr as [Ha Hl]. destruct arr as [| |ee [|e es]]; simpl in Ha, Hl; try done; try lia.
    change ((EArray ee (e :: es) :: pre) ++ bad :: rest)
      with (EArray ee (e :: es) :: (pre ++ bad :: rest)).
    cbn [attach_entries isArray arr_length negb orb Nat.ltb Nat.leb length]. apply IH.
Qed.

(** An entry without event names after a good one: [first] throws, and the
    listener of the good entry stays attached. *)
Lemma first_throws_after_attaching :
  let st' := snd (first (Array [EArray 0 ["a"]; EArray 1 []]) (DoneUser 0) init) in
  first (Array [EArray 0 ["a"]; EArray 1 []]) (DoneUser 0) init =
    (Throw "each array member must be [ee, events...]", st')
  /\ listeners init 0 "a" = []
  /\ listeners st' 0 "a" = [Onevent 0 "a" 0].
Proof. repeat split; vm_compute; reflexivity. Qed.

(** C2, amended: malformed input makes [first] throw its [TypeError]
    synchronously.  When [stuff] is not an array, or its first member is
    malformed, no listener has been attached.  Otherwise the state at the
    throw is the one a call of [first] on the well-formed members before the
    first malformed one returns in: their listeners are attached, and no
    listener of the malformed member or of a later one. *)
Theorem first_rejects_malformed d st pre bad rest :
  Forall well_formed pre -> ~ well_formed bad ->
  first NotArray d st = (Throw "arg must be an array of [ee, events...] arrays", st)
  /\ first (Array (pre ++ bad :: rest)) d st =
       (Throw "each array member must be [ee, events...]", snd (first (Array pre) d st))
  /\ (forall ee event,
        listeners (snd (first (Array (bad :: rest)) d st)) ee event = listeners st ee event).
Proof.
  intros Hpre Hbad. split; [done|]. split.
  - unfold first. by apply attach_entries_malformed.
  - intros ee event. unfold first.
    rewrite (attach_entries_malformed _ [] bad rest) by done. done.
Qed.

Lemma first_rejects_malformed_witness :
  let d := DoneUser 0 in
  first NotArray d init = (Throw "arg must be an array of [ee, events...] arrays", init)
  /\ first (Array ([EArray 0 ["a"]] ++ EArray 1 [] :: [EArray 2 ["b"]])) d init =
       (Throw "each array member must be [ee, events...]",
        snd (first (Array [EArray 0 ["a"]]) d init))
  /\ (forall ee event,
        listeners (snd (first (Array (EArray 1 [] :: [EArray 2 ["b"]])) d init)) ee event =
        listeners init ee event).
Proof.
  apply (first_rejects_malformed (DoneUser 0) init [EArray 0 ["a"]] (EArray 1 [])
           [EArray 2 ["b"]]).
  - repeat constructor.
  - intros [_ H]. simpl in H. lia.
Defined.

(** ** No pairs *)

Lemma foldl_observe_unwatched r entries v tr :
  combos entries = [] -> v_calls v = [] ->
  v_calls (foldl (observe r (watch_count entries)) v tr) = [].
Proof.
  intros He. revert v. induction tr as [|a tr IH]; intros v Hc; simpl; [done|].
  apply IH. destruct (emitted a) as [[[ee event] args]|] eqn:Ha.
  - rewrite (observe_emitted r entries v a _ _ _ Ha).
    unfold watch_count. rewrite He. simpl. by destruct (v_phase v).
  - destruct a; simpl in Ha; try done; simpl; by try case_decide.
Qed.

(** C9: [first] accepts an empty array.  It returns a controller, attaches
    no listener, and the race never settles: whatever happens afterwards the
    completion callback is not called, no listener of the race exists, and
    [cancel()] changes nothing. *)
Theorem first_empty_pairs d st :
  wf st -> valid_done d st ->
  let r := length (races st) in
  let st1 := snd (first (Array []) d st) in
  first (Array []) d st = (Return r, st1)
  /\ ev st1 = ev st
  /\ forall tr,
       rcalls r (run tr st1) = []
       /\ (forall ee event, race_listeners r (run tr st1) ee event = [])
       /\ cancel r (run tr st1) = run tr st1.
Proof.
  intros W Hd r st1. assert (first (Array []) d st = (Return r, st1)) as H by done.
  split; [done|]. split; [done|]. intros tr.
  destruct (race_run _ _ _ _ _ W Hd H) as (cs & Hk & I0 & Hrun).
  destruct cs as [|c cs]; [|done].
  destruct (Hrun tr) as (I & C & _). split; [|split].
  - rewrite C. by apply foldl_observe_unwatched.
  - intros ee event. pose proof (inv_phase _ _ _ _ _ I) as P.
    destruct (v_phase _); apply P.
  - unfold cancel, cleanup. by rewrite (inv_env _ _ _ _ _ I).
Qed.

Lemma first_empty_pairs_witness :
  let st1 := snd (first (Array []) (DoneUser 0) init) in
  first (Array []) (DoneUser 0) init = (Return 0, st1)
  /\ ev st1 = ev init
  /\ forall tr,
       rcalls 0 (run tr st1) = []
       /\ (forall ee event, race_listeners 0 (run tr st1) ee event = [])
       /\ cancel 0 (run tr st1) = run tr st1.
Proof.
  apply (first_empty_pairs (DoneUser 0) init wf_init).
  intros q res Hq. discriminate Hq.
Defined.

(** ** The winner *)

Lemma calls_after_fire entries d st r st1 tr1 a tr2 ee event args :
  wf st -> valid_done d st ->
  first (Array entries) d st = (Return r, st1) ->
  Forall (leaves_waiting r entries) tr1 ->
  fires entries a ee event args ->
  exists n d',
    watch_count entries ee event = S n
    /\ rcalls r (run (tr1 ++ a :: tr2) st1) = replicate (S n) (mkcall r d' ee event args)
    /\ length (race_listeners r (run tr1 st1) ee event) = S n
    /\ (Forall (fun a' => forall k, a' <> AThunk r k) tr1 -> d' = d).
Proof.
  intros W Hd H Hq Hf. destruct (race_run _ _ _ _ _ W Hd H) as (cs & Hk & I0 & Hrun).
  destruct (foldl_observe_waiting r entries (start d) tr1 Hq eq_refl) as (Hw & Hc & Hdone).
  destruct (observe_fires r entries _ a _ _ _ Hf Hw) as (n & Hn & Hobs).
  exists n, (v_done (foldl (observe r (watch_count entries)) (start d) tr1)).
  split; [done|]. split; [|split; [|done]].
  - destruct (Hrun (tr1 ++ a :: tr2)) as (_ & -> & _). rewrite foldl_app. simpl.
    rewrite Hobs.
    match goal with |- context [foldl _ ?v0 tr2] =>
      destruct (foldl_observe_settled r entries v0 tr2 eq_refl) as [_ ->] end.
    simpl. by rewrite Hc.
  - destruct (Hrun tr1) as (I & _ & _). rewrite Hw in I.
    rewrite (inv_phase _ _ _ _ _ I ee event), own_length, Hk. exact Hn.
Qed.

Section permutations.
Lemma combos_Permutation entries entries' :
  Permutation entries entries' -> Permutation (combos entries) (combos entries').
Proof.
  unfold combos. induction 1 as [|x l l' _ IH|x y l|l l' l'' _ IH1 _ IH2]; simpl.
  - done.
  - by apply Permutation_app_head.
  - rewrite !app_assoc. apply Permutation_app_tail, Permutation_app_comm.
  - by etrans.
Qed.

Lemma watch_count_Permutation entries entries' ee event :
  Permutation entries entries' ->
  watch_count entries' ee event = watch_count entries ee event.
Proof.
  intros H. unfold watch_count. apply Permutation_length.
  apply filter_Permutation. symmetry. by apply combos_Permutation.
Qed.
End permutations.

(** ** The settlement handler of [check] *)

Section handler.
Implicit Types (st : state) (p r : nat) (entries : list entry) (res : ImageChecks).


Lemma replay_not_rejected p calls msg : replay p calls <> Rejected msg.
Proof.
  induction calls as [|c calls IH] using rev_ind; [done|].
  rewrite replay_snoc. unfold replay1.
  destruct (call_done c); [done|]. destruct (replay p calls); try done.
  by case_decide.
Qed.

Lemma replay_replicate p res r n ee event args :
  replay p (replicate (S n) (mkcall r (DoneCheck p res) ee event args)) =
    Fulfilled (if decide (event = "done") then res else {| checks := [] |}).
Proof.
  unfold replay. simpl. unfold replay1 at 2. simpl. rewrite decide_True by done.
  induction n as [|n IH]; [done|]. simpl. exact IH.
Qed.

Lemma handler_promise_inv entries p res st r st1 :
  wf st -> promises st !! p = Some Pending -> unheld p st ->
  first (Array entries) (DoneCheck p res) st = (Return r, st1) ->
  valid_done (DoneCheck p res) st /\ promise_inv p r st1.
Proof.
  intros W Hp Hu H.
  assert (p < length (promises st)) as Hlt by (by eapply lookup_lt_Some).
  split; [intros q res' Hq; by inversion Hq; subst|].
  destruct (first_Return _ _ _ _ _ H) as [Hwf ->].
  destruct (first_spec entries (DoneCheck p res) st) as (_ & Hr & _ & Hlog & Hpr).
  rewrite H in Hr, Hlog, Hpr. simpl in Hr, Hlog, Hpr. split.
  - intros r' env res' Hl Hd. rewrite Hr in Hl.
    apply lookup_app_Some in Hl as [Hl|[Hge Hl]]; [by destruct (Hu _ _ _ Hl Hd)|].
    apply lookup_lt_Some in Hl as Hlt'. simpl in Hlt'. lia.
  - by rewrite Hpr.
  - rewrite Hpr, Hp. unfold rcalls. rewrite Hlog.
    fold (rcalls (length (races st)) st). by rewrite rcalls_fresh.
Qed.

Lemma handler_settles entries p res st r st1 tr1 a tr2 ee event args :
  wf st -> promises st !! p = Some Pending -> unheld p st ->
  first (Array entries) (DoneCheck p res) st = (Return r, st1) ->
  Forall (quiet r entries) tr1 ->
  fires entries a ee event args ->
  promises (run tr1 st1) !! p = Some Pending
  /\ promises (run (tr1 ++ a :: tr2) st1) !! p =
       Some (Fulfilled (if decide (event = "done") then res else {| checks := [] |})).
Proof.
  intros W Hp Hu H Hq Hf.
  destruct (handler_promise_inv _ _ _ _ _ _ W Hp Hu H) as [Hd Pi].
  destruct (race_run _ _ _ _ _ W Hd H) as (cs & _ & _ & Hrun).
  assert (Forall (leaves_waiting r entries) tr1) as Hq1
    by (eapply Forall_impl; [exact Hq|by intros ? [? ?]]).
  assert (Forall (fun a' => forall k, a' <> AThunk r k) tr1) as Hq2
    by (eapply Forall_impl; [exact Hq|by intros ? [? ?]]).
  split.
  - destruct (Hrun tr1) as (_ & C & P). rewrite (pi_state _ _ _ (P p Pi)), C.
    destruct (foldl_observe_waiting r entries (start (DoneCheck p res)) tr1 Hq1 eq_refl)
      as (_ & -> & _). done.
  - destruct (calls_after_fire _ _ _ _ _ _ _ tr2 _ _ _ W Hd H Hq1 Hf)
      as (n & d' & _ & C & _ & Hd').
    rewrite (Hd' Hq2) in C.
    destruct (Hrun (tr1 ++ a :: tr2)) as (_ & _ & P).
    rewrite (pi_state _ _ _ (P p Pi)), C. by rewrite replay_replicate.
Qed.

Lemma handler_never_rejects entries p res st r st1 tr msg :
  wf st -> promises st !! p = Some Pending -> unheld p st ->
  first (Array entries) (DoneCheck p res) st = (Return r, st1) ->
  promises (run tr st1) !! p <> Some (Rejected msg).
Proof.
  intros W Hp Hu H.
  destruct (handler_promise_inv _ _ _ _ _ _ W Hp Hu H) as [Hd Pi].
  destruct (race_run _ _ _ _ _ W Hd H) as (cs & _ & _ & Hrun).
  destruct (Hrun tr) as (_ & _ & P). rewrite (pi_state _ _ _ (P p Pi)).
  intros E. inversion E as [E']. by apply replay_not_rejected in E'.
Qed.
End handler.



(** ** The check promise *)

Lemma check_start data timeout token st h st1 :
  wf st -> check data timeout token st = (h, st1) ->
  exists st0,
    wf st0
    /\ promises st0 !! h_promise h = Some Pending
    /\ unheld (h_promise h) st0
    /\ races st0 = races st
    /\ first (Array (check_pairs (h_cancelEmitter h) (h_doneEmitter h)))
         (DoneCheck (h_promise h) {| checks := data |}) st0 = (Return (length (races st)), st1).
Proof.
  intros W H. destruct (check_spec data timeout token st) as [Hh Hst].
  rewrite H in Hh, Hst. simpl in Hh, Hst. subst h. simpl.
  destruct (check_setup_fields timeout token st) as (Hev & Hr & Hn & Hl & Hp).
  exists (check_setup timeout token st).
  split; [|split; [|split; [|split]]].
  - by apply check_setup_wf.
  - rewrite Hp. by apply list_lookup_middle.
  - intros r env res Hlook Hd. rewrite Hr in Hlook.
    pose proof (wf_promises _ W _ _ _ _ Hlook Hd). lia.
  - done.
  - rewrite Hst, <- Hr.
    apply (first_returns (check_pairs (next_ee st) (S (next_ee st)))).
    repeat constructor; simpl; lia.
Qed.

(** C5: when the ['done'] event of the timer emitter is the first watched
    event (the controller of the race is dropped by [check], so nobody
    cancels the race or replaces its callback), the promise returned by
    [check] is pending until then and fulfilled with the configured result
    list, unchanged, from then on. *)
Theorem check_done_wins data timeout token st h st1 tr1 a tr2 args :
  wf st -> check data timeout token st = (h, st1) ->
  Forall (quiet (length (races st)) (check_pairs (h_cancelEmitter h) (h_doneEmitter h))) tr1 ->
  emitted a = Some (h_doneEmitter h, "done", args) ->
  promises (run tr1 st1) !! h_promise h = Some Pending
  /\ promises (run (tr1 ++ a :: tr2) st1) !! h_promise h = Some (Fulfilled {| checks := data |}).
Proof.
  intros W H Hq Ha. destruct (check_start _ _ _ _ _ _ W H) as (st0 & W0 & Hp & Hu & Hr & H0).
  assert (fires (check_pairs (h_cancelEmitter h) (h_doneEmitter h)) a (h_doneEmitter h) "done" args)
    as Hf by (split; [done|]; unfold check_pairs, combos; simpl; set_solver).
  destruct (handler_settles _ _ _ _ _ _ _ _ tr2 _ _ _ W0 Hp Hu H0 Hq Hf) as [H1 H2].
  split; [done|]. by rewrite H2, decide_True.
Qed.

Lemma check_done_wins_witness :
  let data := [{| name := "check 1"; status := "failed"; severity := Some "medium";
                  markdownDescription := Some "a warning" |};
               {| name := "check 2"; status := "failed"; severity := Some "high";
                  markdownDescription := Some "an error" |}] in
  let h := fst (check data 2000 (Some 0) init) in
  let st1 := snd (check data 2000 (Some 0) init) in
  let tr1 := [AEmit (h_doneEmitter h) "tick" []; ACheck data 5000 None] in
  promises (run tr1 st1) !! h_promise h = Some Pending
  /\ promises (run (tr1 ++ ATimeout (h_doneEmitter h)
                     :: [ACancellationRequested (h_cancelEmitter h)]) st1) !! h_promise h =
       Some (Fulfilled {| checks := data |}).
Proof.
  intros data h st1 tr1.
  apply (check_done_wins data 2000 (Some 0) init h st1 tr1 (ATimeout (h_doneEmitter h))
           [ACancellationRequested (h_cancelEmitter h)] [] wf_init eq_refl).
  - quiet_trace.
  - reflexivity.
Defined.

(** C6: when the ['cancel'] event of the cancellation emitter is the first
    watched event, the promise returned by [check] is fulfilled with an
    empty list of findings; and whatever happens, the promise is never
    rejected. *)
Theorem check_cancel_wins data timeout token st h st1 :
  wf st -> check data timeout token st = (h, st1) ->
  (forall tr msg, promises (run tr st1) !! h_promise h <> Some (Rejected msg))
  /\ (forall tr1 a tr2 args,
        Forall (quiet (length (races st)) (check_pairs (h_cancelEmitter h) (h_doneEmitter h)))
          tr1 ->
        emitted a = Some (h_cancelEmitter h, "cancel", args) ->
        promises (run (tr1 ++ a :: tr2) st1) !! h_promise h =
          Some (Fulfilled {| checks := [] |})).
Proof.
  intros W H. destruct (check_start _ _ _ _ _ _ W H) as (st0 & W0 & Hp & Hu & Hr & H0). split.
  - intros tr msg. by eapply handler_never_rejects.
  - intros tr1 a tr2 args Hq Ha.
    assert (fires (check_pairs (h_cancelEmitter h) (h_doneEmitter h)) a
              (h_cancelEmitter h) "cancel" args)
      as Hf by (split; [done|]; unfold check_pairs, combos; simpl; set_solver).
    destruct (handler_settles _ _ _ _ _ _ _ _ tr2 _ _ _ W0 Hp Hu H0 Hq Hf) as [_ H2].
    by rewrite H2, decide_False.
Qed.

Lemma check_cancel_wins_witness :
  let data := [{| name := "check 3"; status := "success"; severity := None;
                  markdownDescription := None |}] in
  let h := fst (check data 5000 (Some 0) init) in
  let st1 := snd (check data 5000 (Some 0) init) in
  (forall tr msg, promises (run tr st1) !! h_promise h <> Some (Rejected msg))
  /\ promises (run ([AOn (h_cancelEmitter h) "cancel" 3]
                     ++ ACancellationRequested (h_cancelEmitter h)
                     :: [ATimeout (h_doneEmitter h)]) st1) !! h_promise h =
       Some (Fulfilled {| checks := [] |}).
Proof.
  intros data h st1.
  destruct (check_cancel_wins data 5000 (Some 0) init h st1 wf_init eq_refl) as [H1 H2].
  split; [exact H1|].
  apply (H2 [AOn (h_cancelEmitter h) "cancel" 3] (ACancellationRequested (h_cancelEmitter h))
            [ATimeout (h_doneEmitter h)] []).
  - quiet_trace.
  - reflexivity.
Defined.

(** * Further properties of [first], [thunk], [cancel] and the providers *)

(** ** Calls of the completion callback *)

Section calls.
Implicit Types (st : state) (r : nat) (entries : list entry) (d : donefn)
  (tr : list action).

Lemma quiet_leaves_waiting r entries tr :
  Forall (quiet r entries) tr -> Forall (leaves_waiting r entries) tr.
Proof. intros H. eapply Forall_impl; [exact H|]. by intros ? [? ?]. Qed.

Lemma quiet_no_thunk r entries tr :
  Forall (quiet r entries) tr -> Forall (fun a' => forall k, a' <> AThunk r k) tr.
Proof. intros H. eapply Forall_impl; [exact H|]. by intros ? [? ?]. Qed.

Lemma detached_after entries d st r st1 tr1 a tr2 :
  wf st -> valid_done d st ->
  first (Array entries) d st = (Return r, st1) ->
  settles r entries a ->
  forall ee event, race_listeners r (run (tr1 ++ a :: tr2) st1) ee event = [].
Proof.
  intros W Hd H Hs ee event. destruct (race_run _ _ _ _ _ W Hd H) as (cs & Hk & I0 & Hrun).
  destruct (Hrun (tr1 ++ a :: tr2)) as (I & _ & _). rewrite foldl_app in I. simpl in I.
  pose proof (observe_settles r entries (foldl (observe r (watch_count entries)) (start d) tr1)
                a Hs) as Hph.
  destruct (foldl_observe_settled r entries _ tr2 Hph) as [Hph' _].
  pose proof (inv_phase _ _ _ _ _ I) as P. rewrite Hph' in P. apply P.
Qed.
End calls.

(** ** Promises *)

Section promises_final.
Implicit Types (st : state) (p : nat) (pr : promise).

Lemma resolve_final p pr q v st :
  promises st !! p = Some pr -> pr <> Pending ->
  promises (resolve q v st) !! p = Some pr.
Proof.
  intros Hp Hne. destruct (decide (q = p)) as [->|Hq].
  - rewrite promises_resolve_eq, Hp. by destruct pr.
  - by rewrite promises_resolve_ne.
Qed.

Lemma apply_done_final p pr r err ee event args st :
  promises st !! p = Some pr -> pr <> Pending ->
  promises (apply_done r err ee event args st) !! p = Some pr.
Proof.
  intros Hp Hne. unfold apply_done. destruct (races st !! r) as [env|]; [|done].
  destruct (done env) as [k|q res]; [done|].
  unfold settle. case_decide; by apply resolve_final.
Qed.

Lemma dispatch_final p pr snapshot this args st :
  promises st !! p = Some pr -> pr <> Pending ->
  promises (dispatch snapshot this args st) !! p = Some pr.
Proof.
  revert st. induction snapshot as [|f l IH]; intros st Hp Hne; [done|].
  cbn [dispatch]. apply IH; [|done].
  destruct f as [id e r|k]; [|done]. cbn [invoke]. unfold onevent, callback.
  apply apply_done_final; [|done]. by rewrite promises_cleanup.
Qed.

Lemma first_final p pr stuff d st :
  promises st !! p = Some pr -> promises (snd (first stuff d st)) !! p = Some pr.
Proof.
  intros Hp. destruct stuff as [|entries]; [done|].
  destruct (first_spec entries d st) as (_ & _ & _ & _ & ->). done.
Qed.

Lemma check_final p pr data timeout token st :
  promises st !! p = Some pr ->
  promises (snd (check data timeout token st)) !! p = Some pr.
Proof.
  intros Hp. destruct (check_spec data timeout token st) as [_ ->].
  apply first_final.
  destruct (check_setup_fields timeout token st) as (_ & _ & _ & _ & ->).
  by apply lookup_app_l_Some.
Qed.

Lemma step_final p pr a st :
  promises st !! p = Some pr -> pr <> Pending ->
  promises (step a st) !! p = Some pr.
Proof.
  intros Hp Hne. destruct a; cbn [step].
  - by apply dispatch_final.
  - unfold cancel. by rewrite promises_cleanup.
  - done.
  - by apply first_final.
  - done.
  - by rewrite promises_removeListener.
  - done.
  - by apply check_final.
  - by apply dispatch_final.
  - by apply dispatch_final.
Qed.
Lemma run_final p pr st tr :
  promises st !! p = Some pr -> pr <> Pending ->
  promises (run tr st) !! p = Some pr.
Proof.
  revert st. induction tr as [|a tr IH]; intros st Hp Hne; [done|].
  cbn [run]. apply IH; [|done]. by apply step_final.
Qed.
End promises_final.

(** X10: a promise which has been fulfilled or rejected keeps its value:
    nothing the program or the host does afterwards (events, further calls
    of the settlement handler, other races and checks, cancellations)
    changes it. *)
Theorem settled_promise_is_final p pr st tr :
  promises st !! p = Some pr -> pr <> Pending ->
  promises (run tr st) !! p = Some pr.
Proof.
  intros Hp Hne. revert st Hp. induction tr as [|a tr IH]; intros st Hp; [done|].
  cbn [run]. by apply IH, step_final.
Qed.

Lemma settled_promise_is_final_witness :
  let data := [{| name := "check 3"; status := "success"; severity := None;
                  markdownDescription := None |}] in
  let h := fst (check data 50 (Some 0) init) in
  let st := run [ACancellationRequested (h_cancelEmitter h)] (snd (check data 50 (Some 0) init)) in
  promises (run [ATimeout (h_doneEmitter h); AEmit (h_cancelEmitter h) "cancel" [];
                 ACheck data 10 None]
              st) !! h_promise h = Some (Fulfilled {| checks := [] |}).
Proof.
  intros data h st.
  apply (settled_promise_is_final (h_promise h) (Fulfilled {| checks := [] |}) st).
  - reflexivity.
  - discriminate.
Defined.

(** ** The providers *)

Section providers.
Implicit Types (st : state) (r : nat).

Lemma next_ee_attach_events r ee events st :
  next_ee (attach_events r ee events st) = next_ee st.
Proof.
  revert st. induction events as [|e es IH]; intros st; [done|].
  cbn [attach_events listener]. by rewrite IH.
Qed.

Lemma next_ee_attach_entries r stuff st :
  next_ee (snd (attach_entries r stuff st)) = next_ee st.
Proof.
  revert st. induction stuff as [|arr rest IH]; intros st; [done|].
  destruct arr as [| |ee [|e es]]; try done.
  change (snd (attach_entries r (EArray ee (e :: es) :: rest) st))
    with (snd (attach_entries r rest (attach_events r ee (e :: es) st))).
  by rewrite IH, next_ee_attach_events.
Qed.

Lemma next_ee_first stuff d st : next_ee (snd (first stuff d st)) = next_ee st.
Proof.
  destruct stuff as [|entries]; [done|]. unfold first.
  by rewrite next_ee_attach_entries.
Qed.

Lemma next_ee_check data timeout token st :
  next_ee (snd (check data timeout token st)) = S (S (next_ee st)).
Proof.
  destruct (check_spec data timeout token st) as [_ ->]. rewrite next_ee_first.
  unfold check_setup. by destruct token.
Qed.
End providers.

(** X12: [check] returns at once with a pending promise.  The promise and
    the two emitters are new, the emitters differ, and the only listeners
    [check] adds are one for ['cancel'] on the cancellation emitter and one
    for ['done'] on the timer emitter; no completion callback is called. *)
Theorem check_starts_pending data timeout token st h st1 :
  check data timeout token st = (h, st1) ->
  let r := length (races st) in
  h_promise h = length (promises st)
  /\ h_cancelEmitter h = next_ee st
  /\ h_doneEmitter h = S (next_ee st)
  /\ next_ee st1 = S (S (next_ee st))
  /\ promises st1 = promises st ++ [Pending]
  /\ log st1 = log st
  /\ forall ee event,
       listeners st1 ee event =
         listeners st ee event ++
           own [ {| c_ee := h_cancelEmitter h; c_event := "cancel";
                    c_fn := Onevent (next_fn st) "cancel" r |};
                 {| c_ee := h_doneEmitter h; c_event := "done";
                    c_fn := Onevent (S (next_fn st)) "done" r |} ] ee event.
Proof.
  intros H r. destruct (check_spec data timeout token st) as [Hh Hst].
  rewrite H in Hh, Hst. cbn [fst snd] in Hh, Hst. subst h. cbn [h_promise h_cancelEmitter h_doneEmitter].
  split; [done|]. split; [done|]. split; [done|].
  split; [by rewrite <- (next_ee_check data timeout token st), H|].
  destruct (check_setup_fields timeout token st) as (Hev & Hr & Hn & Hl & Hp).
  destruct (first_spec (check_pairs (next_ee st) (S (next_ee st)))
              (DoneCheck (length (promises st)) {| checks := data |})
              (check_setup timeout token st)) as (_ & _ & Xl & Xlog & Xp).
  rewrite <- Hst in Xl, Xlog, Xp. rewrite Hr, Hn in Xl.
  split; [by rewrite Xp|]. split; [by rewrite Xlog|].
  intros ee event. rewrite Xl. rewrite (listeners_same_ev st) by done.
  f_equal. rewrite good_prefix_all by (repeat constructor; simpl; lia).
  cbn [check_pairs mk_all mk_cleanups app length]. by rewrite Nat.add_1_r.
Qed.

Lemma check_starts_pending_witness :
  let data := [{| name := "check 1"; status := "failed"; severity := Some "medium";
                  markdownDescription := Some "a warning" |}] in
  let st := snd (check [] 10 None init) in
  let h := fst (check data 2000 (Some 0) st) in
  let st1 := snd (check data 2000 (Some 0) st) in
  h_promise h = length (promises st)
  /\ h_cancelEmitter h = next_ee st
  /\ h_doneEmitter h = S (next_ee st)
  /\ next_ee st1 = S (S (next_ee st))
  /\ promises st1 = promises st ++ [Pending]
  /\ log st1 = log st
  /\ forall ee event,
       listeners st1 ee event =
         listeners st ee event ++
           own [ {| c_ee := h_cancelEmitter h; c_event := "cancel";
                    c_fn := Onevent (next_fn st) "cancel" (length (races st)) |};
                 {| c_ee := h_doneEmitter h; c_event := "done";
                    c_fn := Onevent (S (next_fn st)) "done" (length (races st)) |} ] ee event.
Proof.
  intros data st h st1.
  apply (check_starts_pending data 2000 (Some 0) st h st1). reflexivity.
Defined.

Section check_facts.
Implicit Types (st : state) (r p : nat) (h : handle).

Lemma run_split tr1 tr2 st : run (tr1 ++ tr2) st = run tr2 (run tr1 st).
Proof. revert st. induction tr1 as [|a tr1 IH]; intros st; [done|]. apply IH. Qed.

Lemma check_handle data timeout token st h st1 :
  check data timeout token st = (h, st1) ->
  h_promise h = length (promises st)
  /\ h_cancelEmitter h = next_ee st /\ h_doneEmitter h = S (next_ee st)
  /\ next_ee st1 = S (S (next_ee st))
  /\ length (promises st1) = S (length (promises st))
  /\ st1 = step (ACheck data timeout token) st.
Proof.
  intros H. destruct (check_spec data timeout token st) as [Hh _].
  rewrite H in Hh. cbn [fst] in Hh. subst h. cbn [h_promise h_cancelEmitter h_doneEmitter].
  split; [done|]. split; [done|]. split; [done|].
  split; [by rewrite <- (next_ee_check data timeout token st), H|].
  split; [|cbn [step]; by rewrite H].
  pose proof (ex_promises _ _ _ (check_extends data timeout token st)) as [ps Hps].
  destruct (check_spec data timeout token st) as [_ Hst].
  destruct (first_spec (check_pairs (next_ee st) (S (next_ee st)))
              (DoneCheck (length (promises st)) {| checks := data |})
              (check_setup timeout token st)) as (_ & _ & _ & _ & Xp).
  rewrite <- Hst, H in Xp. cbn [snd] in Xp. rewrite Xp.
  destruct (check_setup_fields timeout token st) as (_ & _ & _ & _ & ->).
  rewrite length_app. simpl. lia.
Qed.

Lemma settles_from entries r cs p res st a tr2 ee event args :
  map (fun c => (c_ee c, c_event c)) cs = combos entries ->
  race_inv r cs (DoneCheck p res) Waiting st -> rcalls r st = [] ->
  promise_inv p r st ->
  fires entries a ee event args ->
  promises (run (a :: tr2) st) !! p =
    Some (Fulfilled (if decide (event = "done") then res else {| checks := [] |})).
Proof.
  intros Hk I C Pi Hf.
  destruct (run_observe r cs (a :: tr2) (start (DoneCheck p res)) st I C) as (_ & C' & P).
  rewrite (pi_state _ _ _ (P p Pi)), C'.
  rewrite (foldl_observe_ext r _ (watch_count entries))
    by (intros ee' event'; unfold watch_count; by rewrite own_length, Hk).
  cbn [foldl].
  destruct (observe_fires r entries (start (DoneCheck p res)) a _ _ _ Hf eq_refl)
    as (n & _ & ->).
  match goal with |- context [foldl _ ?v0 tr2] =>
    destruct (foldl_observe_settled r entries v0 tr2 eq_refl) as [_ ->] end.
  cbn [v_calls start v_done app]. by rewrite replay_replicate.
Qed.

Lemma check_waiting data timeout token st h st1 tr :
  wf st -> check data timeout token st = (h, st1) ->
  Forall (quiet (length (races st)) (check_pairs (h_cancelEmitter h) (h_doneEmitter h))) tr ->
  exists cs,
    map (fun c => (c_ee c, c_event c)) cs =
      combos (check_pairs (h_cancelEmitter h) (h_doneEmitter h))
    /\ race_inv (length (races st)) cs (DoneCheck (h_promise h) {| checks := data |}) Waiting
         (run tr st1)
    /\ rcalls (length (races st)) (run tr st1) = []
    /\ promise_inv (h_promise h) (length (races st)) (run tr st1).
Proof.
  intros W H Hq. destruct (check_start _ _ _ _ _ _ W H) as (st0 & W0 & Hp & Hu & Hr & H0).
  destruct (handler_promise_inv _ _ _ _ _ _ W0 Hp Hu H0) as [Hd Pi].
  destruct (race_run _ _ _ _ _ W0 Hd H0) as (cs & Hk & _ & Hrun).
  exists cs. split; [done|]. destruct (Hrun tr) as (I & C & P).
  destruct (foldl_observe_waiting _ _ (start (DoneCheck (h_promise h) {| checks := data |})) tr
              (quiet_leaves_waiting _ _ _ Hq) eq_refl) as (Hw & Hc & Hdn).
  rewrite Hw, (Hdn (quiet_no_thunk _ _ _ Hq)) in I.
  split; [done|]. split; [by rewrite C, Hc|]. by apply P.
Qed.
End check_facts.

(** X13: once the timer event or the cancellation event of a check has been
    delivered, none of the listeners [check] attached is registered on any
    emitter any more, whatever happened before and whatever happens
    afterwards. *)
Theorem check_leaves_no_listener data timeout token st h st1 tr1 a tr2 args :
  wf st -> check data timeout token st = (h, st1) ->
  emitted a = Some (h_doneEmitter h, "done", args)
    \/ emitted a = Some (h_cancelEmitter h, "cancel", args) ->
  forall ee event,
    race_listeners (length (races st)) (run (tr1 ++ a :: tr2) st1) ee event = [].
Proof.
  intros W H Ha. destruct (check_start _ _ _ _ _ _ W H) as (st0 & W0 & Hp & Hu & Hr & H0).
  destruct (handler_promise_inv _ _ _ _ _ _ W0 Hp Hu H0) as [Hd _].
  apply (detached_after _ _ _ _ _ tr1 a tr2 W0 Hd H0). right.
  destruct Ha as [Ha|Ha].
  - exists (h_doneEmitter h), "done", args. split; [done|].
    unfold check_pairs, combos; simpl; set_solver.
  - exists (h_cancelEmitter h), "cancel", args. split; [done|].
    unfold check_pairs, combos; simpl; set_solver.
Qed.

Lemma check_leaves_no_listener_witness :
  let h := fst (check [] 50 (Some 0) init) in
  let st1 := snd (check [] 50 (Some 0) init) in
  let tr := [AEmit 9 "x" []] ++ ACancellationRequested (h_cancelEmitter h)
              :: [ATimeout (h_doneEmitter h)] in
  race_listeners (length (races init)) (run tr st1) (h_cancelEmitter h) "cancel" = []
  /\ race_listeners (length (races init)) (run tr st1) (h_doneEmitter h) "done" = [].
Proof.
  intros h st1 tr.
  assert (emitted (ACancellationRequested (h_cancelEmitter h)) =
            Some (h_doneEmitter h, "done", [])
          \/ emitted (ACancellationRequested (h_cancelEmitter h)) =
            Some (h_cancelEmitter h, "cancel", [])) as Ha by (right; reflexivity).
  pose proof (check_leaves_no_listener [] 50 (Some 0) init h st1 [AEmit 9 "x" []]
                (ACancellationRequested (h_cancelEmitter h)) [ATimeout (h_doneEmitter h)] []
                wf_init eq_refl Ha) as X.
  split; apply X.
Defined.

(** Shows that a pair is none of the listed ones, by its emitter or name. *)
Ltac other_pair :=
  rewrite !not_elem_of_cons;
  repeat split; try apply not_elem_of_nil;
  let E := fresh in intros E; inversion E; lia.

(** X14: two checks do not disturb each other.  Their promises and their
    emitters are different; whatever the host does with the timer and the
    token of the second check, the promise of the first stays pending, and
    it is fulfilled with the first check's own findings when its own timer
    event comes; and the same holds with the two checks exchanged. *)
Theorem checks_are_independent
    data1 t1 tok1 data2 t2 tok2 st h1 st1 h2 st2 trA a1 trB a2 tr' args1 args2 :
  wf st ->
  check data1 t1 tok1 st = (h1, st1) ->
  check data2 t2 tok2 st1 = (h2, st2) ->
  Forall (fun a' => a' = ATimeout (h_doneEmitter h2)
                    \/ a' = ACancellationRequested (h_cancelEmitter h2)) trA ->
  emitted a1 = Some (h_doneEmitter h1, "done", args1) ->
  Forall (fun a' => a' = ATimeout (h_doneEmitter h1)
                    \/ a' = ACancellationRequested (h_cancelEmitter h1)) trB ->
  emitted a2 = Some (h_doneEmitter h2, "done", args2) ->
  h_promise h1 <> h_promise h2
  /\ NoDup [h_cancelEmitter h1; h_doneEmitter h1; h_cancelEmitter h2; h_doneEmitter h2]
  /\ promises (run trA st2) !! h_promise h1 = Some Pending
  /\ promises (run (trA ++ a1 :: tr') st2) !! h_promise h1 =
       Some (Fulfilled {| checks := data1 |})
  /\ promises (run trB st2) !! h_promise h2 = Some Pending
  /\ promises (run (trB ++ a2 :: tr') st2) !! h_promise h2 =
       Some (Fulfilled {| checks := data2 |}).
Proof.
  intros W H1 H2 HA Ha1 HB Ha2.
  destruct (check_handle _ _ _ _ _ _ H1) as (Hp1 & Hc1 & Hd1 & Hn1 & Hl1 & Hs1).
  destruct (check_handle _ _ _ _ _ _ H2) as (Hp2 & Hc2 & Hd2 & Hn2 & Hl2 & Hs2).
  assert (wf st1) as W1 by (rewrite Hs1; by apply step_wf).
  split; [lia|]. split.
  { rewrite Hc1, Hd1, Hc2, Hd2, Hn1. rewrite !NoDup_cons, !elem_of_cons.
    repeat split; try apply NoDup_nil_2; rewrite ?elem_of_nil; lia. }
  assert (Forall (quiet (length (races st))
            (check_pairs (h_cancelEmitter h1) (h_doneEmitter h1)))
            (ACheck data2 t2 tok2 :: trA)) as HqA.
  { apply List.Forall_cons.
    { split; [split; [discriminate|]|discriminate]. intros ? ? ? He. discriminate He. }
    eapply Forall_impl; [exact HA|]. intros a' [->| ->].
    - split; [split; [discriminate|]|discriminate]. intros ee event args He.
      inversion He; subst. unfold check_pairs, combos; simpl.
      rewrite Hc1, Hd1, Hd2, Hn1. other_pair.
    - split; [split; [discriminate|]|discriminate]. intros ee event args He.
      inversion He; subst. unfold check_pairs, combos; simpl.
      rewrite Hc1, Hd1, Hc2, Hn1. other_pair. }
  assert (Forall (quiet (length (races st1))
            (check_pairs (h_cancelEmitter h2) (h_doneEmitter h2))) trB) as HqB.
  { eapply Forall_impl; [exact HB|]. intros a' [->| ->].
    - split; [split; [discriminate|]|discriminate]. intros ee event args He.
      inversion He; subst. unfold check_pairs, combos; simpl.
      rewrite Hc2, Hd2, Hd1, Hn1. other_pair.
    - split; [split; [discriminate|]|discriminate]. intros ee event args He.
      inversion He; subst. unfold check_pairs, combos; simpl.
      rewrite Hc2, Hd2, Hc1, Hn1. other_pair. }
  assert (forall tr, run tr st2 = run (ACheck data2 t2 tok2 :: tr) st1) as Hrun
    by (intros tr; by rewrite Hs2).
  split; [|split; [|split]].
  - rewrite Hrun.
    destruct (check_waiting _ _ _ _ _ _ _ W H1 HqA) as (cs & _ & _ & C & Pi).
    by rewrite (pi_state _ _ _ Pi), C.
  - rewrite Hrun. change (ACheck data2 t2 tok2 :: trA ++ a1 :: tr')
      with ((ACheck data2 t2 tok2 :: trA) ++ a1 :: tr').
    rewrite run_split.
    destruct (check_waiting _ _ _ _ _ _ _ W H1 HqA) as (cs & Hk & I & C & Pi).
    rewrite (settles_from _ _ _ _ _ _ a1 tr' (h_doneEmitter h1) "done" args1 Hk I C Pi).
    + by rewrite decide_True.
    + split; [done|]. unfold check_pairs, combos; simpl.
      rewrite !elem_of_cons. tauto.
  - destruct (check_waiting _ _ _ _ _ _ _ W1 H2 HqB) as (cs & _ & _ & C & Pi).
    by rewrite (pi_state _ _ _ Pi), C.
  - rewrite run_split.
    destruct (check_waiting _ _ _ _ _ _ _ W1 H2 HqB) as (cs & Hk & I & C & Pi).
    rewrite (settles_from _ _ _ _ _ _ a2 tr' (h_doneEmitter h2) "done" args2 Hk I C Pi).
    + by rewrite decide_True.
    + split; [done|]. unfold check_pairs, combos; simpl.
      rewrite !elem_of_cons. tauto.
Qed.

Lemma checks_are_independent_witness :
  let data1 := [{| name := "check 1"; status := "failed"; severity := Some "medium";
                   markdownDescription := Some "a warning" |}] in
  let data2 := [{| name := "check 3"; status := "success"; severity := None;
                   markdownDescription := None |}] in
  let h1 := fst (check data1 2000 (Some 0) init) in
  let st1 := snd (check data1 2000 (Some 0) init) in
  let h2 := fst (check data2 5000 None st1) in
  let st2 := snd (check data2 5000 None st1) in
  let trA := [ATimeout (h_doneEmitter h2); ACancellationRequested (h_cancelEmitter h2)] in
  let trB := [ACancellationRequested (h_cancelEmitter h1)] in
  h_promise h1 <> h_promise h2
  /\ NoDup [h_cancelEmitter h1; h_doneEmitter h1; h_cancelEmitter h2; h_doneEmitter h2]
  /\ promises (run trA st2) !! h_promise h1 = Some Pending
  /\ promises (run (trA ++ ATimeout (h_doneEmitter h1) :: []) st2) !! h_promise h1 =
       Some (Fulfilled {| checks := data1 |})
  /\ promises (run trB st2) !! h_promise h2 = Some Pending
  /\ promises (run (trB ++ ATimeout (h_doneEmitter h2) :: []) st2) !! h_promise h2 =
       Some (Fulfilled {| checks := data2 |}).
Proof.
  intros data1 data2 h1 st1 h2 st2 trA trB.
  apply (checks_are_independent data1 2000 (Some 0) data2 5000 None init h1 st1 h2 st2
           trA (ATimeout (h_doneEmitter h1)) trB (ATimeout (h_doneEmitter h2)) [] [] []
           wf_init eq_refl eq_refl).
  - apply List.Forall_cons; [by left|].
    apply List.Forall_cons; [by right|apply List.Forall_nil].
  - reflexivity.
  - apply List.Forall_cons; [by right|apply List.Forall_nil].
  - reflexivity.
Defined.

(** X15: the [check] of the failing provider returns a promise that is
    rejected with the error "an internal error occured", with or without a
    token; it starts no race, registers no listener, timer or token
    callback, calls no completion callback, and the promise stays rejected
    whatever happens afterwards. *)
Theorem failing_check_rejects token st tr :
  let p := fst (failing_check token st) in
  let st1 := snd (failing_check token st) in
  p = length (promises st)
  /\ promises st1 = promises st ++ [Rejected "an internal error occured"]
  /\ ev st1 = ev st /\ races st1 = races st /\ log st1 = log st
  /\ timers st1 = timers st /\ subscriptions st1 = subscriptions st
  /\ promises (run tr st1) !! p = Some (Rejected "an internal error occured").
Proof.
  intros p st1. unfold p, st1, failing_check, reject. cbn [fst snd promises set_promises].
  rewrite list_lookup_middle by done. cbn [promises set_promises ev races log timers subscriptions].
  assert (<[length (promises st) := Rejected "an internal error occured"]>
            (promises st ++ [Pending]) =
          promises st ++ [Rejected "an internal error occured"]) as ->.
  { replace (length (promises st)) with (length (promises st) + 0) at 1 by lia.
    by rewrite insert_app_r. }
  repeat (split; [done|]).
  apply run_final; cbn [promises]; [|done].
  by apply list_lookup_middle.
Qed.

(** X16: [deactivate] only writes its line to the console.  It removes no
    listener, clears no timer and no token callback, and settles nothing: a
    check which is pending when the extension is deactivated is still
    pending afterwards, and is fulfilled with its findings when its timer
    event comes. *)
Theorem deactivate_keeps_checks_pending data timeout token st h st1 tr1 a tr2 args :
  wf st -> check data timeout token st = (h, st1) ->
  Forall (quiet (length (races st)) (check_pairs (h_cancelEmitter h) (h_doneEmitter h))) tr1 ->
  emitted a = Some (h_doneEmitter h, "done", args) ->
  let st2 := deactivate (run tr1 st1) in
  console st2 = console (run tr1 st1) ++ ["stopping image-checker extension"]
  /\ (forall ee event, listeners st2 ee event = listeners (run tr1 st1) ee event)
  /\ timers st2 = timers (run tr1 st1)
  /\ subscriptions st2 = subscriptions (run tr1 st1)
  /\ promises st2 !! h_promise h = Some Pending
  /\ promises (run (a :: tr2) st2) !! h_promise h = Some (Fulfilled {| checks := data |}).
Proof.
  intros W H Hq Ha st2.
  destruct (check_waiting _ _ _ _ _ _ _ W H Hq) as (cs & Hk & I & C & Pi).
  split; [done|]. split; [done|]. split; [done|]. split; [done|].
  assert (race_inv (length (races st)) cs (DoneCheck (h_promise h) {| checks := data |})
            Waiting st2) as I2 by (by apply race_inv_set_console).
  assert (promise_inv (h_promise h) (length (races st)) st2) as Pi2
    by (eapply promise_inv_frame; [exact Pi|apply set_console_frame]).
  assert (rcalls (length (races st)) st2 = []) as C2 by exact C.
  split.
  - by rewrite (pi_state _ _ _ Pi2), C2.
  - rewrite (settles_from _ _ _ _ _ _ a tr2 (h_doneEmitter h) "done" args Hk I2 C2 Pi2).
    + by rewrite decide_True.
    + split; [done|]. unfold check_pairs, combos; simpl. rewrite !elem_of_cons. tauto.
Qed.

Lemma deactivate_keeps_checks_pending_witness :
  let data := [{| name := "check 2"; status := "failed"; severity := Some "high";
                  markdownDescription := Some "an error" |}] in
  let h := fst (check data 2000 (Some 0) init) in
  let st1 := snd (check data 2000 (Some 0) init) in
  let st2 := deactivate (run [AEmit 5 "x" []] st1) in
  console st2 = console (run [AEmit 5 "x" []] st1) ++ ["stopping image-checker extension"]
  /\ (forall ee event, listeners st2 ee event = listeners (run [AEmit 5 "x" []] st1) ee event)
  /\ timers st2 = timers (run [AEmit 5 "x" []] st1)
  /\ subscriptions st2 = subscriptions (run [AEmit 5 "x" []] st1)
  /\ promises st2 !! h_promise h = Some Pending
  /\ promises (run (ATimeout (h_doneEmitter h) :: []) st2) !! h_promise h =
       Some (Fulfilled {| checks := data |}).
Proof.
  intros data h st1 st2.
  apply (deactivate_keeps_checks_pending data 2000 (Some 0) init h st1 [AEmit 5 "x" []]
           (ATimeout (h_doneEmitter h)) [] [] wf_init eq_refl).
  - quiet_trace.
  - reflexivity.
Defined.

(** * Races in a world which acts *)

(** ** The two embeddings

    With nothing run below, the functions of [Reentrant] are those of the
    first embedding: there the emitter's own events have no listener which
    acts and the bodies of other code are empty. *)

Section cut_off.
Context (w : world).
Implicit Types (st : state) (f : fn) (r ee : nat) (event : string).

Lemma on_cut ee event f st : Reentrant.on Reentrant.cut ee event f st = on ee event f st.
Proof. reflexivity. Qed.

Lemma removeListener_cut ee event f st :
  Reentrant.removeListener Reentrant.cut ee event f st = removeListener ee event f st.
Proof.
  unfold Reentrant.removeListener, removeListener.
  by destruct (remove_last f (listeners st ee event)).
Qed.

Lemma cleanup_loop_cut xs st :
  Reentrant.cleanup_loop Reentrant.cut xs st = cleanup_loop xs st.
Proof.
  revert st. induction xs as [|x xs IH]; intros st; simpl; [done|].
  by rewrite removeListener_cut, IH.
Qed.

Lemma cleanup_cut r st : Reentrant.cleanup Reentrant.cut r st = cleanup r st.
Proof.
  unfold Reentrant.cleanup, cleanup. destruct (races st !! r); [|done].
  apply cleanup_loop_cut.
Qed.

Lemma apply_done_cut r err ee event args st :
  Reentrant.apply_done w Reentrant.cut r err ee event args st =
    apply_done r err ee event args st.
Proof.
  unfold Reentrant.apply_done, apply_done. destruct (races st !! r) as [env|]; [|done].
  by destruct (done env).
Qed.

Lemma invoke_cut f this args st :
  Reentrant.invoke w Reentrant.cut f this args st = invoke f this args st.
Proof.
  destruct f as [id e r|k]; simpl; [|done].
  unfold Reentrant.onevent, onevent, Reentrant.callback, callback.
  by rewrite cleanup_cut, apply_done_cut.
Qed.

Lemma dispatch_cut snapshot this args st :
  Reentrant.dispatch w Reentrant.cut snapshot this args st = dispatch snapshot this args st.
Proof.
  revert st. induction snapshot as [|f l IH]; intros st; simpl; [done|].
  by rewrite invoke_cut, IH.
Qed.

Lemma emit_cut ee event args st :
  Reentrant.emit w Reentrant.cut ee event args st = emit ee event args st.
Proof. apply dispatch_cut. Qed.

Lemma attach_events_cut r ee events st :
  Reentrant.attach_events Reentrant.cut r ee events st = attach_events r ee events st.
Proof.
  revert st. induction events as [|e events IH]; intros st; simpl; [done|].
  by rewrite on_cut, IH.
Qed.

Lemma attach_entries_cut r stuff st :
  Reentrant.attach_entries Reentrant.cut r stuff st = attach_entries r stuff st.
Proof.
  revert st. induction stuff as [|arr stuff IH]; intros st; simpl; [done|].
  destruct (negb (isArray arr) || (arr_length arr <? 2)); [done|].
  destruct arr as [| |ee events]; [done|done|]. rewrite attach_events_cut. apply IH.
Qed.

Lemma first_cut stuff d st : Reentrant.first Reentrant.cut stuff d st = first stuff d st.
Proof. destruct stuff; simpl; [done|]. apply attach_entries_cut. Qed.

Lemma check_cut data timeout token st :
  Reentrant.check Reentrant.cut data timeout token st = check data timeout token st.
Proof.
  unfold Reentrant.check, check, new_Promise. cbn [new_EventEmitter].
  by rewrite first_cut.
Qed.

Lemma step_cut a st : Reentrant.step w Reentrant.cut a st = step a st.
Proof.
  destruct a; cbn [Reentrant.step step].
  - apply emit_cut.
  - apply cleanup_cut.
  - done.
  - by rewrite first_cut.
  - apply on_cut.
  - apply removeListener_cut.
  - done.
  - by rewrite check_cut.
  - apply emit_cut.
  - apply emit_cut.
Qed.

(** Run to depth [0], a trace of the second embedding is a trace of the
    first. *)
Lemma run_cut tr st : Reentrant.run w (Reentrant.nested w 0) tr st = run tr st.
Proof.
  revert st. induction tr as [|a tr IH]; intros st; simpl; [done|].
  by rewrite step_cut, IH.
Qed.
End cut_off.

(** The changes which [on], [removeListener] and [apply_done] make by
    themselves are those of the first embedding; from here on the names of
    the functions are those of [Reentrant]. *)
Local Abbreviation add_to_table := on.
Local Abbreviation remove_from_table := removeListener.
Local Abbreviation record_call := apply_done.

Import Reentrant.

(** ** The functions over the tables *)

Section unfold.
Context (w : world) (below : inner).
Implicit Types (st : state) (f : fn) (r ee : nat) (event : string).

Lemma on_eq ee event f st :
  on below ee event f st =
    add_to_table ee event f
      (inner_emit below ee "newListener" [VString event; fn_value f] st).
Proof. reflexivity. Qed.

Lemma removeListener_eq ee event f st :
  removeListener below ee event f st =
    match remove_last f (listeners st ee event) with
    | None => remove_from_table ee event f st
    | Some _ =>
        inner_emit below ee "removeListener" [VString event; fn_value f]
          (remove_from_table ee event f st)
    end.
Proof.
  unfold removeListener, remove_from_table.
  by destruct (remove_last f (listeners st ee event)).
Qed.

Lemma removeListener_absent' ee event f st :
  f ∉ listeners st ee event -> removeListener below ee event f st = st.
Proof.
  intros H. unfold removeListener. apply remove_last_None in H. by rewrite H.
Qed.

Lemma apply_done_eq r err ee event args st :
  apply_done w below r err ee event args st =
    match races st !! r with
    | Some env =>
        match done env with
        | DoneUser k => inner_run below (callback_body w k) (record_call r err ee event args st)
        | DoneCheck _ _ => record_call r err ee event args st
        end
    | None => st
    end.
Proof.
  unfold apply_done, record_call. destruct (races st !! r) as [env|]; [|done].
  by destruct (done env).
Qed.

Lemma next_fn_remove_from_table ee event f st :
  next_fn (remove_from_table ee event f st) = next_fn st.
Proof. unfold remove_from_table. by destruct (remove_last _ _). Qed.

Lemma next_fn_resolve p v st : next_fn (resolve p v st) = next_fn st.
Proof. unfold resolve. by destruct (promises st !! p) as [[]|]. Qed.

Lemma next_fn_record_call r err ee event args st :
  next_fn (record_call r err ee event args st) = next_fn st.
Proof.
  unfold record_call. destruct (races st !! r) as [env|]; [|done].
  destruct (done env); [done|]. unfold settle. case_decide; by rewrite next_fn_resolve.
Qed.
Lemma attach_entries_fst r stuff st :
  fst (attach_entries below r stuff st) =
    if decide (Forall well_formed stuff) then Return r
    else Throw "each array member must be [ee, events...]".
Proof.
  revert st. induction stuff as [|arr rest IH]; intros st.
  - by destruct (decide (Forall well_formed [])) as [|[]].
  - destruct (decide (Forall well_formed (arr :: rest))) as [Hf|Hf].
    + inversion Hf as [|?? [Ha Hl] Hrest]; subst.
      destruct arr as [| |ee events]; simpl in Ha, Hl; try done; try lia.
      destruct events as [|e es]; simpl in Hl; [lia|].
      cbn [attach_entries isArray arr_length negb orb Nat.ltb Nat.leb length].
      rewrite IH. by destruct (decide (Forall well_formed rest)).
    + destruct arr as [| |ee events]; try done.
      destruct events as [|e es]; [done|].
      cbn [attach_entries isArray arr_length negb orb Nat.ltb Nat.leb length].
      rewrite IH. destruct (decide (Forall well_formed rest)) as [Hr|Hr]; [|done].
      exfalso. apply Hf. constructor; [|done]. split; simpl; [done|lia].
Qed.

Lemma first_Return_id entries d st r st1 :
  first below (Array entries) d st = (Return r, st1) ->
  Forall well_formed entries /\ r = length (races st).
Proof.
  intros H. pose proof (attach_entries_fst (length (races st)) entries
    (set_races (races st ++ [{| cleanups := []; done := d |}]) st)) as Hres.
  unfold first in H. rewrite H in Hres. simpl in Hres.
  destruct (decide (Forall well_formed entries)); [|done]. by inversion Hres.
Qed.

Lemma first_returns_id entries d st :
  Forall well_formed entries ->
  first below (Array entries) d st =
    (Return (length (races st)), snd (first below (Array entries) d st)).
Proof.
  intros Hwf. pose proof (attach_entries_fst (length (races st)) entries
    (set_races (races st ++ [{| cleanups := []; done := d |}]) st)) as Hres.
  rewrite decide_True in Hres by done. unfold first.
  destruct (attach_entries _ _ _ _) as [res st']. simpl in *. by subst.
Qed.

Lemma check_eq data timeout token st :
  snd (check below data timeout token st) =
    snd (first below (Array (check_pairs (next_ee st) (S (next_ee st))))
           (DoneCheck (length (promises st)) {| checks := data |})
           (check_setup timeout token st)).
Proof.
  assert (Forall well_formed (check_pairs (next_ee st) (S (next_ee st)))) as Hwf
    by (repeat constructor; simpl; lia).
  unfold check, new_EventEmitter, new_Promise.
  cbn [next_ee set_next_ee].
  set (st0 := setTimeout _ _ _).
  assert (promises st0 = promises st) as Hp by (unfold st0; by destruct token).
  assert (set_promises (promises st ++ [Pending]) st0 = check_setup timeout token st) as Hs
    by (unfold st0; by destruct token).
  rewrite Hp, Hs. by rewrite (first_returns_id _ _ _ Hwf).
Qed.
End unfold.

(** ** Leaving a race alone *)

Section relations.
Context (r : nat) (entries : list entry).
Implicit Types (st : state).

Lemma keeps_refl st : wf st -> keeps r st st.
Proof. by split. Qed.

Lemma keeps_trans st1 st2 st3 : keeps r st1 st2 -> keeps r st2 st3 -> keeps r st1 st3.
Proof.
  intros [W1 E1 C1 N1 R1] [W2 E2 C2 N2 R2]. split; [done| | |lia|lia].
  - by rewrite E2.
  - by rewrite C2.
Qed.

Lemma spares_refl st : wf st -> spares r st st.
Proof. split; [by apply keeps_refl|done]. Qed.

Lemma spares_trans st1 st2 st3 : spares r st1 st2 -> spares r st2 st3 -> spares r st1 st3.
Proof.
  intros [K1 L1] [K2 L2]. split; [by eapply keeps_trans|].
  intros. by rewrite L2.
Qed.

Lemma keeps_exists st st' : keeps r st st' -> r < length (races st) -> r < length (races st').
Proof. intros K H. pose proof (k_races _ _ _ K). lia. Qed.

Lemma spares_calm st st' : calm r entries st -> spares r st st' -> calm r entries st'.
Proof.
  intros [W C X] [K L]. split; [apply K| |by eapply keeps_exists].
  intros ee event Hk. rewrite L. by apply C.
Qed.

Lemma frame_spares st st' :
  wf st' -> frame r st st' -> next_fn st <= next_fn st' ->
  length (races st) <= length (races st') -> spares r st st'.
Proof.
  intros W F N R. split; [split; [done|apply F|apply F|done|done]|apply F].
Qed.
End relations.

(** ** What spares a race *)

Section alone.
Context (w : world) (r : nat) (entries : list entry).
Hypothesis Hplain : plain entries.
Hypothesis Hpassive : passive w r entries.

Section level.
Context (below : inner).
Hypothesis Hbelow : sound r entries below.
Implicit Types (st : state) (f : fn) (ee : nat) (event : string)
  (cs : list cleanup_entry) (d : donefn) (ph : phase).

Lemma newListener_unwatched ee : (ee, "newListener") ∉ combos entries.
Proof. intros H. by destruct (Hplain _ _ H). Qed.

Lemma removeListener_unwatched ee : (ee, "removeListener") ∉ combos entries.
Proof. intros H. by destruct (Hplain _ _ H). Qed.

Lemma on_spares ee event f st :
  calm r entries st -> fn_race f <> Some r ->
  (forall r', fn_race f = Some r' -> r' < length (races st)) ->
  spares r st (on below ee event f st).
Proof.
  intros C Hf Hlt. rewrite on_eq.
  pose proof (sound_emit _ _ _ Hbelow ee "newListener" [VString event; fn_value f] st C
                (newListener_unwatched ee)) as S1.
  eapply spares_trans; [exact S1|].
  apply frame_spares; [|by apply on_frame|done|done].
  apply on_wf; [apply S1|]. intros r' Hr'. pose proof (Hlt r' Hr').
  pose proof (k_races _ _ _ (sp_keeps _ _ _ S1)). lia.
Qed.

Lemma remove_from_table_spares ee event f st :
  wf st -> fn_race f <> Some r -> spares r st (remove_from_table ee event f st).
Proof.
  intros W Hf. apply frame_spares.
  - by apply removeListener_wf.
  - by apply removeListener_frame.
  - by rewrite next_fn_remove_from_table.
  - by rewrite races_removeListener.
Qed.

(** After the table was changed, what the emitter calls spares the race. *)
Lemma removeListener_after ee event f st :
  calm r entries (remove_from_table ee event f st) ->
  spares r (remove_from_table ee event f st) (removeListener below ee event f st).
Proof.
  intros C. rewrite removeListener_eq.
  destruct (remove_last f (listeners st ee event)); [|apply spares_refl, C].
  apply (sound_emit _ _ _ Hbelow); [done|apply removeListener_unwatched].
Qed.

Lemma removeListener_spares ee event f st :
  calm r entries st -> fn_race f <> Some r ->
  spares r st (removeListener below ee event f st).
Proof.
  intros C Hf.
  pose proof (remove_from_table_spares ee event f st (calm_wf _ _ _ C) Hf) as S1.
  eapply spares_trans; [exact S1|].
  apply removeListener_after. by eapply spares_calm.
Qed.

Lemma cleanup_loop_spares xs st :
  calm r entries st -> Forall (fun c => fn_race (c_fn c) <> Some r) xs ->
  spares r st (cleanup_loop below xs st).
Proof.
  revert st. induction xs as [|x xs IH]; intros st C H; simpl; [apply spares_refl, C|].
  apply Forall_cons in H as [Hx Hxs].
  pose proof (removeListener_spares (c_ee x) (c_event x) (c_fn x) st C Hx) as S1.
  eapply spares_trans; [exact S1|]. apply IH; [by eapply spares_calm|done].
Qed.

Lemma cleanup_spares r' st :
  calm r entries st -> r' <> r -> spares r st (cleanup below r' st).
Proof.
  intros C Hne. unfold cleanup.
  destruct (races st !! r') as [env|] eqn:E; [|apply spares_refl, C].
  apply cleanup_loop_spares; [done|]. apply Forall_forall. intros c Hc.
  rewrite (wf_cleanups _ (calm_wf _ _ _ C) _ _ _ E Hc). congruence.
Qed.

Lemma record_call_spares r' err ee event args st :
  wf st -> r' <> r -> spares r st (record_call r' err ee event args st).
Proof.
  intros W Hne. apply frame_spares.
  - by apply apply_done_wf.
  - by apply apply_done_frame.
  - by rewrite next_fn_record_call.
  - by rewrite races_apply_done.
Qed.

Lemma apply_done_spares r' err ee event args st :
  calm r entries st -> r' <> r -> spares r st (apply_done w below r' err ee event args st).
Proof.
  intros C Hne. rewrite apply_done_eq.
  pose proof (record_call_spares r' err ee event args st (calm_wf _ _ _ C) Hne) as S1.
  destruct (races st !! r') as [env|]; [|apply spares_refl, C].
  destruct (done env) as [k|p res]; [|done].
  eapply spares_trans; [exact S1|].
  apply (sound_run _ _ _ Hbelow); [by eapply spares_calm|apply Hpassive].
Qed.

Lemma callback_spares r' err ee event args st :
  calm r entries st -> r' <> r -> spares r st (callback w below r' err ee event args st).
Proof.
  intros C Hne. unfold callback.
  pose proof (cleanup_spares r' st C Hne) as S1.
  eapply spares_trans; [exact S1|]. apply apply_done_spares; [by eapply spares_calm|done].
Qed.

Lemma invoke_spares f this args st :
  calm r entries st -> fn_race f <> Some r -> spares r st (invoke w below f this args st).
Proof.
  intros C Hf. destruct f as [id e r'|k]; simpl.
  - apply callback_spares; [done|]. simpl in Hf. congruence.
  - apply (sound_run _ _ _ Hbelow); [done|apply Hpassive].
Qed.

Lemma dispatch_spares snapshot this args st :
  calm r entries st -> Forall (fun f => fn_race f <> Some r) snapshot ->
  spares r st (dispatch w below snapshot this args st).
Proof.
  revert st. induction snapshot as [|f l IH]; intros st C H; simpl; [apply spares_refl, C|].
  apply Forall_cons in H as [Hf Hl].
  pose proof (invoke_spares f this args st C Hf) as S1.
  eapply spares_trans; [exact S1|]. apply IH; [by eapply spares_calm|done].
Qed.

Lemma emit_spares ee event args st :
  calm r entries st -> (ee, event) ∉ combos entries ->
  spares r st (emit w below ee event args st).
Proof.
  intros C Hk. unfold emit. apply dispatch_spares; [done|].
  apply Forall_forall. intros f Hf Hr.
  assert (f ∈ race_listeners r st ee event) as Hin by (apply list_elem_of_filter; done).
  rewrite (calm_confined _ _ _ C ee event Hk) in Hin. by apply elem_of_nil in Hin.
Qed.

Lemma set_next_fn_spares n st : wf st -> next_fn st <= n -> spares r st (set_next_fn n st).
Proof.
  intros [W1 W2 W3 W4] Hn. split; [split|]; try done.
Qed.

Lemma push_cleanup_spares r' c st :
  wf st -> r' <> r -> fn_race (c_fn c) = Some r' -> spares r st (push_cleanup r' c st).
Proof.
  intros [W1 W2 W3 W4] Hne Hc. unfold push_cleanup. split; [split|]; try done.
  - split; cbn [races set_races promises log].
    + intros ee event f r0 Hin Hr0. rewrite length_alter. by eapply W1.
    + intros r0 env c0 Hl Hc0. rewrite list_lookup_alter in Hl.
      case_decide; [|by eapply W2]. subst r0.
      destruct (races st !! r') as [env'|] eqn:E; simpl in Hl; [|done].
      inversion Hl; subst env. simpl in Hc0.
      apply elem_of_app in Hc0 as [Hc0|Hc0]; [by eapply W2|].
      apply list_elem_of_singleton in Hc0. by subst.
    + intros r0 env p res Hl Hd. rewrite list_lookup_alter in Hl.
      case_decide; [|by eapply W3]. subst r0.
      destruct (races st !! r') as [env'|] eqn:E; simpl in Hl; [|done].
      inversion Hl; subst env. simpl in Hd. by eapply W3.
    + intros c0 Hc0. rewrite length_alter. by apply W4.
  - cbn [races set_races]. by rewrite list_lookup_alter_ne.
  - cbn [races set_races]. by rewrite length_alter.
Qed.

Lemma attach_events_spares r' ee events st :
  calm r entries st -> r' <> r -> r' < length (races st) ->
  spares r st (attach_events below r' ee events st).
Proof.
  revert st. induction events as [|e events IH]; intros st C Hne Hlt; simpl;
    [apply spares_refl, C|].
  pose proof (set_next_fn_spares (S (next_fn st)) st (calm_wf _ _ _ C)) as S1.
  specialize (S1 ltac:(lia)).
  pose proof (spares_calm _ _ _ _ C S1) as C1.
  assert (fn_race (Onevent (next_fn st) e r') <> Some r) as Hf by (simpl; congruence).
  pose proof (on_spares ee e (Onevent (next_fn st) e r') _ C1 Hf) as S2.
  specialize (S2 ltac:(by intros r0 Hr0; simpl in Hr0; inversion Hr0; subst)).
  pose proof (spares_calm _ _ _ _ C1 S2) as C2.
  pose proof (push_cleanup_spares r' {| c_ee := ee; c_event := e;
                 c_fn := Onevent (next_fn st) e r' |} _ (calm_wf _ _ _ C2) Hne eq_refl) as S3.
  pose proof (spares_calm _ _ _ _ C2 S3) as C3.
  eapply spares_trans; [exact S1|]. eapply spares_trans; [exact S2|].
  eapply spares_trans; [exact S3|]. apply IH; [done|done|].
  pose proof (k_races _ _ _ (sp_keeps _ _ _ S2)).
  pose proof (k_races _ _ _ (sp_keeps _ _ _ S3)). simpl in *. lia.
Qed.

Lemma attach_entries_spares r' stuff st :
  calm r entries st -> r' <> r -> r' < length (races st) ->
  spares r st (snd (attach_entries below r' stuff st)).
Proof.
  revert st. induction stuff as [|arr stuff IH]; intros st C Hne Hlt; simpl;
    [apply spares_refl, C|].
  destruct (negb (isArray arr) || (arr_length arr <? 2)); [apply spares_refl, C|].
  destruct arr as [| |ee events]; try apply spares_refl, C.
  pose proof (attach_events_spares r' ee events st C Hne Hlt) as S1.
  eapply spares_trans; [exact S1|]. apply IH; [by eapply spares_calm|done|].
  pose proof (k_races _ _ _ (sp_keeps _ _ _ S1)). lia.
Qed.

Lemma new_race_wf d st :
  wf st -> valid_done d st ->
  wf (set_races (races st ++ [{| cleanups := []; done := d |}]) st).
Proof.
  intros [W1 W2 W3 W4] Hd. split; cbn [races set_races promises log].
  - intros ee event f r0 Hin Hr0. rewrite length_app. pose proof (W1 _ _ _ _ Hin Hr0). lia.
  - intros r0 env c Hl Hc. apply lookup_app_Some in Hl as [Hl|[_ Hl]]; [by eapply W2|].
    apply list_lookup_singleton_Some in Hl as [_ <-]. by apply elem_of_nil in Hc.
  - intros r0 env p res Hl Hp. apply lookup_app_Some in Hl as [Hl|[_ Hl]]; [by eapply W3|].
    apply list_lookup_singleton_Some in Hl as [_ <-]. simpl in Hp. by eapply Hd.
  - intros c Hc. rewrite length_app. pose proof (W4 _ Hc). lia.
Qed.

Lemma new_race_spares d st :
  calm r entries st -> valid_done d st ->
  spares r st (set_races (races st ++ [{| cleanups := []; done := d |}]) st).
Proof.
  intros [W C X] Hd. split; [split|]; try done.
  - by apply new_race_wf.
  - cbn [races set_races]. by rewrite lookup_app_l.
  - cbn [races set_races]. rewrite length_app. lia.
Qed.

Lemma first_spares stuff d st :
  calm r entries st -> valid_done d st -> spares r st (snd (first below stuff d st)).
Proof.
  intros C Hd. destruct stuff as [|stuff]; simpl; [apply spares_refl, C|].
  pose proof (new_race_spares d st C Hd) as S1.
  eapply spares_trans; [exact S1|].
  apply attach_entries_spares; [by eapply spares_calm| |].
  - pose proof (calm_exists _ _ _ C). lia.
  - cbn [races set_races]. rewrite length_app. simpl. lia.
Qed.

Lemma check_setup_spares timeout token st :
  wf st -> spares r st (check_setup timeout token st).
Proof.
  intros W. destruct (check_setup_fields timeout token st) as (Hev & Hr & Hn & Hl & Hp).
  split; [split|].
  - by apply check_setup_wf.
  - by rewrite Hr.
  - unfold rcalls. by rewrite Hl.
  - by rewrite Hn.
  - by rewrite Hr.
  - intros ee event. by apply race_listeners_same_ev.
Qed.

Lemma check_spares data timeout token st :
  calm r entries st -> spares r st (snd (check below data timeout token st)).
Proof.
  intros C. rewrite check_eq.
  pose proof (check_setup_spares timeout token st (calm_wf _ _ _ C)) as S1.
  eapply spares_trans; [exact S1|]. apply first_spares; [by eapply spares_calm|].
  intros q res Hq. inversion Hq; subst.
  destruct (check_setup_fields timeout token st) as (_ & _ & _ & _ & ->).
  rewrite length_app. simpl. lia.
Qed.

Lemma thunk_spares r' k st :
  wf st -> r' <> r -> spares r st (thunk r' (DoneUser k) st).
Proof.
  intros W Hne. apply frame_spares; [by apply thunk_wf|by apply thunk_frame|done|].
  unfold thunk; cbn [races set_races]. by rewrite length_alter.
Qed.

Lemma set_console_spares c st : wf st -> spares r st (set_console c st).
Proof.
  intros W. apply frame_spares; [by apply set_console_wf|apply set_console_frame|done|done].
Qed.

Lemma set_next_ee_spares n st : wf st -> spares r st (set_next_ee n st).
Proof.
  intros W. apply frame_spares; [by apply set_next_ee_wf|apply set_next_ee_frame|done|done].
Qed.

(** An action which delivers no event and is not addressed to the race. *)
Lemma step_spares_other a st :
  calm r entries st -> emitted a = None -> a <> ACancel r -> (forall k, a <> AThunk r k) ->
  spares r st (step w below a st).
Proof.
  intros C He Hc Ht. pose proof (calm_wf _ _ _ C) as W.
  destruct a as [ee event args|r'|r' k|stuff k|ee event k|ee event k| |data timeout token|ce|de];
    try discriminate He; cbn [step].
  - apply cleanup_spares; [done|]. intros ->. by apply Hc.
  - apply thunk_spares; [done|]. intros ->. by apply (Ht k).
  - apply first_spares; [done|]. intros q res Hq. discriminate Hq.
  - by apply on_spares.
  - by apply removeListener_spares.
  - by apply set_next_ee_spares.
  - by apply check_spares.
Qed.

Lemma step_spares a st :
  calm r entries st -> quiet r entries a -> spares r st (step w below a st).
Proof.
  intros C [[Hc Hl] Ht]. destruct (emitted a) as [[[ee event] args]|] eqn:He.
  - pose proof (Hl _ _ _ eq_refl) as Hk.
    destruct a as [ee' event' args'|r'|r' k|stuff k|ee' event' k|ee' event' k|
                   |data timeout token|ce|de]; try discriminate He;
      simpl in He; inversion He; subst; cbn [step].
    + by apply emit_spares.
    + pose proof (set_console_spares
                    (console st ++ ["check cancellation requested for async"]) st
                    (calm_wf _ _ _ C)) as S1.
      eapply spares_trans; [exact S1|]. apply emit_spares; [by eapply spares_calm|done].
    + by apply emit_spares.
  - by apply step_spares_other.
Qed.

Lemma run_spares tr st :
  calm r entries st -> Forall (quiet r entries) tr -> spares r st (run w below tr st).
Proof.
  revert st. induction tr as [|a tr IH]; intros st C H; simpl; [apply spares_refl, C|].
  apply Forall_cons in H as [Ha Htr].
  pose proof (step_spares a st C Ha) as S1.
  eapply spares_trans; [exact S1|]. apply IH; [by eapply spares_calm|done].
Qed.

(** *** The race while [first] attaches *)

Lemma building_calm cs d st : building r entries cs d st -> calm r entries st.
Proof.
  intros [W E A N F K C]. split; [done| |by eapply lookup_lt_Some].
  intros ee event Hk. rewrite A.
  destruct (own cs ee event) as [|f l] eqn:Eo; [done|]. exfalso.
  assert (f ∈ own cs ee event) as Hf by (rewrite Eo; by left).
  apply elem_of_own in Hf as (c & Hc & _ & <- & <-). by apply Hk, K.
Qed.

Lemma building_spares cs d st st' :
  building r entries cs d st -> spares r st st' -> building r entries cs d st'.
Proof.
  intros [W E A N F K C] [[W' E' C' N' R'] L']. split; try done.
  - by rewrite E'.
  - intros ee event. by rewrite L'.
  - intros c Hc. destruct (F c Hc) as (id & Hid & Hlt). exists id. split; [done|lia].
  - by rewrite C'.
Qed.

Lemma attach_events_own ee events cs d st :
  building r entries cs d st ->
  (forall e, e ∈ events -> (ee, e) ∈ combos entries) ->
  exists cs',
    map (fun c => (c_ee c, c_event c)) cs' = map (fun e => (ee, e)) events
    /\ building r entries (cs ++ cs') d (attach_events below r ee events st).
Proof.
  revert cs st. induction events as [|e events IH]; intros cs st B Hev; simpl.
  - exists []. split; [done|]. by rewrite app_nil_r.
  - set (f := Onevent (next_fn st) e r).
    set (c := {| c_ee := ee; c_event := e; c_fn := f |}).
    assert (building r entries cs d (set_next_fn (S (next_fn st)) st)) as B1.
    { eapply building_spares; [done|]. apply set_next_fn_spares; [apply B|lia]. }
    set (st1 := set_next_fn (S (next_fn st)) st) in *.
    pose proof (sound_emit _ _ _ Hbelow ee "newListener" [VString e; fn_value f] st1
                  (building_calm _ _ _ B1) (newListener_unwatched ee)) as S2.
    pose proof (building_spares _ _ _ _ B1 S2) as B2.
    set (st2 := inner_emit below ee "newListener" [VString e; fn_value f] st1) in *.
    assert (f ∉ map c_fn cs) as Hfresh.
    { intros Hin. apply list_elem_of_fmap in Hin as (c0 & Hc0 & Hin).
      destruct (b_fn _ _ _ _ _ B c0 Hin) as (id & Hid & Hlt).
      rewrite Hid in Hc0. unfold f in Hc0. inversion Hc0. lia. }
    assert (building r entries (cs ++ [c]) d (push_cleanup r c (on below ee e f st1))) as B3.
    { rewrite on_eq. fold st2. destruct B2 as [W E A N F K C]. split.
      - assert (wf (add_to_table ee e f st2)) as W2.
        { apply on_wf; [done|]. intros r' Hr'. simpl in Hr'. inversion Hr'; subst.
          by eapply lookup_lt_Some. }
        destruct W2 as [W1 W2 W3 W4]. unfold push_cleanup.
        split; cbn [races set_races promises log].
        + intros ee0 event0 f0 r0 Hin Hr0. rewrite length_alter. by eapply W1.
        + intros r0 env c0 Hl Hc0. rewrite list_lookup_alter in Hl.
          case_decide; [|by eapply W2]. subst r0.
          destruct (races (add_to_table ee e f st2) !! r) as [env'|] eqn:E'; simpl in Hl; [|done].
          inversion Hl; subst env. simpl in Hc0.
          apply elem_of_app in Hc0 as [Hc0|Hc0]; [by eapply W2|].
          apply list_elem_of_singleton in Hc0. by subst.
        + intros r0 env p res Hl Hd. rewrite list_lookup_alter in Hl.
          case_decide; [|by eapply W3]. subst r0.
          destruct (races (add_to_table ee e f st2) !! r) as [env'|] eqn:E'; simpl in Hl; [|done].
          inversion Hl; subst env. simpl in Hd. by eapply W3.
        + intros c0 Hc0. rewrite length_alter. by apply W4.
      - unfold push_cleanup; cbn [races set_races].
        rewrite list_lookup_alter_eq. change (races (add_to_table ee e f st2)) with (races st2).
        by rewrite E.
      - intros ee' event'.
        change (race_listeners r (push_cleanup r c (add_to_table ee e f st2)) ee' event')
          with (race_listeners r (add_to_table ee e f st2) ee' event').
        rewrite race_listeners_on, A, own_app.
        destruct (decide ((ee, e) = (ee', event'))) as [Hk|Hk].
        + inversion Hk; subst ee' event'. rewrite decide_True by done.
          unfold own at 3. rewrite filter_cons_True by done. done.
        + rewrite decide_False by tauto.
          unfold own at 3. rewrite filter_cons_False by (simpl; intros [-> ->]; done).
          simpl. by rewrite app_nil_r.
      - rewrite map_app. apply NoDup_app. split; [done|]. split; [|apply NoDup_singleton].
        intros x Hx Hx'. simpl in Hx'. apply list_elem_of_singleton in Hx'. by subst x.
      - intros c0 Hc0. apply elem_of_app in Hc0 as [Hc0|Hc0].
        + destruct (F c0 Hc0) as (id & Hid & Hlt). by exists id.
        + apply list_elem_of_singleton in Hc0. subst c0. exists (next_fn st).
          split; [done|]. pose proof (k_next _ _ _ (sp_keeps _ _ _ S2)).
          unfold st1 in *. simpl in *. lia.
      - intros c0 Hc0. apply elem_of_app in Hc0 as [Hc0|Hc0]; [by apply K|].
        apply list_elem_of_singleton in Hc0. subst c0. simpl. apply Hev. by left.
      - done. }
    destruct (IH _ _ B3) as (cs' & Hk & B4).
    { intros e' He'. apply Hev. by right. }
    exists (c :: cs'). split; [simpl; by rewrite Hk|].
    rewrite <- app_assoc in B4. exact B4.
Qed.

Lemma attach_entries_own stuff cs d st r0 st' :
  building r entries cs d st ->
  (forall k, k ∈ combos stuff -> k ∈ combos entries) ->
  attach_entries below r stuff st = (Return r0, st') ->
  exists cs',
    map (fun c => (c_ee c, c_event c)) cs' = combos stuff
    /\ building r entries (cs ++ cs') d st'.
Proof.
  revert cs st. induction stuff as [|arr stuff IH]; intros cs st B Hk H; simpl in H.
  - inversion H; subst. exists []. split; [done|]. by rewrite app_nil_r.
  - destruct (negb (isArray arr) || (arr_length arr <? 2)); [discriminate H|].
    destruct arr as [| |ee events]; try discriminate H.
    destruct (attach_events_own ee events cs d st B) as (cs1 & Hk1 & B1).
    { intros e He. apply Hk. unfold combos. simpl. apply elem_of_app. left.
      apply list_elem_of_fmap. by exists e. }
    destruct (IH _ _ B1) as (cs2 & Hk2 & B2); [|exact H|].
    { intros k Hin. apply Hk. unfold combos. simpl. apply elem_of_app. by right. }
    exists (cs1 ++ cs2). split.
    + rewrite map_app, Hk1, Hk2. done.
    + by rewrite app_assoc.
Qed.

Lemma first_own d st r0 st1 :
  wf st -> valid_done d st -> r = length (races st) ->
  first below (Array entries) d st = (Return r0, st1) ->
  exists cs,
    map (fun c => (c_ee c, c_event c)) cs = combos entries
    /\ race_inv r cs d Waiting st1
    /\ rcalls r st1 = [].
Proof.
  intros W Hd Hr H. unfold first in H. rewrite <- Hr in H.
  set (st0 := set_races (races st ++ [{| cleanups := []; done := d |}]) st) in *.
  assert (building r entries [] d st0) as B.
  { split.
    - by apply new_race_wf.
    - unfold st0; cbn [races set_races]. subst r. by apply list_lookup_middle.
    - intros ee event. rewrite own_nil.
      rewrite (race_listeners_same_ev _ st) by done.
      apply race_listeners_fresh; [done|lia].
    - constructor.
    - intros c Hc. by apply elem_of_nil in Hc.
    - intros c Hc. by apply elem_of_nil in Hc.
    - change (rcalls r st0) with (rcalls r st). apply rcalls_fresh; [done|lia]. }
  destruct (attach_entries_own entries [] d st0 r0 st1 B) as (cs & Hk & [W1 E A N F K C]);
    [done|done|].
  exists cs. split; [done|]. split; [|done]. split; [done|done| |done].
  split; [done|]. intros c Hc. destruct (F c Hc) as (id & Hid & _). by exists id.
Qed.

(** *** The life of the race *)

Lemma race_inv_calm cs d ph st :
  race_inv r cs d ph st -> watched entries cs -> calm r entries st.
Proof.
  intros [W E B P] K. split; [done| |by eapply lookup_lt_Some].
  intros ee event Hk. destruct ph; simpl in P; [|apply P]. rewrite P.
  destruct (own cs ee event) as [|f l] eqn:Eo; [done|]. exfalso.
  assert (f ∈ own cs ee event) as Hf by (rewrite Eo; by left).
  apply elem_of_own in Hf as (c & Hc & _ & <- & <-). by apply Hk, K.
Qed.

Lemma race_inv_spares cs d ph st st' :
  race_inv r cs d ph st -> spares r st st' -> race_inv r cs d ph st'.
Proof.
  intros [W E B P] [[W' E' C' N' R'] L']. split; [done|by rewrite E'|done|].
  destruct ph; simpl in *; intros ee event; rewrite L'; apply P.
Qed.

Lemma cleanup_loop_own xs st :
  wf st -> r < length (races st) ->
  (forall c, c ∈ xs -> fn_race (c_fn c) = Some r) ->
  watched entries xs -> NoDup (map c_fn xs) ->
  attached r xs st ->
  detached r (cleanup_loop below xs st) /\ keeps r st (cleanup_loop below xs st).
Proof.
  revert st. induction xs as [|c xs IH]; intros st W Hlt Hr Hw Hnd Hat; simpl.
  - split; [|by apply keeps_refl]. intros ee event. by rewrite Hat.
  - set (st1 := remove_from_table (c_ee c) (c_event c) (c_fn c) st).
    assert (attached r xs st1) as Hat1.
    { intros ee event. unfold st1. rewrite race_listeners_removeListener, Hat, own_cons.
      destruct (decide ((c_ee c, c_event c) = (ee, event))) as [Hk|Hk].
      - rewrite decide_True by (split; [done|apply Hr; by left]).
        rewrite remove_last_head; [done|]. by apply own_not_elem.
      - by rewrite decide_False by tauto. }
    assert (keeps r st st1) as K1.
    { unfold st1. split.
      - by apply removeListener_wf.
      - by rewrite races_removeListener.
      - unfold rcalls. by rewrite log_removeListener.
      - by rewrite next_fn_remove_from_table.
      - by rewrite races_removeListener. }
    assert (watched entries xs) as Hw' by (intros c' Hc'; apply Hw; by right).
    assert (calm r entries st1) as C1.
    { split; [apply K1| |by eapply keeps_exists].
      intros ee event Hk. rewrite Hat1.
      destruct (own xs ee event) as [|f l] eqn:Eo; [done|]. exfalso.
      assert (f ∈ own xs ee event) as Hf by (rewrite Eo; by left).
      apply elem_of_own in Hf as (c' & Hc' & _ & <- & <-). by apply Hk, Hw'. }
    pose proof (removeListener_after (c_ee c) (c_event c) (c_fn c) st C1) as S2.
    fold st1 in S2.
    destruct (IH (removeListener below (c_ee c) (c_event c) (c_fn c) st)) as [D K3].
    + apply S2.
    + eapply keeps_exists; [apply S2|apply C1].
    + intros c' Hc'. apply Hr. by right.
    + done.
    + by inversion Hnd.
    + intros ee event. rewrite (sp_listeners _ _ _ S2). apply Hat1.
    + split; [done|]. eapply keeps_trans; [exact K1|].
      eapply keeps_trans; [apply S2|exact K3].
Qed.

Lemma cleanup_loop_idle xs st :
  (forall c, c ∈ xs -> fn_race (c_fn c) = Some r) ->
  detached r st -> cleanup_loop below xs st = st.
Proof.
  intros Hr Hd. induction xs as [|c xs IH]; simpl; [done|].
  rewrite removeListener_absent'.
  - apply IH. intros c' Hc'. apply Hr. by right.
  - intros Hin.
    assert (c_fn c ∈ race_listeners r st (c_ee c) (c_event c)) as Hin'.
    { apply list_elem_of_filter. split; [apply Hr; by left|done]. }
    rewrite Hd in Hin'. by apply elem_of_nil in Hin'.
Qed.

Lemma cleanup_idle cs d st :
  race_inv r cs d Settled st -> cleanup below r st = st.
Proof.
  intros [W E B P]. unfold cleanup. rewrite E. simpl.
  apply cleanup_loop_idle; [|done]. intros; by eapply built_race.
Qed.

Lemma cleanup_own cs d ph st :
  race_inv r cs d ph st -> watched entries cs ->
  race_inv r cs d Settled (cleanup below r st) /\ keeps r st (cleanup below r st).
Proof.
  intros I K. destruct ph.
  - destruct I as [W E B P]. unfold cleanup. rewrite E. simpl.
    destruct (cleanup_loop_own cs st W) as [D Kp]; try done.
    + by eapply lookup_lt_Some.
    + intros; by eapply built_race.
    + apply B.
    + split; [|done]. split; [apply Kp| |done|done]. by rewrite (k_env _ _ _ Kp).
  - rewrite (cleanup_idle _ _ _ I). split; [done|apply keeps_refl, I].
Qed.

Lemma apply_done_logs cs d ph err ee event args st :
  race_inv r cs d ph st -> watched entries cs ->
  race_inv r cs d ph (apply_done w below r err ee event args st)
  /\ rcalls r (apply_done w below r err ee event args st) =
       rcalls r st ++ [{| call_race := r; call_done := d; call_err := err; call_ee := ee;
                          call_event := event; call_args := args |}].
Proof.
  intros I K. rewrite apply_done_eq, (inv_env _ _ _ _ _ I). cbn [done].
  destruct (apply_done_own r cs d ph err ee event args st I) as [I1 C1].
  destruct d as [k|p res]; [|done].
  pose proof (sound_run _ _ _ Hbelow (callback_body w k) _ (race_inv_calm _ _ _ _ I1 K)
                (proj2 (Hpassive k))) as S2.
  split; [by eapply race_inv_spares|].
  by rewrite (k_calls _ _ _ (sp_keeps _ _ _ S2)).
Qed.

Lemma invoke_settles cs d ph id e this args st :
  race_inv r cs d ph st -> watched entries cs ->
  race_inv r cs d Settled (invoke w below (Onevent id e r) this args st)
  /\ rcalls r (invoke w below (Onevent id e r) this args st) =
       rcalls r st ++ [mkcall r d this e args].
Proof.
  intros I K. simpl. unfold onevent, callback.
  destruct (cleanup_own _ _ _ _ I K) as [I1 K1].
  destruct (apply_done_logs cs d Settled (err_of e args) this e args _ I1 K) as [I2 C].
  split; [exact I2|]. unfold err_of in *. rewrite C. by rewrite (k_calls _ _ _ K1).
Qed.

Lemma dispatch_own cs d ph snapshot this args st :
  race_inv r cs d ph st -> watched entries cs ->
  let mine := filter (fun f => fn_race f = Some r) snapshot in
  race_inv r cs d (phase_after ph mine) (dispatch w below snapshot this args st)
  /\ rcalls r (dispatch w below snapshot this args st) =
       rcalls r st ++ map (call_of r d this args) mine.
Proof.
  intros I K. revert ph st I. induction snapshot as [|f l IH]; intros ph st I; simpl.
  - by rewrite app_nil_r.
  - rewrite filter_cons. destruct (decide (fn_race f = Some r)) as [Hf|Hf].
    + destruct f as [id e r'|k]; [|done]. simpl in Hf. inversion Hf; subst r'.
      destruct (invoke_settles cs d ph id e this args st I K) as [I1 C1].
      destruct (IH Settled _ I1) as [I2 C2]. split.
      * simpl. by destruct (filter _ l).
      * rewrite C2, C1. simpl. by rewrite <- app_assoc.
    + pose proof (invoke_spares f this args st (race_inv_calm _ _ _ _ I K) Hf) as S1.
      destruct (IH ph _ (race_inv_spares _ _ _ _ _ I S1)) as [I2 C2]. split; [done|].
      by rewrite C2, (k_calls _ _ _ (sp_keeps _ _ _ S1)).
Qed.

(** Events, while the race waits and once it has settled. *)
Lemma emit_own cs v ee event args st :
  race_inv r cs (v_done v) (v_phase v) st -> watched entries cs ->
  rcalls r st = v_calls v ->
  let v' := observe r (fun ee event => length (own cs ee event)) v (AEmit ee event args) in
  race_inv r cs (v_done v') (v_phase v') (emit w below ee event args st)
  /\ rcalls r (emit w below ee event args st) = v_calls v'.
Proof.
  intros I K C. unfold emit.
  destruct v as [d ph calls]; cbn [v_done v_phase v_calls] in *.
  destruct (dispatch_own cs d ph (listeners st ee event) ee args st I K) as [I1 C1].
  fold (race_listeners r st ee event) in I1, C1.
  pose proof (inv_phase _ _ _ _ _ I) as P.
  destruct ph; cbn [observe emitted v_done v_phase v_calls in_phase] in *.
  - rewrite (P ee event) in I1, C1.
    rewrite (map_call_of_own r cs d ee args ee event (inv_built _ _ _ _ _ I)) in C1.
    destruct (own cs ee event) as [|f l] eqn:E; simpl in *.
    + split; [done|]. by rewrite C1, app_nil_r.
    + split; [done|]. by rewrite C1, C.
  - rewrite (P ee event) in I1, C1. simpl in *.
    split; [done|]. by rewrite C1, app_nil_r.
Qed.

Lemma step_own cs v a st :
  race_inv r cs (v_done v) (v_phase v) st -> watched entries cs ->
  rcalls r st = v_calls v ->
  let v' := observe r (fun ee event => length (own cs ee event)) v a in
  race_inv r cs (v_done v') (v_phase v') (step w below a st)
  /\ rcalls r (step w below a st) = v_calls v'.
Proof.
  intros I K C. pose proof (race_inv_calm _ _ _ _ I K) as Cm.
  assert (forall a', emitted a' = None -> a' <> ACancel r -> (forall k, a' <> AThunk r k) ->
            race_inv r cs (v_done v) (v_phase v) (step w below a' st)
            /\ rcalls r (step w below a' st) = v_calls v) as Hother.
  { intros a' He Hc Ht. pose proof (step_spares_other a' st Cm He Hc Ht) as S1.
    split; [by eapply race_inv_spares|].
    by rewrite (k_calls _ _ _ (sp_keeps _ _ _ S1)). }
  destruct a as [ee event args|r'|r' k|stuff k|ee event k|ee event k| |data timeout token|ce|de].
  - by apply emit_own.
  - cbn [observe]. destruct (decide (r' = r)) as [->|Hne].
    + cbn [v_done v_phase v_calls step]. unfold cancel.
      destruct (cleanup_own _ _ _ _ I K) as [I1 K1].
      split; [done|]. by rewrite (k_calls _ _ _ K1).
    + apply Hother; [done|congruence|done].
  - cbn [observe]. destruct (decide (r' = r)) as [->|Hne].
    + cbn [v_done v_phase v_calls step]. split; [by eapply thunk_own|done].
    + apply Hother; [done|done|congruence].
  - by apply Hother.
  - by apply Hother.
  - by apply Hother.
  - by apply Hother.
  - by apply Hother.
  - pose proof (set_console_spares
                  (console st ++ ["check cancellation requested for async"]) st
                  (calm_wf _ _ _ Cm)) as S1.
    pose proof (race_inv_spares _ _ _ _ _ I S1) as I0.
    apply (emit_own cs v ce "cancel" [] _ I0 K).
    by rewrite (k_calls _ _ _ (sp_keeps _ _ _ S1)).
  - by apply (emit_own cs v de "done" [] st I K).
Qed.

Lemma run_own cs tr v st :
  race_inv r cs (v_done v) (v_phase v) st -> watched entries cs ->
  rcalls r st = v_calls v ->
  let v' := foldl (observe r (fun ee event => length (own cs ee event))) v tr in
  race_inv r cs (v_done v') (v_phase v') (run w below tr st)
  /\ rcalls r (run w below tr st) = v_calls v'.
Proof.
  intros I K. revert v st I. induction tr as [|a tr IH]; intros v st I C; simpl; [done|].
  destruct (step_own cs v a st I K C) as (I1 & C1).
  by destruct (IH _ _ I1 C1) as (I2 & C2).
Qed.
End level.

(** The calls below spare the race at every depth. *)
Lemma sound_nested depth : sound r entries (nested w depth).
Proof.
  induction depth as [|n IH]; simpl.
  - split; intros; apply spares_refl; by apply calm_wf with r entries.
  - split; cbn [inner_emit inner_run].
    + intros. by apply emit_spares.
    + intros. by apply run_spares.
Qed.
End alone.

(** ** A race from its start *)

Section from_start.
Context (w : world) (depth : nat).

Lemma race_observed entries d st r st1 :
  plain entries -> passive w r entries ->
  wf st -> valid_done d st ->
  first (nested w depth) (Array entries) d st = (Return r, st1) ->
  exists cs,
    map (fun c => (c_ee c, c_event c)) cs = combos entries /\
    race_inv r cs d Waiting st1 /\
    forall tr,
      let v := foldl (observe r (watch_count entries)) (start d) tr in
      race_inv r cs (v_done v) (v_phase v) (run w (nested w depth) tr st1)
      /\ rcalls r (run w (nested w depth) tr st1) = v_calls v.
Proof.
  intros Hp Hw W Hd H. destruct (first_Return_id _ _ _ _ _ _ H) as [Hwf Hr].
  pose proof (sound_nested w r entries Hp Hw depth) as Hs.
  destruct (first_own w r entries Hp Hw _ Hs d st r st1 W Hd Hr H) as (cs & Hk & I & C).
  exists cs. split; [done|]. split; [done|]. intros tr v. unfold v.
  assert (watched entries cs) as K.
  { intros c Hc. rewrite <- Hk. apply list_elem_of_fmap. by exists c. }
  rewrite (foldl_observe_ext _ (watch_count entries)
             (fun ee event => length (own cs ee event))).
  - by apply (run_own w r entries Hp Hw _ Hs cs tr (start d) st1 I K).
  - intros ee event. unfold watch_count. by rewrite own_length, Hk.
Qed.
End from_start.

(** ** Well-formed states *)

Section well_formed.
Context (w : world).
Implicit Types (st : state) (f : fn) (r ee : nat) (event : string).

Lemma grows_refl st : wf st -> grows st st.
Proof. by split. Qed.

Lemma grows_trans st1 st2 st3 : grows st1 st2 -> grows st2 st3 -> grows st1 st3.
Proof. intros [W1 R1] [W2 R2]. split; [done|lia]. Qed.

Section level.
Context (below : inner).
Hypothesis Hbelow : orderly below.

Lemma on_grows ee event f st :
  wf st -> (forall r, fn_race f = Some r -> r < length (races st)) ->
  grows st (on below ee event f st).
Proof.
  intros W Hf. rewrite on_eq.
  destruct (orderly_emit _ Hbelow ee "newListener" [VString event; fn_value f] st W)
    as [W1 R1].
  split; [|done]. apply on_wf; [done|]. intros r Hr. pose proof (Hf r Hr). lia.
Qed.

Lemma removeListener_grows ee event f st :
  wf st -> grows st (removeListener below ee event f st).
Proof.
  intros W. rewrite removeListener_eq.
  pose proof (removeListener_wf ee event f st W) as W1.
  pose proof (races_removeListener ee event f st) as R1.
  destruct (remove_last f (listeners st ee event)).
  - destruct (orderly_emit _ Hbelow ee "removeListener" [VString event; fn_value f] _ W1)
      as [W2 R2].
    split; [done|]. by rewrite R1 in R2.
  - split; [done|]. by rewrite R1.
Qed.

Lemma cleanup_loop_grows xs st : wf st -> grows st (cleanup_loop below xs st).
Proof.
  revert st. induction xs as [|x xs IH]; intros st W; simpl; [by apply grows_refl|].
  pose proof (removeListener_grows (c_ee x) (c_event x) (c_fn x) st W) as G1.
  eapply grows_trans; [exact G1|]. apply IH, G1.
Qed.

Lemma cleanup_grows r st : wf st -> grows st (cleanup below r st).
Proof.
  intros W. unfold cleanup. destruct (races st !! r); [|by apply grows_refl].
  by apply cleanup_loop_grows.
Qed.

Lemma apply_done_grows r err ee event args st :
  wf st -> grows st (apply_done w below r err ee event args st).
Proof.
  intros W. rewrite apply_done_eq.
  pose proof (apply_done_wf r err ee event args st W) as W1.
  pose proof (races_apply_done r err ee event args st) as R1.
  destruct (races st !! r) as [env|]; [|by apply grows_refl].
  destruct (done env) as [k|p res].
  - destruct (orderly_run _ Hbelow (callback_body w k) _ W1) as [W2 R2].
    split; [done|]. by rewrite R1 in R2.
  - split; [done|]. by rewrite R1.
Qed.

Lemma callback_grows r err ee event args st :
  wf st -> grows st (callback w below r err ee event args st).
Proof.
  intros W. unfold callback. pose proof (cleanup_grows r st W) as G1.
  eapply grows_trans; [exact G1|]. apply apply_done_grows, G1.
Qed.

Lemma invoke_grows f this args st : wf st -> grows st (invoke w below f this args st).
Proof.
  intros W. destruct f as [id e r|k]; simpl.
  - by apply callback_grows.
  - by apply (orderly_run _ Hbelow).
Qed.

Lemma dispatch_grows snapshot this args st :
  wf st -> grows st (dispatch w below snapshot this args st).
Proof.
  revert st. induction snapshot as [|f l IH]; intros st W; simpl; [by apply grows_refl|].
  pose proof (invoke_grows f this args st W) as G1.
  eapply grows_trans; [exact G1|]. apply IH, G1.
Qed.

Lemma emit_grows ee event args st : wf st -> grows st (emit w below ee event args st).
Proof. intros W. by apply dispatch_grows. Qed.

Lemma set_next_fn_wf n st : wf st -> wf (set_next_fn n st).
Proof. intros [W1 W2 W3 W4]. by split. Qed.

Lemma push_cleanup_wf r c st :
  wf st -> fn_race (c_fn c) = Some r -> wf (push_cleanup r c st).
Proof.
  intros [W1 W2 W3 W4] Hc. unfold push_cleanup. split; cbn [races set_races promises log].
  - intros ee event f r0 Hin Hr0. rewrite length_alter. by eapply W1.
  - intros r0 env c0 Hl Hc0. rewrite list_lookup_alter in Hl.
    case_decide; [|by eapply W2]. subst r0.
    destruct (races st !! r) as [env'|] eqn:E; simpl in Hl; [|done].
    inversion Hl; subst env. simpl in Hc0.
    apply elem_of_app in Hc0 as [Hc0|Hc0]; [by eapply W2|].
    apply list_elem_of_singleton in Hc0. by subst.
  - intros r0 env p res Hl Hd. rewrite list_lookup_alter in Hl.
    case_decide; [|by eapply W3]. subst r0.
    destruct (races st !! r) as [env'|] eqn:E; simpl in Hl; [|done].
    inversion Hl; subst env. simpl in Hd. by eapply W3.
  - intros c0 Hc0. rewrite length_alter. by apply W4.
Qed.

Lemma attach_events_grows r ee events st :
  wf st -> r < length (races st) -> grows st (attach_events below r ee events st).
Proof.
  revert st. induction events as [|e events IH]; intros st W Hlt; simpl;
    [by apply grows_refl|].
  pose proof (set_next_fn_wf (S (next_fn st)) st W) as W1.
  pose proof (on_grows ee e (Onevent (next_fn st) e r) _ W1) as G2.
  specialize (G2 ltac:(by intros r0 Hr0; simpl in Hr0; inversion Hr0; subst)).
  pose proof (push_cleanup_wf r {| c_ee := ee; c_event := e;
                 c_fn := Onevent (next_fn st) e r |} _ (g_wf _ _ G2) eq_refl) as W3.
  pose proof (g_races _ _ G2) as R2. cbn [races set_next_fn] in R2.
  set (st3 := push_cleanup r _ _) in *.
  assert (grows st st3) as G3.
  { split; [exact W3|]. unfold st3, push_cleanup; cbn [races set_races].
    by rewrite length_alter. }
  eapply grows_trans; [exact G3|]. apply IH; [exact W3|].
  pose proof (g_races _ _ G3). lia.
Qed.

Lemma attach_entries_grows r stuff st :
  wf st -> r < length (races st) -> grows st (snd (attach_entries below r stuff st)).
Proof.
  revert st. induction stuff as [|arr stuff IH]; intros st W Hlt; simpl;
    [by apply grows_refl|].
  destruct (negb (isArray arr) || (arr_length arr <? 2)); [by apply grows_refl|].
  destruct arr as [| |ee events]; try by apply grows_refl.
  pose proof (attach_events_grows r ee events st W Hlt) as G1.
  eapply grows_trans; [exact G1|]. apply IH; [apply G1|].
  pose proof (g_races _ _ G1). lia.
Qed.

Lemma first_grows stuff d st :
  wf st -> valid_done d st -> grows st (snd (first below stuff d st)).
Proof.
  intros W Hd. destruct stuff as [|stuff]; simpl; [by apply grows_refl|].
  pose proof (new_race_wf d st W Hd) as W1.
  eapply grows_trans; [|apply attach_entries_grows; [exact W1|]].
  - split; [done|]. cbn [races set_races]. rewrite length_app. lia.
  - cbn [races set_races]. rewrite length_app. simpl. lia.
Qed.

Lemma check_grows data timeout token st :
  wf st -> grows st (snd (check below data timeout token st)).
Proof.
  intros W. rewrite check_eq.
  destruct (check_setup_fields timeout token st) as (_ & Hr & _ & _ & Hp).
  eapply grows_trans; [|apply first_grows; [by apply check_setup_wf|]].
  - split; [by apply check_setup_wf|]. by rewrite Hr.
  - intros q res Hq. inversion Hq; subst. rewrite Hp, length_app. simpl. lia.
Qed.

Lemma step_grows a st : wf st -> grows st (step w below a st).
Proof.
  intros W.
  destruct a as [ee event args|r'|r' k|stuff k|ee event k|ee event k| |data timeout token|ce|de];
    cbn [step].
  - by apply emit_grows.
  - by apply cleanup_grows.
  - split; [by apply thunk_wf|]. unfold thunk; cbn [races set_races]. by rewrite length_alter.
  - apply first_grows; [done|]. intros q res Hq. discriminate Hq.
  - by apply on_grows.
  - by apply removeListener_grows.
  - split; [by apply set_next_ee_wf|done].
  - by apply check_grows.
  - eapply grows_trans; [|apply emit_grows; by apply set_console_wf]. split; [|done].
    by apply set_console_wf.
  - by apply emit_grows.
Qed.

Lemma run_grows tr st : wf st -> grows st (run w below tr st).
Proof.
  revert st. induction tr as [|a tr IH]; intros st W; simpl; [by apply grows_refl|].
  pose proof (step_grows a st W) as G1.
  eapply grows_trans; [exact G1|]. apply IH, G1.
Qed.
End level.

Lemma orderly_nested depth : orderly (nested w depth).
Proof.
  induction depth as [|n IH]; simpl.
  - split; intros; by apply grows_refl.
  - split; cbn [inner_emit inner_run]; intros.
    + by apply emit_grows.
    + by apply run_grows.
Qed.

(** Every run from a well-formed state, the initial one for instance, ends
    in a well-formed state. *)
Lemma run_wf_nested depth tr st : wf st -> wf (run w (nested w depth) tr st).
Proof. intros W. apply run_grows; [apply orderly_nested|done]. Qed.
End well_formed.

(** ** What every run keeps of a race

    Whatever listeners and callbacks of other code do, and whatever events
    a race watches: once [first] has pushed a listener to [cleanups], the
    listener can only be removed, a completed [cleanup] has removed them
    all, and every call of the completion callback is made by [callback]
    after its [cleanup]. *)

Section lists.
Implicit Types (f x : fn) (l : list fn).

Lemma remove_last_sublist f l l' : remove_last f l = Some l' -> l' `sublist_of` l.
Proof.
  revert l'. induction l as [|x l IH]; intros l' H; simpl in H; [done|].
  destruct (remove_last f l) as [l''|] eqn:E.
  - inversion H; subst. apply sublist_skip. by apply IH.
  - case_decide; [|done]. inversion H; subst. by apply sublist_cons.
Qed.

Lemma remove_last_NoDup f l l' : NoDup l -> remove_last f l = Some l' -> f ∉ l'.
Proof.
  revert l'. induction l as [|x l IH]; intros l' Hnd H; simpl in H; [done|].
  apply NoDup_cons in Hnd as [Hx Hl].
  destruct (remove_last f l) as [l''|] eqn:E.
  - inversion H; subst. apply not_elem_of_cons. split; [|by apply IH].
    intros ->. apply Hx. destruct (decide (x ∈ l)) as [|Hn]; [done|].
    apply remove_last_None in Hn. congruence.
  - case_decide; [|done]. inversion H; subst. done.
Qed.

Lemma own_NoDup cs ee event : NoDup (map c_fn cs) -> NoDup (own cs ee event).
Proof.
  intros H. unfold own. eapply sublist_NoDup; [exact H|].
  apply fmap_sublist, sublist_filter.
Qed.
End lists.

Section general.
Context (w : world) (r : nat).
Implicit Types (st : state) (f : fn) (ee : nat) (event : string)
  (cs : list cleanup_entry) (d : donefn).

Lemma shrinks_refl st : shrinks r st st.
Proof.
  split; try done. exists []. rewrite app_nil_r. split; [done|]. split; [done|by left].
Qed.

Lemma detached_shrinks st st' : detached r st -> shrinks r st st' -> detached r st'.
Proof.
  intros D S ee event. pose proof (sh_listeners _ _ _ S ee event) as H.
  rewrite D in H. by apply sublist_nil_r in H.
Qed.

Lemma shrinks_trans st1 st2 st3 : shrinks r st1 st2 -> shrinks r st2 st3 -> shrinks r st1 st3.
Proof.
  intros S1 S2. pose proof (detached_shrinks st2 st3) as HD.
  destruct S1 as [E1 L1 (l1 & G1 & O1 & D1) N1 R1].
  destruct S2 as [E2 L2 (l2 & G2 & O2 & D2) N2 R2]. split; [by rewrite E2| | |lia|lia].
  - intros ee event. etrans; [apply L2|apply L1].
  - exists (l1 ++ l2). split; [by rewrite G2, G1, app_assoc|].
    split; [by apply Forall_app|]. rewrite filter_app.
    destruct D2 as [D2|D2]; [|by right]. rewrite D2, app_nil_r.
    destruct D1 as [D1|D1]; [by left|]. right. apply HD; [done|].
    split; [done|done| |done|done]. exists l2. split; [done|]. split; [done|by left].
Qed.

Lemma shrinks_held cs st st' : held r cs st -> shrinks r st st' -> held r cs st'.
Proof.
  intros [[d E] L] S. split.
  - pose proof (sh_env _ _ _ S) as He. rewrite E in He. simpl in He.
    destruct (races st' !! r) as [[cs' d']|]; simpl in He; [|done].
    inversion He; subst. by exists d'.
  - intros ee event. etrans; [apply S|apply L].
Qed.

Lemma held_lt cs st : held r cs st -> r < length (races st).
Proof. intros [[d E] _]. by eapply lookup_lt_Some. Qed.

(** A step which leaves the log and the listeners of the race as they
    are. *)
Lemma shrinks_same st st' :
  cleanups <$> races st' !! r = cleanups <$> races st !! r ->
  (forall ee event, race_listeners r st' ee event = race_listeners r st ee event) ->
  log st' = log st -> next_fn st <= next_fn st' ->
  length (races st) <= length (races st') -> shrinks r st st'.
Proof.
  intros E L G N R. split; [done| | |done|done].
  - intros ee event. by rewrite L.
  - exists []. rewrite app_nil_r. split; [done|]. split; [done|by left].
Qed.

Lemma add_to_table_shrinks ee event f st :
  fn_race f <> Some r -> shrinks r st (add_to_table ee event f st).
Proof.
  intros Hf. apply shrinks_same; try done.
  intros ee' event'. rewrite race_listeners_on. by rewrite decide_False by tauto.
Qed.

Lemma remove_from_table_shrinks ee event f st :
  shrinks r st (remove_from_table ee event f st).
Proof.
  split.
  - by rewrite races_removeListener.
  - intros ee' event'. rewrite race_listeners_removeListener. case_decide; [|done].
    destruct (remove_last f (race_listeners r st ee' event')) as [l'|] eqn:E; simpl; [|done].
    by eapply remove_last_sublist.
  - exists []. rewrite app_nil_r, log_removeListener. split; [done|]. split; [done|by left].
  - by rewrite next_fn_remove_from_table.
  - by rewrite races_removeListener.
Qed.

Section level.
Context (cs : list cleanup_entry) (below : inner).
Hypothesis Hbuilt : race_built r cs.
Hypothesis Hbelow : general r cs below.

Lemma on_shrinks ee event f st :
  held r cs st -> fn_race f <> Some r -> shrinks r st (on below ee event f st).
Proof.
  intros H Hf. rewrite on_eq. eapply shrinks_trans; [by apply (general_emit _ _ _ Hbelow)|].
  by apply add_to_table_shrinks.
Qed.

Lemma removeListener_after' ee event f st :
  held r cs st ->
  shrinks r (remove_from_table ee event f st) (removeListener below ee event f st).
Proof.
  intros H. rewrite removeListener_eq.
  destruct (remove_last f (listeners st ee event)); [|apply shrinks_refl].
  apply (general_emit _ _ _ Hbelow). eapply shrinks_held; [done|].
  apply remove_from_table_shrinks.
Qed.

Lemma removeListener_shrinks ee event f st :
  held r cs st -> shrinks r st (removeListener below ee event f st).
Proof.
  intros H. eapply shrinks_trans; [apply remove_from_table_shrinks|].
  by apply removeListener_after'.
Qed.

Lemma cleanup_loop_shrinks xs st :
  held r cs st -> shrinks r st (cleanup_loop below xs st).
Proof.
  revert st. induction xs as [|x xs IH]; intros st H; simpl; [apply shrinks_refl|].
  pose proof (removeListener_shrinks (c_ee x) (c_event x) (c_fn x) st H) as S1.
  eapply shrinks_trans; [exact S1|]. apply IH. by eapply shrinks_held.
Qed.

Lemma cleanup_shrinks r' st : held r cs st -> shrinks r st (cleanup below r' st).
Proof.
  intros H. unfold cleanup. destruct (races st !! r'); [|apply shrinks_refl].
  by apply cleanup_loop_shrinks.
Qed.

Lemma held_NoDup st ee event : held r cs st -> NoDup (race_listeners r st ee event).
Proof.
  intros H. eapply sublist_NoDup; [|apply H]. apply own_NoDup, Hbuilt.
Qed.

(** [removeListener] leaves no instance of a listener of the race. *)
Lemma removeListener_removes ee event f st :
  held r cs st -> fn_race f = Some r ->
  f ∉ race_listeners r (removeListener below ee event f st) ee event.
Proof.
  intros H Hf Hin.
  pose proof (removeListener_after' ee event f st H) as S2.
  pose proof (elem_of_sublist _ _ _ Hin (sh_listeners _ _ _ S2 ee event)) as Hin1.
  rewrite race_listeners_removeListener in Hin1. rewrite decide_True in Hin1 by done.
  pose proof (held_NoDup st ee event H) as Hnd.
  destruct (remove_last f (race_listeners r st ee event)) as [l'|] eqn:E; simpl in Hin1.
  - by apply (remove_last_NoDup _ _ _ Hnd E).
  - by apply remove_last_None in E.
Qed.

Lemma cleanup_loop_removes xs st c :
  held r cs st -> (forall c', c' ∈ xs -> c' ∈ cs) -> c ∈ xs ->
  c_fn c ∉ race_listeners r (cleanup_loop below xs st) (c_ee c) (c_event c).
Proof.
  revert st. induction xs as [|x xs IH]; intros st H Hsub Hc; simpl.
  - by apply elem_of_nil in Hc.
  - pose proof (removeListener_shrinks (c_ee x) (c_event x) (c_fn x) st H) as S1.
    pose proof (shrinks_held _ _ _ H S1) as H1.
    apply elem_of_cons in Hc as [->|Hc].
    + intros Hin.
      pose proof (cleanup_loop_shrinks xs _ H1) as S2.
      pose proof (elem_of_sublist _ _ _ Hin (sh_listeners _ _ _ S2 _ _)) as Hin1.
      revert Hin1. apply removeListener_removes; [done|].
      eapply built_race; [exact Hbuilt|]. apply Hsub. by left.
    + apply IH; [done| |done]. intros c' Hc'. apply Hsub. by right.
Qed.

(** A completed [cleanup] has removed every listener of the race. *)
Lemma cleanup_detaches st : held r cs st -> detached r (cleanup below r st).
Proof.
  intros H ee event. destruct (held_env _ _ _ H) as [d E].
  unfold cleanup. rewrite E. simpl.
  destruct (race_listeners r (cleanup_loop below cs st) ee event) as [|f l] eqn:El; [done|].
  exfalso.
  assert (f ∈ race_listeners r (cleanup_loop below cs st) ee event) as Hin
    by (rewrite El; by left).
  pose proof (shrinks_held _ _ _ H (cleanup_loop_shrinks cs st H)) as H1.
  pose proof (elem_of_sublist _ _ _ Hin (held_listeners _ _ _ H1 ee event)) as Hown.
  apply elem_of_own in Hown as (c & Hc & Hf & <- & <-). subst f.
  revert Hin. by apply cleanup_loop_removes.
Qed.

Lemma record_call_shrinks r' this e args st :
  (r' = r -> detached r st) ->
  shrinks r st (record_call r' (err_of e args) this e args st).
Proof.
  intros Hd. split.
  - by rewrite races_apply_done.
  - intros ee event. by rewrite (race_listeners_same_ev _ st) by apply ev_apply_done.
  - rewrite log_apply_done. destruct (races st !! r') as [env|].
    + eexists. split; [done|]. split; [by repeat constructor|].
      simpl. destruct (decide (r' = r)) as [Hr|Hr].
      * right. intros ee event.
        rewrite (race_listeners_same_ev _ st) by apply ev_apply_done. by apply Hd.
      * left. by rewrite filter_cons_False, filter_nil.
    + exists []. rewrite app_nil_r. split; [done|]. split; [done|by left].
  - by rewrite next_fn_record_call.
  - by rewrite races_apply_done.
Qed.

Lemma apply_done_shrinks r' this e args st :
  held r cs st -> (r' = r -> detached r st) ->
  shrinks r st (apply_done w below r' (err_of e args) this e args st).
Proof.
  intros H Hd. rewrite apply_done_eq.
  pose proof (record_call_shrinks r' this e args st Hd) as S1.
  destruct (races st !! r') as [env|]; [|apply shrinks_refl].
  destruct (done env) as [k|p res]; [|done].
  eapply shrinks_trans; [exact S1|].
  apply (general_run _ _ _ Hbelow). by eapply shrinks_held.
Qed.

Lemma callback_shrinks r' this e args st :
  held r cs st ->
  shrinks r st (callback w below r' (err_of e args) this e args st)
  /\ (r' = r -> detached r (callback w below r' (err_of e args) this e args st)).
Proof.
  intros H. unfold callback.
  pose proof (cleanup_shrinks r' st H) as S1.
  pose proof (shrinks_held _ _ _ H S1) as H1.
  assert (r' = r -> detached r (cleanup below r' st)) as Hd
    by (intros ->; by apply cleanup_detaches).
  pose proof (apply_done_shrinks r' this e args _ H1 Hd) as S2.
  split; [by eapply shrinks_trans|].
  intros Hr. eapply detached_shrinks; [by apply Hd|done].
Qed.

Lemma invoke_shrinks f this args st :
  held r cs st ->
  shrinks r st (invoke w below f this args st)
  /\ (fn_race f = Some r -> detached r (invoke w below f this args st)).
Proof.
  intros H. destruct f as [id e r'|k]; simpl.
  - destruct (callback_shrinks r' this e args st H) as [S D]. split; [done|].
    intros Hr. apply D. by inversion Hr.
  - split; [by apply (general_run _ _ _ Hbelow)|done].
Qed.

Lemma dispatch_shrinks snapshot this args st :
  held r cs st ->
  shrinks r st (dispatch w below snapshot this args st)
  /\ (forall f, f ∈ snapshot -> fn_race f = Some r ->
        detached r (dispatch w below snapshot this args st)).
Proof.
  revert st. induction snapshot as [|f0 l IH]; intros st H; simpl.
  - split; [apply shrinks_refl|]. intros f Hf. by apply elem_of_nil in Hf.
  - destruct (invoke_shrinks f0 this args st H) as [S1 D1].
    destruct (IH _ (shrinks_held _ _ _ H S1)) as [S2 D2].
    split; [by eapply shrinks_trans|].
    intros f Hf Hr. apply elem_of_cons in Hf as [->|Hf]; [|by eapply D2].
    eapply detached_shrinks; [by apply D1|done].
Qed.

Lemma emit_shrinks ee event args st :
  held r cs st -> shrinks r st (emit w below ee event args st).
Proof. intros H. by apply dispatch_shrinks. Qed.

(** A listener of the race which is called ends in a call of the completion
    callback for its event. *)
Lemma rcalls_shrinks st st' :
  shrinks r st st' -> exists l, rcalls r st' = rcalls r st ++ l.
Proof.
  intros S. destruct (sh_log _ _ _ S) as (l & G & _). unfold rcalls.
  rewrite G, filter_app. eauto.
Qed.

Lemma shrinks_adds st st1 st' c :
  shrinks r st st1 -> adds r st1 st' c -> adds r st st' c.
Proof.
  intros S (l & G & Hc). destruct (rcalls_shrinks _ _ S) as [l0 G0].
  exists (l0 ++ l). rewrite G, G0, app_assoc. split; [done|]. apply elem_of_app. by right.
Qed.

Lemma adds_shrinks st st1 st' c :
  adds r st st1 c -> shrinks r st1 st' -> adds r st st' c.
Proof.
  intros (l & G & Hc) S. destruct (rcalls_shrinks _ _ S) as [l0 G0].
  exists (l ++ l0). rewrite G0, G, app_assoc. split; [done|]. apply elem_of_app. by left.
Qed.

Lemma invoke_logs id e this args st :
  held r cs st ->
  exists d, adds r st (invoke w below (Onevent id e r) this args st) (mkcall r d this e args).
Proof.
  intros H. simpl. unfold onevent, callback.
  pose proof (cleanup_shrinks r st H) as S1.
  pose proof (shrinks_held _ _ _ H S1) as H1.
  destruct (held_env _ _ _ H1) as [d E]. exists d.
  eapply shrinks_adds; [exact S1|].
  set (st1 := cleanup below r st) in *.
  assert (adds r st1 (record_call r (err_of e args) this e args st1) (mkcall r d this e args))
    as Hin.
  { exists [mkcall r d this e args]. split; [|by left].
    unfold rcalls. rewrite log_apply_done, E. simpl. rewrite filter_app.
    by rewrite filter_cons_True, filter_nil. }
  change (if decide (e = "error") then nth 0 args VUndefined else VNull)
    with (err_of e args).
  rewrite apply_done_eq, E. simpl. destruct d as [k|p res]; [|done].
  eapply adds_shrinks; [exact Hin|]. apply (general_run _ _ _ Hbelow).
  eapply shrinks_held; [exact H1|]. apply record_call_shrinks. intros _.
  by apply cleanup_detaches.
Qed.

Lemma dispatch_logs snapshot id e this args st :
  held r cs st -> Onevent id e r ∈ snapshot ->
  exists d, adds r st (dispatch w below snapshot this args st) (mkcall r d this e args).
Proof.
  revert st. induction snapshot as [|f0 l IH]; intros st H Hin; simpl.
  - by apply elem_of_nil in Hin.
  - destruct (invoke_shrinks f0 this args st H) as [S1 _].
    pose proof (shrinks_held _ _ _ H S1) as H1.
    apply elem_of_cons in Hin as [<-|Hin].
    + destruct (invoke_logs id e this args st H) as [d Hd]. exists d.
      eapply adds_shrinks; [exact Hd|]. by apply dispatch_shrinks.
    + destruct (IH _ H1 Hin) as [d Hd]. exists d. by eapply shrinks_adds.
Qed.

Lemma set_next_fn_shrinks n st : next_fn st <= n -> shrinks r st (set_next_fn n st).
Proof. intros. by apply shrinks_same. Qed.

Lemma push_cleanup_shrinks r' c st : r' <> r -> shrinks r st (push_cleanup r' c st).
Proof.
  intros Hne. apply shrinks_same; try done; unfold push_cleanup; cbn [races set_races].
  - by rewrite list_lookup_alter_ne.
  - by rewrite length_alter.
Qed.

Lemma attach_events_shrinks r' ee events st :
  held r cs st -> r' <> r -> shrinks r st (attach_events below r' ee events st).
Proof.
  revert st. induction events as [|e events IH]; intros st H Hne; simpl;
    [apply shrinks_refl|].
  pose proof (set_next_fn_shrinks (S (next_fn st)) st ltac:(lia)) as S1.
  pose proof (shrinks_held _ _ _ H S1) as H1.
  assert (fn_race (Onevent (next_fn st) e r') <> Some r) as Hf by (simpl; congruence).
  pose proof (on_shrinks ee e (Onevent (next_fn st) e r') _ H1 Hf) as S2.
  pose proof (shrinks_held _ _ _ H1 S2) as H2.
  pose proof (push_cleanup_shrinks r' {| c_ee := ee; c_event := e;
                 c_fn := Onevent (next_fn st) e r' |} (on below ee e (Onevent (next_fn st) e r')
                   (set_next_fn (S (next_fn st)) st)) Hne) as S3.
  pose proof (shrinks_held _ _ _ H2 S3) as H3.
  eapply shrinks_trans; [exact S1|]. eapply shrinks_trans; [exact S2|].
  eapply shrinks_trans; [exact S3|]. by apply IH.
Qed.

Lemma attach_entries_shrinks r' stuff st :
  held r cs st -> r' <> r -> shrinks r st (snd (attach_entries below r' stuff st)).
Proof.
  revert st. induction stuff as [|arr stuff IH]; intros st H Hne; simpl;
    [apply shrinks_refl|].
  destruct (negb (isArray arr) || (arr_length arr <? 2)); [apply shrinks_refl|].
  destruct arr as [| |ee events]; try apply shrinks_refl.
  pose proof (attach_events_shrinks r' ee events st H Hne) as S1.
  eapply shrinks_trans; [exact S1|]. apply IH; [by eapply shrinks_held|done].
Qed.

Lemma new_race_shrinks d st :
  r < length (races st) ->
  shrinks r st (set_races (races st ++ [{| cleanups := []; done := d |}]) st).
Proof.
  intros Hlt. apply shrinks_same; try done; cbn [races set_races].
  - by rewrite lookup_app_l.
  - rewrite length_app. lia.
Qed.

Lemma first_shrinks stuff d st :
  held r cs st -> shrinks r st (snd (first below stuff d st)).
Proof.
  intros H. destruct stuff as [|stuff]; simpl; [apply shrinks_refl|].
  pose proof (held_lt _ _ H) as Hlt.
  pose proof (new_race_shrinks d st Hlt) as S1.
  eapply shrinks_trans; [exact S1|].
  apply attach_entries_shrinks; [by eapply shrinks_held|lia].
Qed.

Lemma check_shrinks data timeout token st :
  held r cs st -> shrinks r st (snd (check below data timeout token st)).
Proof.
  intros H. rewrite check_eq.
  destruct (check_setup_fields timeout token st) as (Hev & Hr & Hn & Hl & Hp).
  assert (shrinks r st (check_setup timeout token st)) as S1.
  { apply shrinks_same.
    - by rewrite Hr.
    - intros ee event. by apply race_listeners_same_ev.
    - done.
    - by rewrite Hn.
    - by rewrite Hr. }
  eapply shrinks_trans; [exact S1|]. apply first_shrinks. by eapply shrinks_held.
Qed.

Lemma thunk_shrinks r' d st : shrinks r st (thunk r' d st).
Proof.
  apply shrinks_same; try done; unfold thunk; cbn [races set_races].
  - rewrite list_lookup_alter. case_decide; [|done]. subst.
    by destruct (races st !! r).
  - by rewrite length_alter.
Qed.

Lemma step_shrinks a st : held r cs st -> shrinks r st (step w below a st).
Proof.
  intros H.
  destruct a as [ee event args|r'|r' k|stuff k|ee event k|ee event k| |data timeout token|ce|de];
    cbn [step].
  - by apply emit_shrinks.
  - by apply cleanup_shrinks.
  - apply thunk_shrinks.
  - by apply first_shrinks.
  - by apply on_shrinks.
  - by apply removeListener_shrinks.
  - by apply shrinks_same.
  - by apply check_shrinks.
  - assert (shrinks r st (set_console
              (console st ++ ["check cancellation requested for async"]) st)) as S1
      by (by apply shrinks_same).
    eapply shrinks_trans; [exact S1|]. apply emit_shrinks. by eapply shrinks_held.
  - by apply emit_shrinks.
Qed.

Lemma run_shrinks tr st : held r cs st -> shrinks r st (run w below tr st).
Proof.
  revert st. induction tr as [|a tr IH]; intros st H; simpl; [apply shrinks_refl|].
  pose proof (step_shrinks a st H) as S1.
  eapply shrinks_trans; [exact S1|]. apply IH. by eapply shrinks_held.
Qed.
End level.

Lemma general_nested cs depth : race_built r cs -> general r cs (nested w depth).
Proof.
  intros B. induction depth as [|n IH]; simpl.
  - split; intros; apply shrinks_refl.
  - split; cbn [inner_emit inner_run].
    + intros. by eapply emit_shrinks.
    + intros. by eapply run_shrinks.
Qed.
End general.

(** *** From the call of [first] on *)

Section from_first.
Context (w : world) (r : nat) (below : inner).
Hypothesis Hgen : forall cs, race_built r cs -> general r cs below.
Implicit Types (st : state) (f : fn) (ee : nat) (event : string)
  (cs : list cleanup_entry) (d : donefn).

Lemma holding_built cs st : holding r cs st -> race_built r cs.
Proof.
  intros [H N F C]. split; [done|]. intros c Hc.
  destruct (F c Hc) as (id & Hid & _). by exists id.
Qed.

Lemma holding_shrinks cs st st' : holding r cs st -> shrinks r st st' -> holding r cs st'.
Proof.
  intros [H N F C] S. split; [by eapply shrinks_held|done| |].
  - intros c Hc. destruct (F c Hc) as (id & Hid & Hlt). exists id. split; [done|].
    pose proof (sh_next _ _ _ S). lia.
  - destruct (sh_log _ _ _ S) as (l & G & O & _). unfold rcalls in *.
    rewrite G, filter_app. apply Forall_app. split; [done|].
    apply Forall_forall. intros c Hc. apply list_elem_of_filter in Hc as [_ Hc].
    by eapply Forall_forall in O.
Qed.

Lemma attach_events_holding ee events cs st :
  holding r cs st ->
  exists cs',
    map (fun c => (c_ee c, c_event c)) cs' = map (fun e => (ee, e)) events
    /\ holding r (cs ++ cs') (attach_events below r ee events st).
Proof.
  revert cs st. induction events as [|e events IH]; intros cs st B; simpl.
  - exists []. split; [done|]. by rewrite app_nil_r.
  - set (f := Onevent (next_fn st) e r).
    set (c := {| c_ee := ee; c_event := e; c_fn := f |}).
    assert (holding r cs (set_next_fn (S (next_fn st)) st)) as B1.
    { eapply holding_shrinks; [done|]. apply set_next_fn_shrinks. lia. }
    set (st1 := set_next_fn (S (next_fn st)) st) in *.
    pose proof (general_emit _ _ _ (Hgen cs (holding_built _ _ B)) ee "newListener"
                  [VString e; fn_value f] st1 (hd_held _ _ _ B1)) as S2.
    pose proof (holding_shrinks _ _ _ B1 S2) as B2.
    set (st2 := inner_emit below ee "newListener" [VString e; fn_value f] st1) in *.
    assert (f ∉ map c_fn cs) as Hfresh.
    { intros Hin. apply list_elem_of_fmap in Hin as (c0 & Hc0 & Hin).
      destruct (hd_fn _ _ _ B c0 Hin) as (id & Hid & Hlt).
      rewrite Hid in Hc0. unfold f in Hc0. inversion Hc0. lia. }
    assert (holding r (cs ++ [c]) (push_cleanup r c (on below ee e f st1))) as B3.
    { rewrite on_eq. fold st2. destruct B2 as [[[d0 E] L] N F C]. split.
      - split.
        + exists d0. unfold push_cleanup; cbn [races set_races].
          rewrite list_lookup_alter_eq.
          change (races (add_to_table ee e f st2)) with (races st2). by rewrite E.
        + intros ee' event'.
          change (race_listeners r (push_cleanup r c (add_to_table ee e f st2)) ee' event')
            with (race_listeners r (add_to_table ee e f st2) ee' event').
          rewrite race_listeners_on, own_app.
          destruct (decide ((ee, e) = (ee', event'))) as [Hk|Hk].
          * inversion Hk; subst ee' event'. rewrite decide_True by done.
            unfold own at 2. rewrite filter_cons_True by done. simpl.
            by apply sublist_app.
          * rewrite decide_False by tauto.
            unfold own at 2. rewrite filter_cons_False by (simpl; intros [-> ->]; done).
            simpl. by rewrite app_nil_r.
      - rewrite map_app. apply NoDup_app. split; [done|]. split; [|apply NoDup_singleton].
        intros x Hx Hx'. simpl in Hx'. apply list_elem_of_singleton in Hx'. by subst x.
      - intros c0 Hc0. apply elem_of_app in Hc0 as [Hc0|Hc0].
        + destruct (F c0 Hc0) as (id & Hid & Hlt). by exists id.
        + apply list_elem_of_singleton in Hc0. subst c0. exists (next_fn st).
          split; [done|]. pose proof (sh_next _ _ _ S2).
          unfold st1 in *. simpl in *. lia.
      - done. }
    destruct (IH _ _ B3) as (cs' & Hk & B4).
    exists (c :: cs'). split; [simpl; by rewrite Hk|].
    rewrite <- app_assoc in B4. exact B4.
Qed.

Lemma attach_entries_holding stuff cs st r0 st' :
  holding r cs st ->
  attach_entries below r stuff st = (Return r0, st') ->
  exists cs',
    map (fun c => (c_ee c, c_event c)) cs' = combos stuff
    /\ holding r (cs ++ cs') st'.
Proof.
  revert cs st. induction stuff as [|arr stuff IH]; intros cs st B H; simpl in H.
  - inversion H; subst. exists []. split; [done|]. by rewrite app_nil_r.
  - destruct (negb (isArray arr) || (arr_length arr <? 2)); [discriminate H|].
    destruct arr as [| |ee events]; try discriminate H.
    destruct (attach_events_holding ee events cs st B) as (cs1 & Hk1 & B1).
    destruct (IH _ _ B1 H) as (cs2 & Hk2 & B2).
    exists (cs1 ++ cs2). split.
    + rewrite map_app, Hk1, Hk2. done.
    + by rewrite app_assoc.
Qed.

Lemma first_holding entries d st r0 st1 :
  wf st -> r = length (races st) ->
  first below (Array entries) d st = (Return r0, st1) ->
  exists cs,
    map (fun c => (c_ee c, c_event c)) cs = combos entries /\ holding r cs st1.
Proof.
  intros W Hr H. unfold first in H. rewrite <- Hr in H.
  set (st0 := set_races (races st ++ [{| cleanups := []; done := d |}]) st) in *.
  assert (holding r [] st0) as B.
  { split.
    - split.
      + exists d. unfold st0; cbn [races set_races]. subst r. by apply list_lookup_middle.
      + intros ee event. rewrite (race_listeners_same_ev _ st) by done.
        rewrite race_listeners_fresh; [done|done|lia].
    - constructor.
    - intros c Hc. by apply elem_of_nil in Hc.
    - change (rcalls r st0) with (rcalls r st). rewrite rcalls_fresh; [done|done|lia]. }
  by destruct (attach_entries_holding entries [] st0 r0 st1 B H) as (cs & Hk & B1); eauto.
Qed.
End from_first.

Section every_run.
Context (w : world) (depth : nat).
Implicit Types (st : state) (r : nat) (entries : list entry) (d : donefn)
  (tr : list action).

Lemma first_holds entries d st r st1 :
  wf st -> first (nested w depth) (Array entries) d st = (Return r, st1) ->
  exists cs,
    map (fun c => (c_ee c, c_event c)) cs = combos entries /\ holding r cs st1.
Proof.
  intros W H. destruct (first_Return_id _ _ _ _ _ _ H) as [_ Hr].
  apply (first_holding r (nested w depth)
           (fun cs B => general_nested w r cs depth B) entries d st r st1 W Hr H).
Qed.

Lemma run_holds r cs tr st :
  holding r cs st ->
  holding r cs (run w (nested w depth) tr st)
  /\ shrinks r st (run w (nested w depth) tr st).
Proof.
  intros B.
  assert (shrinks r st (run w (nested w depth) tr st)) as S.
  { apply (run_shrinks w r cs (nested w depth)); [by eapply holding_built| |apply B].
    apply general_nested. by eapply holding_built. }
  split; [by eapply holding_shrinks|done].
Qed.

Lemma run_app tr1 tr2 st :
  run w (nested w depth) (tr1 ++ tr2) st =
    run w (nested w depth) tr2 (run w (nested w depth) tr1 st).
Proof. revert st. induction tr1 as [|a tr1 IH]; intros st; simpl; [done|]. by rewrite IH. Qed.

(** After an action which cancels the race or delivers an event to one of
    its listeners, no listener of the race is registered. *)
Lemma step_detaches r cs a st :
  holding r cs st ->
  (a = ACancel r \/
   exists ee event args, emitted a = Some (ee, event, args)
                         /\ race_listeners r st ee event <> []) ->
  detached r (step w (nested w depth) a st).
Proof.
  intros B Ha. pose proof (holding_built _ _ _ B) as Hb.
  pose proof (general_nested w r cs depth Hb) as Hg.
  pose proof (hd_held _ _ _ B) as H.
  assert (forall ee event args st',
            held r cs st' -> race_listeners r st' ee event <> [] ->
            detached r (emit w (nested w depth) ee event args st')) as Hemit.
  { intros ee event args st' H' Hl. unfold emit.
    destruct (race_listeners r st' ee event) as [|f l] eqn:E; [done|].
    assert (f ∈ race_listeners r st' ee event) as Hf by (rewrite E; by left).
    apply list_elem_of_filter in Hf as [Hf1 Hf2].
    by apply (proj2 (dispatch_shrinks w r cs _ Hb Hg (listeners st' ee event) ee args st' H')
                f Hf2 Hf1). }
  destruct Ha as [->|(ee & event & args & He & Hl)].
  - cbn [step]. unfold cancel. by apply (cleanup_detaches r cs _ Hb Hg).
  - destruct a as [ee' event' args'|r'|r' k|stuff k|ee' event' k|ee' event' k|
                   |data timeout token|ce|de]; try discriminate He;
      simpl in He; inversion He; subst; cbn [step].
    + by apply Hemit.
    + apply Hemit; [|done]. eapply shrinks_held; [exact H|]. by apply shrinks_same.
    + by apply Hemit.
Qed.
End every_run.

(** ** Reading traces: the calls of a settled race *)

Section reading.
Context (r : nat) (entries : list entry).
Implicit Types (v : view) (a : action) (tr : list action).

Local Abbreviation obs := (observe r (watch_count entries)).

Lemma watch_count_elem_of ee event n :
  watch_count entries ee event = S n -> (ee, event) ∈ combos entries.
Proof.
  intros H. destruct (decide ((ee, event) ∈ combos entries)) as [|Hn]; [done|].
  rewrite (watch_count_zero _ _ _ Hn) in H. discriminate H.
Qed.

Lemma foldl_observe_one_winner v tr :
  (v_phase v = Waiting /\ v_calls v = [])
  \/ (v_phase v = Settled /\ one_winner r entries (v_calls v)) ->
  one_winner r entries (v_calls (foldl obs v tr)).
Proof.
  revert v. induction tr as [|a tr IH]; intros v Hv; simpl.
  - destruct Hv as [[_ ->]|[_ ?]]; [by left|done].
  - apply IH. destruct Hv as [[Hw Hc]|[Hs Hc]].
    + destruct (emitted a) as [[[ee event] args]|] eqn:He.
      * rewrite (observe_emitted r entries v a ee event args He), Hw.
        destruct (watch_count entries ee event) as [|n] eqn:Hn; [by left|].
        right. simpl. split; [done|]. right. exists ee, event, args, (v_done v).
        split; [by eapply watch_count_elem_of|]. by rewrite Hc, Hn.
      * destruct a as [|r'|r' k| | | | | | |]; simpl in He; try done;
          try (left; simpl; by rewrite Hw, Hc).
        -- simpl. case_decide; simpl; [right; rewrite Hc; split; [done|by left]|by left].
        -- simpl. case_decide; simpl; by left.
    + right. destruct (observe_settled r entries v a Hs) as [H1 H2]. split; [done|].
      by rewrite H2.
Qed.

(** Without a cancellation no call is lost. *)
Lemma foldl_observe_kept v tr :
  Forall (fun a => a <> ACancel r) tr ->
  v_phase v = Waiting -> v_calls v = [] ->
  (v_phase (foldl obs v tr) = Waiting /\ v_calls (foldl obs v tr) = [])
  \/ (v_phase (foldl obs v tr) = Settled /\ v_calls (foldl obs v tr) <> []).
Proof.
  revert v. induction tr as [|a tr IH]; intros v Hq Hw Hc; simpl; [by left|].
  apply Forall_cons in Hq as [Hq1 Hq2].
  destruct (emitted a) as [[[ee event] args]|] eqn:He.
  - rewrite (observe_emitted r entries v a _ _ _ He), Hw.
    destruct (watch_count entries ee event) as [|n]; [by apply IH|].
    right.
    match goal with |- context [foldl _ ?v0 tr] =>
      destruct (foldl_observe_settled r entries v0 tr eq_refl) as [-> ->] end.
    simpl. by rewrite Hc.
  - destruct a as [|r'|r' k| | | | | | |]; simpl in He; try done; try (by apply IH).
    + simpl. case_decide; [congruence|by apply IH].
    + simpl. case_decide; by apply IH.
Qed.

Lemma foldl_observe_fired tr1 a tr2 ee event args d :
  Forall (fun a' => a' <> ACancel r) tr1 ->
  fires entries a ee event args ->
  v_calls (foldl obs (start d) (tr1 ++ a :: tr2)) <> [].
Proof.
  intros Hq Hf. rewrite foldl_app. simpl.
  set (v1 := foldl obs (start d) tr1).
  destruct (foldl_observe_kept (start d) tr1 Hq eq_refl eq_refl)
    as [[Hw Hc]|[Hs Hc]]; fold v1 in Hw, Hc || fold v1 in Hs, Hc.
  - destruct (observe_fires r entries v1 a _ _ _ Hf Hw) as (n & Hn & ->).
    match goal with |- context [foldl ?f ?v0 tr2] =>
      destruct (foldl_observe_settled r entries v0 tr2 eq_refl) as [_ ->] end.
    simpl. by rewrite Hc.
  - destruct (observe_settled r entries v1 a Hs) as [Hs' Hc'].
    destruct (foldl_observe_settled r entries _ tr2 Hs') as [_ ->]. by rewrite Hc'.
Qed.
End reading.

(** Watching the same pairs in another order. *)
Lemma plain_Permutation entries entries' :
  Permutation entries entries' -> plain entries -> plain entries'.
Proof.
  intros Hp H ee event Hin. apply (H ee event).
  by rewrite (combos_Permutation _ _ Hp).
Qed.

Lemma quiet_Permutation r entries entries' a :
  Permutation entries entries' -> quiet r entries a -> quiet r entries' a.
Proof.
  intros Hp [[Hc Hl] Ht]. split; [split; [done|]|done].
  intros ee event args He. rewrite <- (combos_Permutation _ _ Hp). by eapply Hl.
Qed.

Lemma passive_Permutation w r entries entries' :
  Permutation entries entries' -> passive w r entries -> passive w r entries'.
Proof.
  intros Hp H k. destruct (H k) as [H1 H2].
  split; (eapply Forall_impl; [eassumption|]); intros a; by apply quiet_Permutation.
Qed.

(** The calls after the first watched event. *)
Lemma calls_after_win w depth entries d st r st1 tr1 a tr2 ee event args :
  plain entries -> passive w r entries ->
  wf st -> valid_done d st ->
  first (nested w depth) (Array entries) d st = (Return r, st1) ->
  Forall (leaves_waiting r entries) tr1 ->
  fires entries a ee event args ->
  exists n d',
    watch_count entries ee event = S n
    /\ rcalls r (run w (nested w depth) (tr1 ++ a :: tr2) st1) =
         replicate (S n) (mkcall r d' ee event args)
    /\ length (race_listeners r (run w (nested w depth) tr1 st1) ee event) = S n
    /\ (Forall (fun a' => forall k, a' <> AThunk r k) tr1 -> d' = d).
Proof.
  intros Hp Hw W Hd H Hq Hf.
  destruct (race_observed w depth _ _ _ _ _ Hp Hw W Hd H) as (cs & Hk & I0 & Hrun).
  destruct (foldl_observe_waiting r entries (start d) tr1 Hq eq_refl) as (Hwt & Hc & Hdone).
  destruct (observe_fires r entries _ a _ _ _ Hf Hwt) as (n & Hn & Hobs).
  exists n, (v_done (foldl (observe r (watch_count entries)) (start d) tr1)).
  split; [done|]. split; [|split; [|done]].
  - destruct (Hrun (tr1 ++ a :: tr2)) as (_ & ->). rewrite foldl_app. simpl.
    rewrite Hobs.
    match goal with |- context [foldl _ ?v0 tr2] =>
      destruct (foldl_observe_settled r entries v0 tr2 eq_refl) as [_ ->] end.
    simpl. by rewrite Hc.
  - destruct (Hrun tr1) as (I & _). rewrite Hwt in I.
    rewrite (inv_phase _ _ _ _ _ I ee event), own_length, Hk. exact Hn.
Qed.

Lemma tame_busy : tame busy.
Proof. intros k. split; repeat constructor; discriminate. Qed.

(** * The claims about races in general *)

(** ** Settling at most once *)

(** The completion callback is called twice by a single event: when the
    pair is listed twice; when the race also watches ['removeListener'] on
    the emitter; and when a listener of other code, registered before the
    race, emits another watched event. *)
Lemma first_calls_twice :
  let n := nested inert 1 in
  let dup := [EArray 0 ["a"; "a"]] in
  let meta := [EArray 0 ["a"; "removeListener"]] in
  let w := {| listener_body := fun k => [AEmit 1 "b" []]; callback_body := fun _ => [] |} in
  let both := [EArray 0 ["a"]; EArray 1 ["b"]] in
  (Forall well_formed dup
   /\ exists st1, first n (Array dup) (DoneUser 0) init = (Return 0, st1)
      /\ length (rcalls 0 (run inert n [AEmit 0 "a" []] st1)) = 2)
  /\ (Forall well_formed meta /\ NoDup (combos meta)
      /\ exists st1, first n (Array meta) (DoneUser 0) init = (Return 0, st1)
         /\ map call_event (rcalls 0 (run inert n [AEmit 0 "a" []] st1))
              = ["removeListener"; "a"])
  /\ (Forall well_formed both /\ NoDup (combos both) /\ plain both
      /\ exists st1,
           first (nested w 1) (Array both) (DoneUser 0)
             (run w (nested w 1) [AOn 0 "a" 7] init) = (Return 0, st1)
           /\ map call_event (rcalls 0 (run w (nested w 1) [AEmit 0 "a" []] st1))
                = ["b"; "a"]).
Proof.
  intros n dup meta w both. split; [|split].
  - split; [repeat constructor|]. eexists. split; [reflexivity|]. vm_compute. reflexivity.
  - split; [repeat constructor|]. split; [by_evaluation|].
    eexists. split; [reflexivity|]. vm_compute. reflexivity.
  - split; [repeat constructor|]. split; [by_evaluation|]. split.
    + intros ee event Hin. unfold both, combos in Hin. simpl in Hin.
      apply elem_of_cons in Hin as [Hin|Hin]; [by inversion Hin|].
      apply list_elem_of_singleton in Hin. by inversion Hin.
    + eexists. split; [reflexivity|]. vm_compute. reflexivity.
Qed.

(** C1, amended: take a race over well-formed pairs none of which is
    ['newListener'] or ['removeListener'], in a world whose listeners and
    callbacks of other code return normally and neither cancel the race, nor
    replace its callback, nor emit a watched event when they are called.
    Whatever
    happens after [first] returned, the calls of the completion callback are
    those of a single watched event, one for each time its pair is listed:
    at most one call when no pair is repeated.  And from the moment a
    watched event is delivered to a race which was not cancelled before, the
    callback has been called. *)
Theorem first_settles_at_most_once w depth entries d st r st1 :
  tame w ->
  plain entries -> passive w r entries ->
  wf st -> valid_done d st ->
  first (nested w depth) (Array entries) d st = (Return r, st1) ->
  (forall tr, one_winner r entries (rcalls r (run w (nested w depth) tr st1)))
  /\ (NoDup (combos entries) ->
      forall tr, length (rcalls r (run w (nested w depth) tr st1)) <= 1)
  /\ (forall tr1 a tr2 ee event args,
        Forall (fun a' => a' <> ACancel r) tr1 ->
        fires entries a ee event args ->
        rcalls r (run w (nested w depth) (tr1 ++ a :: tr2) st1) <> []).
Proof.
  intros _.
  intros Hp Hw W Hd H.
  destruct (race_observed w depth _ _ _ _ _ Hp Hw W Hd H) as (cs & Hk & I0 & Hrun).
  assert (forall tr, one_winner r entries (rcalls r (run w (nested w depth) tr st1))) as H1.
  { intros tr. destruct (Hrun tr) as (_ & ->).
    apply foldl_observe_one_winner. by left. }
  split; [done|]. split.
  - intros Hnd tr. destruct (H1 tr) as [->|(ee & event & args & d' & _ & ->)]; [simpl; lia|].
    rewrite length_replicate. by apply watch_count_NoDup.
  - intros tr1 a tr2 ee event args Hq Hf.
    destruct (Hrun (tr1 ++ a :: tr2)) as (_ & ->). by eapply foldl_observe_fired.
Qed.

Lemma first_settles_at_most_once_witness :
  let entries := [EArray 0 ["close"; "error"]; EArray 1 ["end"]] in
  let n := nested busy 2 in
  let st0 := run busy n [AFirst (Array [EArray 0 ["close"]]) 3; AOn 1 "end" 4] init in
  let st1 := snd (first n (Array entries) (DoneUser 0) st0) in
  one_winner 1 entries
    (rcalls 1 (run busy n [AEmit 1 "end" []; AEmit 0 "close" []; AEmit 1 "end" []] st1))
  /\ length (rcalls 1 (run busy n [AEmit 1 "end" []; AEmit 0 "close" []] st1)) <= 1
  /\ rcalls 1 (run busy n ([AEmit 2 "x" []] ++ AEmit 0 "error" [VString "boom"]
                             :: [AEmit 1 "end" []; ACancel 1]) st1) <> [].
Proof.
  intros entries n st0 st1.
  assert (plain entries) as Hp.
  { intros ee event Hin. unfold entries, combos in Hin. simpl in Hin.
    repeat (apply elem_of_cons in Hin as [Hin|Hin]; [by inversion Hin|]).
    by apply elem_of_nil in Hin. }
  assert (passive busy 1 entries) as Hw by (intros k; split; quiet_trace).
  assert (wf st0) as W.
  { apply run_wf_nested, wf_init. }
  assert (valid_done (DoneUser 0) st0) as Hd by (intros q res Hq; discriminate Hq).
  assert (NoDup (combos entries)) as Hnd by by_evaluation.
  assert (first n (Array entries) (DoneUser 0) st0 = (Return 1, st1)) as H by reflexivity.
  destruct (first_settles_at_most_once busy 2 entries (DoneUser 0) st0 1 st1 tame_busy Hp Hw W Hd H)
    as (H1 & H2 & H3).
  split; [apply H1|]. split; [by apply H2|].
  apply (H3 [AEmit 2 "x" []] (AEmit 0 "error" [VString "boom"]) [AEmit 1 "end" []; ACancel 1]
            0 "error" [VString "boom"]).
  - repeat constructor. discriminate.
  - split; [reflexivity|]. by_evaluation.
Defined.

(** ** Full cleanup *)

(** A race which watches ['newListener'] settles inside [first], on the
    registration of its own next listener; that listener is attached after
    the settlement and stays, also when the watched event is delivered
    again. *)
Lemma first_leaves_listener_after_settling :
  let n := nested inert 1 in
  let entries := [EArray 0 ["newListener"; "a"]] in
  Forall well_formed entries
  /\ exists st1,
       first n (Array entries) (DoneUser 0) init = (Return 0, st1)
       /\ map call_event (rcalls 0 st1) = ["newListener"]
       /\ race_listeners 0 st1 0 "a" = [Onevent 1 "a" 0]
       /\ race_listeners 0
            (run inert n [AEmit 0 "newListener" [VString "x"; VObject 5]] st1) 0 "a"
          = [Onevent 1 "a" 0].
Proof.
  intros n entries. split; [repeat constructor|].
  eexists. split; [reflexivity|]. split; [|split]; vm_compute; reflexivity.
Qed.

Section cleaned.
Context (w : world) (depth : nat).
Implicit Types (st : state) (r : nat) (entries : list entry) (d : donefn)
  (tr : list action).

Lemma detached_after_step entries d st r st1 tr1 a tr2 :
  wf st ->
  first (nested w depth) (Array entries) d st = (Return r, st1) ->
  (a = ACancel r \/
   exists ee event args,
     emitted a = Some (ee, event, args)
     /\ race_listeners r (run w (nested w depth) tr1 st1) ee event <> []) ->
  detached r (run w (nested w depth) (tr1 ++ a :: tr2) st1).
Proof.
  intros W H Ha. destruct (first_holds w depth _ _ _ _ _ W H) as (cs & Hk & B).
  rewrite run_app. simpl.
  destruct (run_holds w depth r cs tr1 st1 B) as [B1 _].
  pose proof (step_detaches w depth r cs a _ B1 Ha) as D.
  eapply detached_shrinks; [exact D|].
  apply (run_holds w depth r cs tr2). eapply holding_shrinks; [exact B1|].
  apply (step_shrinks w r cs (nested w depth)); [by eapply holding_built| |apply B1].
  apply general_nested. by eapply holding_built.
Qed.

Lemma detached_after_call entries d st r st1 tr :
  wf st ->
  first (nested w depth) (Array entries) d st = (Return r, st1) ->
  length (rcalls r st1) < length (rcalls r (run w (nested w depth) tr st1)) ->
  detached r (run w (nested w depth) tr st1).
Proof.
  intros W H Hlt. destruct (first_holds w depth _ _ _ _ _ W H) as (cs & Hk & B).
  destruct (run_holds w depth r cs tr st1 B) as [_ S].
  destruct (sh_log _ _ _ S) as (l & G & _ & [Hl|D]); [|exact D].
  exfalso. unfold rcalls in Hlt. rewrite G, filter_app, Hl, app_nil_r in Hlt. lia.
Qed.

Lemma attached_at_return entries d st r st1 :
  plain entries -> passive w r entries -> wf st -> valid_done d st ->
  first (nested w depth) (Array entries) d st = (Return r, st1) ->
  forall ee event, length (race_listeners r st1 ee event) = watch_count entries ee event.
Proof.
  intros Hp Hw W Hd H ee event.
  destruct (race_observed w depth _ _ _ _ _ Hp Hw W Hd H) as (cs' & Hk' & I0 & Hrun).
  rewrite (inv_phase _ _ _ _ _ I0 ee event). unfold watch_count. by rewrite own_length, Hk'.
Qed.

Lemma detached_after_settling entries d st r st1 tr1 a tr2 :
  plain entries -> passive w r entries -> wf st -> valid_done d st ->
  first (nested w depth) (Array entries) d st = (Return r, st1) ->
  settles r entries a ->
  detached r (run w (nested w depth) (tr1 ++ a :: tr2) st1).
Proof.
  intros Hp Hw W Hd H Hs ee event.
  destruct (race_observed w depth _ _ _ _ _ Hp Hw W Hd H) as (cs' & Hk' & I0 & Hrun).
  destruct (Hrun (tr1 ++ a :: tr2)) as (I & _). rewrite foldl_app in I. simpl in I.
  pose proof (observe_settles r entries
                (foldl (observe r (watch_count entries)) (start d) tr1) a Hs) as Hph.
  destruct (foldl_observe_settled r entries _ tr2 Hph) as [Hph' _].
  pose proof (inv_phase _ _ _ _ _ I) as P. rewrite Hph' in P. apply P.
Qed.
End cleaned.

(** C3, amended: once [first] has returned, an action which cancels the
    race, or delivers an event for which the race still has a listener
    registered, leaves no listener of the race on any emitter, whatever
    happened before and whatever happens afterwards, and whatever
    listeners and callbacks of other code do, as long as they return
    normally; nor is a listener left once the completion callback has been
    called after [first] returned.  For a race which watches neither
    ['newListener'] nor ['removeListener'], in a world whose other code
    leaves the race alone ([passive]), every listener asked for is
    registered when [first] returns, and every action which cancels the race
    or delivers a watched event leaves none. *)
Theorem first_full_cleanup w depth entries d st r st1 :
  tame w ->
  wf st ->
  first (nested w depth) (Array entries) d st = (Return r, st1) ->
  (forall tr1 a tr2,
     (a = ACancel r \/
      exists ee event args,
        emitted a = Some (ee, event, args)
        /\ race_listeners r (run w (nested w depth) tr1 st1) ee event <> []) ->
     forall ee event,
       race_listeners r (run w (nested w depth) (tr1 ++ a :: tr2) st1) ee event = [])
  /\ (forall tr,
        length (rcalls r st1) < length (rcalls r (run w (nested w depth) tr st1)) ->
        forall ee event, race_listeners r (run w (nested w depth) tr st1) ee event = [])
  /\ (plain entries -> passive w r entries -> valid_done d st ->
      (forall ee event, length (race_listeners r st1 ee event) = watch_count entries ee event)
      /\ forall tr1 a tr2,
           settles r entries a ->
           forall ee event,
             race_listeners r (run w (nested w depth) (tr1 ++ a :: tr2) st1) ee event = []).
Proof.
  intros _.
  intros W H. split; [|split].
  - intros tr1 a tr2 Ha. by eapply detached_after_step.
  - intros tr Hlt. by eapply detached_after_call.
  - intros Hp Hw Hd. split; [by eapply attached_at_return|].
    intros tr1 a tr2 Hs. by eapply detached_after_settling.
Qed.

Lemma first_full_cleanup_witness :
  let entries := [EArray 0 ["a"; "removeListener"]; EArray 1 ["c"; "error"]] in
  let plain_entries := [EArray 0 ["a"; "b"]; EArray 1 ["c"; "d"]] in
  let n := nested busy 2 in
  let st1 := snd (first n (Array entries) (DoneUser 0) init) in
  let st1' := snd (first n (Array plain_entries) (DoneUser 0) init) in
  (forall ee event,
     race_listeners 0 (run busy n ([AOn 1 "c" 9] ++ ACancel 0 :: [AEmit 0 "a" []]) st1)
       ee event = [])
  /\ (forall ee event,
        race_listeners 0 (run busy n ([] ++ AEmit 1 "error" [VNumber 4] :: []) st1)
          ee event = [])
  /\ (forall ee event,
        length (race_listeners 0 st1' ee event) = watch_count plain_entries ee event)
  /\ (forall ee event,
        race_listeners 0 (run busy n ([AOn 1 "d" 9] ++ AEmit 1 "d" [] :: [AEmit 0 "a" []]) st1')
          ee event = []).
Proof.
  intros entries plain_entries n st1 st1'.
  assert (first n (Array entries) (DoneUser 0) init = (Return 0, st1)) as H by reflexivity.
  assert (first n (Array plain_entries) (DoneUser 0) init = (Return 0, st1')) as H'
    by reflexivity.
  destruct (first_full_cleanup busy 2 entries (DoneUser 0) init 0 st1 tame_busy wf_init H)
    as (H1 & _ & _).
  destruct (first_full_cleanup busy 2 plain_entries (DoneUser 0) init 0 st1' tame_busy wf_init H')
    as (_ & _ & H3).
  split; [|split].
  - apply H1. by left.
  - apply H1. right. exists 1, "error", [VNumber 4]. split; [reflexivity|]. by_evaluation.
  - destruct H3 as [H3 H4].
    + intros ee event Hin. unfold plain_entries, combos in Hin. simpl in Hin.
      repeat (apply elem_of_cons in Hin as [Hin|Hin]; [by inversion Hin|]).
      by apply elem_of_nil in Hin.
    + intros k; split; quiet_trace.
    + intros q res Hq. discriminate Hq.
    + split; [exact H3|]. apply H4. right. exists 1, "d", [].
      split; [reflexivity|by_evaluation].
Defined.

(** ** Cancelling *)





(** ** The error argument *)

(** C7: in every call of the completion callback the [err] argument is the
    first argument of the event the call reports if that event is named
    ['error'], and [null] for every other name; and when an event is
    delivered for which the race has a listener registered, the emitter does
    not throw (an ['error'] is handed to the callback instead) and the
    callback is called with the emitter, the name and the arguments of that
    event and the [err] which belongs to its name.  This holds on every run
    after [first] has returned, whatever the race watches and whatever
    listeners and callbacks of other code do, as long as they return
    normally.  For a race which watches neither ['newListener'] nor
    ['removeListener'], in a world whose other code leaves the race alone
    ([passive]), every call made is for the watched event delivered first:
    its [err] is that event's first argument if the event is named
    ['error'], and [null] otherwise. *)
Theorem error_argument w depth entries d st r st1 :
  tame w ->
  wf st ->
  first (nested w depth) (Array entries) d st = (Return r, st1) ->
  (forall tr,
     let n := nested w depth in
     let st2 := run w n tr st1 in
     (forall c, c ∈ rcalls r st2 ->
        call_err c = if decide (call_event c = "error")
                     then nth 0 (call_args c) VUndefined else VNull)
     /\ forall ee event args,
          race_listeners r st2 ee event <> [] ->
          emit_outcome_of ee event st2 = EmitReturned true
          /\ exists c l,
               rcalls r (emit w n ee event args st2) = rcalls r st2 ++ l /\ c ∈ l
               /\ call_ee c = ee /\ call_event c = event /\ call_args c = args
               /\ call_err c = if decide (event = "error")
                               then nth 0 args VUndefined else VNull)
  /\ (plain entries -> passive w r entries -> valid_done d st ->
      forall tr1 a tr2 ee event args,
        Forall (leaves_waiting r entries) tr1 ->
        fires entries a ee event args ->
        let st2 := run w (nested w depth) (tr1 ++ a :: tr2) st1 in
        rcalls r st2 <> []
        /\ forall c, c ∈ rcalls r st2 ->
             call_ee c = ee /\ call_event c = event /\ call_args c = args
             /\ call_err c = if decide (event = "error")
                             then nth 0 args VUndefined else VNull).
Proof.
  intros _ W H. split.
  - intros tr n st2. destruct (first_holds w depth _ _ _ _ _ W H) as (cs & Hk & B).
    destruct (run_holds w depth r cs tr st1 B) as [B2 S2]. fold n st2 in B2, S2.
    pose proof (holding_built _ _ _ B) as Hb.
    pose proof (general_nested w r cs depth Hb) as Hg. fold n in Hg.
    split.
    + intros c Hc. pose proof (hd_calls _ _ _ B2) as O.
      eapply Forall_forall in O; [|exact Hc]. exact O.
    + intros ee event args Hl. split.
      * unfold emit_outcome_of. unfold race_listeners in Hl.
        destruct (listeners st2 ee event); [done|done].
      * destruct (race_listeners r st2 ee event) as [|f l] eqn:E; [done|].
        assert (f ∈ race_listeners r st2 ee event) as Hf by (rewrite E; by left).
        pose proof (elem_of_sublist _ _ _ Hf
                      (held_listeners _ _ _ (hd_held _ _ _ B2) ee event)) as Hown.
        apply elem_of_own in Hown as (c0 & Hc0 & Hfn & Hee & Hev).
        destruct (built_fn _ _ Hb c0 Hc0) as [id Hid]. rewrite Hfn, Hev in Hid.
        apply list_elem_of_filter in Hf as [_ Hf]. rewrite Hid in Hf.
        destruct (dispatch_logs w r cs n Hb Hg (listeners st2 ee event) id event ee args st2
                    (hd_held _ _ _ B2) Hf) as (d' & l' & G & Hin).
        exists (mkcall r d' ee event args), l'. by repeat split.
  - intros Hp Hw Hd tr1 a tr2 ee event args Hq Hf st2. unfold st2.
    destruct (calls_after_win w depth _ _ _ _ _ _ _ tr2 _ _ _ Hp Hw W Hd H Hq Hf)
      as (m & d' & Hm & -> & _ & _).
    split; [done|]. intros c Hc. by apply elem_of_replicate in Hc as [-> _].
Qed.

Lemma error_argument_witness :
  let entries := [EArray 0 ["error"; "removeListener"]] in
  let plain_entries := [EArray 0 ["end"; "error"]] in
  let n := nested busy 2 in
  let st1 := snd (first n (Array entries) (DoneUser 0) init) in
  let st1' := snd (first n (Array plain_entries) (DoneUser 0) init) in
  let st2 := run busy n [AEmit 3 "x" []] st1 in
  emit_outcome_of 0 "error" st2 = EmitReturned true
  /\ (exists c l,
        rcalls 0 (emit busy n 0 "error" [VString "boom"; VNumber 2] st2) = rcalls 0 st2 ++ l
        /\ c ∈ l /\ call_event c = "error" /\ call_err c = VString "boom")
  /\ (forall c,
        c ∈ rcalls 0 (run busy n [AEmit 0 "error" [VString "boom"]] st1) ->
        call_err c = if decide (call_event c = "error")
                     then nth 0 (call_args c) VUndefined else VNull)
  /\ (forall c,
        c ∈ rcalls 0 (run busy n ([AEmit 3 "x" []] ++ AEmit 0 "error" [VString "boom"] :: [])
                        st1') ->
        call_err c = VString "boom").
Proof.
  intros entries plain_entries n st1 st1' st2.
  assert (first n (Array entries) (DoneUser 0) init = (Return 0, st1)) as H by reflexivity.
  assert (first n (Array plain_entries) (DoneUser 0) init = (Return 0, st1')) as H'
    by reflexivity.
  destruct (error_argument busy 2 entries (DoneUser 0) init 0 st1 tame_busy wf_init H)
    as [X _].
  destruct (error_argument busy 2 plain_entries (DoneUser 0) init 0 st1' tame_busy wf_init H')
    as [_ Y].
  destruct (X [AEmit 3 "x" []]) as [_ H2].
  destruct (H2 0 "error" [VString "boom"; VNumber 2]) as (H3 & c & l & H4 & H5 & _ & H6 & _ & H7).
  { by_evaluation. }
  split; [exact H3|]. split; [|split].
  - exists c, l. by repeat split.
  - apply (X [AEmit 0 "error" [VString "boom"]]).
  - intros c0 Hc0.
    destruct (Y ltac:(intros ee event Hin; unfold plain_entries, combos in Hin; simpl in Hin;
                      repeat (apply elem_of_cons in Hin as [Hin|Hin]; [by inversion Hin|]);
                      by apply elem_of_nil in Hin)
                ltac:(intros k; split; quiet_trace)
                ltac:(intros q res Hq; discriminate Hq)
                [AEmit 3 "x" []] (AEmit 0 "error" [VString "boom"]) [] 0 "error"
                [VString "boom"]) as [_ Z].
    + apply List.Forall_cons; [|apply List.Forall_nil].
      split; [discriminate|]. intros ee event args He. inversion He; subst. by_evaluation.
    + split; [reflexivity|by_evaluation].
    + by destruct (Z c0 Hc0) as (_ & _ & _ & ->).
Defined.

(** ** The winner *)

(** The first call of the completion callback reports another emitter and
    another event than the one delivered, when the race watches
    ['removeListener'] on a later pair; and a race which watches
    ['newListener'] settles inside [first] for one order of its pairs and
    not for the other. *)
Lemma first_reports_another_event :
  let n := nested inert 1 in
  let A := 0 in
  let B := 1 in
  let entries := [EArray A ["a"]; EArray B ["b"; "removeListener"]] in
  let ordered := [EArray A ["newListener"]; EArray A ["a"]] in
  let swapped := [EArray A ["a"]; EArray A ["newListener"]] in
  (Forall well_formed entries /\ NoDup (combos entries)
   /\ exists st1,
        first n (Array entries) (DoneUser 0) init = (Return 0, st1)
        /\ map (fun c => (call_ee c, call_event c))
             (rcalls 0 (run inert n [AEmit A "a" []] st1))
           = [(B, "removeListener"); (A, "a")])
  /\ (Forall well_formed ordered /\ Permutation ordered swapped
      /\ exists st1 st1',
           first n (Array ordered) (DoneUser 0) init = (Return 0, st1)
           /\ first n (Array swapped) (DoneUser 0) init = (Return 0, st1')
           /\ length (rcalls 0 st1) = 1 /\ rcalls 0 st1' = []).
Proof.
  intros n A B entries ordered swapped. split.
  - split; [repeat constructor|]. split; [by_evaluation|].
    eexists. split; [reflexivity|]. vm_compute. reflexivity.
  - split; [repeat constructor|]. split; [apply perm_swap|].
    eexists. eexists. split; [reflexivity|]. split; [reflexivity|].
    split; vm_compute; reflexivity.
Qed.

(** C8, amended: take a race which watches neither ['newListener'] nor
    ['removeListener'], in a world whose listeners and callbacks of other
    code return normally and leave the race alone ([passive]).  The race
    reports the watched event which is
    delivered first, and nothing else: every call of the completion callback
    carries the emitter, the name and the arguments of that event, whatever
    is delivered later.  The order of the members of [stuff] plays no part:
    a race over a permutation of the same members makes the same calls on
    every trace. *)
Theorem winner_is_first_delivered w depth entries entries' d st r st1 :
  tame w ->
  plain entries -> passive w r entries ->
  wf st -> valid_done d st -> Permutation entries entries' ->
  first (nested w depth) (Array entries) d st = (Return r, st1) ->
  exists st1',
    first (nested w depth) (Array entries') d st = (Return r, st1')
    /\ (forall tr, rcalls r (run w (nested w depth) tr st1') =
                   rcalls r (run w (nested w depth) tr st1))
    /\ forall tr1 a tr2 ee event args,
         Forall (leaves_waiting r entries) tr1 ->
         fires entries a ee event args ->
         rcalls r (run w (nested w depth) (tr1 ++ a :: tr2) st1) <> []
         /\ forall c, c ∈ rcalls r (run w (nested w depth) (tr1 ++ a :: tr2) st1) ->
              call_ee c = ee /\ call_event c = event /\ call_args c = args.
Proof.
  intros _.
  intros Hp Hw W Hd Hperm H. destruct (first_Return_id _ _ _ _ _ _ H) as [Hwf Hr].
  assert (Forall well_formed entries') as Hwf' by (by rewrite <- Hperm).
  exists (snd (first (nested w depth) (Array entries') d st)).
  pose proof (first_returns_id (nested w depth) entries' d st Hwf') as H'. rewrite <- Hr in H'.
  split; [done|]. split.
  - intros tr.
    destruct (race_observed w depth _ _ _ _ _ Hp Hw W Hd H) as (cs & _ & _ & Hrun).
    destruct (race_observed w depth _ _ _ _ _ (plain_Permutation _ _ Hperm Hp)
                (passive_Permutation _ _ _ _ Hperm Hw) W Hd H') as (cs' & _ & _ & Hrun').
    destruct (Hrun tr) as (_ & ->). destruct (Hrun' tr) as (_ & ->).
    f_equal. apply foldl_observe_ext. intros ee event. by apply watch_count_Permutation.
  - intros tr1 a tr2 ee event args Hq Hf.
    destruct (calls_after_win w depth _ _ _ _ _ _ _ tr2 _ _ _ Hp Hw W Hd H Hq Hf)
      as (n & d' & Hn & -> & _ & _).
    split; [done|]. intros c Hc. by apply elem_of_replicate in Hc as [-> _].
Qed.

Lemma winner_is_first_delivered_witness :
  let A := 0 in
  let B := 1 in
  let n := nested busy 2 in
  let st0 := run busy n [AOn A "a" 4; AOn B "b" 5] init in
  let st1 := snd (first n (Array [EArray A ["a"]; EArray B ["b"]]) (DoneUser 0) st0) in
  let st1' := snd (first n (Array [EArray B ["b"]; EArray A ["a"]]) (DoneUser 0) st0) in
  (forall c, c ∈ rcalls 0 (run busy n ([] ++ AEmit B "b" [] :: [AEmit A "a" []]) st1) ->
     call_ee c = B)
  /\ (forall c, c ∈ rcalls 0 (run busy n ([] ++ AEmit A "a" [] :: [AEmit B "b" []]) st1) ->
        call_ee c = A)
  /\ rcalls 0 (run busy n [AEmit B "b" []; AEmit A "a" []] st1') =
       rcalls 0 (run busy n [AEmit B "b" []; AEmit A "a" []] st1).
Proof.
  intros A B n st0 st1 st1'.
  assert (plain [EArray A ["a"]; EArray B ["b"]]) as Hp.
  { intros ee event Hin. unfold combos in Hin. simpl in Hin.
    repeat (apply elem_of_cons in Hin as [Hin|Hin]; [by inversion Hin|]).
    by apply elem_of_nil in Hin. }
  assert (passive busy 0 [EArray A ["a"]; EArray B ["b"]]) as Hw
    by (intros k; split; quiet_trace).
  assert (wf st0) as W by apply run_wf_nested, wf_init.
  assert (valid_done (DoneUser 0) st0) as Hd by (intros q res Hq; discriminate Hq).
  assert (first n (Array [EArray A ["a"]; EArray B ["b"]]) (DoneUser 0) st0 = (Return 0, st1))
    as H by reflexivity.
  assert (Permutation [EArray A ["a"]; EArray B ["b"]] [EArray B ["b"]; EArray A ["a"]])
    as Hperm by apply perm_swap.
  destruct (winner_is_first_delivered busy 2 _ _ (DoneUser 0) st0 0 st1 tame_busy Hp Hw W Hd
              Hperm H)
    as (st2 & H2 & Hsame & Hwin).
  assert (st2 = st1') as -> by (change st1' with
    (snd (first n (Array [EArray B ["b"]; EArray A ["a"]]) (DoneUser 0) st0));
    fold n in H2; by rewrite H2).
  split; [|split].
  - intros c Hc.
    destruct (Hwin [] (AEmit B "b" []) [AEmit A "a" []] B "b" []) as [_ X].
    + constructor.
    + split; [reflexivity|by_evaluation].
    + by destruct (X c Hc) as (-> & _).
  - intros c Hc.
    destruct (Hwin [] (AEmit A "a" []) [AEmit B "b" []] A "a" []) as [_ X].
    + constructor.
    + split; [reflexivity|by_evaluation].
    + by destruct (X c Hc) as (-> & _).
  - apply Hsame.
Defined.

(** * Further properties of races

    All of them for races which watch neither ['newListener'] nor
    ['removeListener'] ([plain]), in worlds whose listeners and callbacks of
    other code return normally ([tame]) and leave the race alone
    ([passive]). *)

(** ** Calls of the completion callback *)

(** X2: for a plain race in a tame and passive world, the winning event
    calls the completion callback once for each time its (emitter, event)
    pair is listed in [stuff], each time with the same arguments, and later
    events add no call. *)
Theorem win_calls_once_per_listing w depth entries d st r st1 tr1 a tr2 ee event args :
  tame w ->
  plain entries -> passive w r entries ->
  wf st -> valid_done d st ->
  first (nested w depth) (Array entries) d st = (Return r, st1) ->
  Forall (quiet r entries) tr1 ->
  fires entries a ee event args ->
  1 <= watch_count entries ee event
  /\ rcalls r (run w (nested w depth) (tr1 ++ a :: tr2) st1) =
       replicate (watch_count entries ee event) (mkcall r d ee event args).
Proof.
  intros _.
  intros Hp Hw W Hd H Hq Hf.
  destruct (calls_after_win w depth _ _ _ _ _ _ _ tr2 _ _ _ Hp Hw W Hd H
              (quiet_leaves_waiting _ _ _ Hq) Hf) as (n & d' & Hn & C & _ & Hd').
  rewrite (Hd' (quiet_no_thunk _ _ _ Hq)) in C. rewrite Hn. split; [lia|done].
Qed.

Lemma win_calls_once_per_listing_witness :
  let entries := [EArray 0 ["a"; "b"; "a"]; EArray 0 ["a"]] in
  let n := nested busy 2 in
  let st0 := run busy n [AOn 0 "a" 4] init in
  let st1 := snd (first n (Array entries) (DoneUser 0) st0) in
  1 <= watch_count entries 0 "a"
  /\ rcalls 0 (run busy n ([AEmit 1 "a" []] ++ AEmit 0 "a" [VNumber 5] :: [AEmit 0 "b" []]) st1) =
       replicate (watch_count entries 0 "a") (mkcall 0 (DoneUser 0) 0 "a" [VNumber 5]).
Proof.
  intros entries n st0 st1.
  apply (win_calls_once_per_listing busy 2 entries (DoneUser 0) st0 0 st1 [AEmit 1 "a" []]
           (AEmit 0 "a" [VNumber 5]) [AEmit 0 "b" []] 0 "a" [VNumber 5]).
  - apply tame_busy.
  - intros ee event Hin. unfold entries, combos in Hin. simpl in Hin.
    repeat (apply elem_of_cons in Hin as [Hin|Hin]; [by inversion Hin|]).
    by apply elem_of_nil in Hin.
  - intros k; split; quiet_trace.
  - apply run_wf_nested, wf_init.
  - intros q res Hq. discriminate Hq.
  - reflexivity.
  - quiet_trace.
  - split; [reflexivity|by_evaluation].
Defined.

(** X3: in a tame and passive world, a plain race cancelled before any
    watched event was delivered never calls its completion callback,
    whatever is emitted afterwards. *)
Theorem cancel_prevents_callback w depth entries d st r st1 tr1 tr2 :
  tame w ->
  plain entries -> passive w r entries ->
  wf st -> valid_done d st ->
  first (nested w depth) (Array entries) d st = (Return r, st1) ->
  Forall (leaves_waiting r entries) tr1 ->
  rcalls r (run w (nested w depth) (tr1 ++ ACancel r :: tr2) st1) = [].
Proof.
  intros _.
  intros Hp Hw W Hd H Hq.
  destruct (race_observed w depth _ _ _ _ _ Hp Hw W Hd H) as (cs & _ & _ & Hrun).
  destruct (Hrun (tr1 ++ ACancel r :: tr2)) as (_ & ->).
  rewrite foldl_app. cbn [foldl observe]. rewrite decide_True by done.
  destruct (foldl_observe_waiting r entries (start d) tr1 Hq eq_refl) as (_ & Hc & _).
  match goal with |- context [foldl _ ?v0 tr2] =>
    destruct (foldl_observe_settled r entries v0 tr2 eq_refl) as [_ ->] end.
  exact Hc.
Qed.

Lemma cancel_prevents_callback_witness :
  let entries := [EArray 0 ["a"]; EArray 1 ["b"]] in
  let n := nested busy 2 in
  let st1 := snd (first n (Array entries) (DoneUser 0) init) in
  rcalls 0 (run busy n ([AEmit 0 "b" []] ++ ACancel 0 :: [AEmit 0 "a" []; AEmit 1 "b" []]) st1)
    = [].
Proof.
  intros entries n st1.
  apply (cancel_prevents_callback busy 2 entries (DoneUser 0) init 0 st1 [AEmit 0 "b" []]
           [AEmit 0 "a" []; AEmit 1 "b" []]).
  - apply tame_busy.
  - intros ee event Hin. unfold entries, combos in Hin. simpl in Hin.
    repeat (apply elem_of_cons in Hin as [Hin|Hin]; [by inversion Hin|]).
    by apply elem_of_nil in Hin.
  - intros k; split; quiet_trace.
  - apply wf_init.
  - intros q res Hq. discriminate Hq.
  - reflexivity.
  - apply List.Forall_cons; [|apply List.Forall_nil].
    split; [discriminate|]. intros ee event args He. inversion He; subst. by_evaluation.
Defined.

(** X4: in a tame and passive world, as long as no watched event is
    delivered and [cancel] is not called, a plain race stays as [first] left
    it: the completion callback is not called and every watched pair keeps
    its listeners. *)
Theorem unwatched_events_are_ignored w depth entries d st r st1 tr :
  tame w ->
  plain entries -> passive w r entries ->
  wf st -> valid_done d st ->
  first (nested w depth) (Array entries) d st = (Return r, st1) ->
  Forall (leaves_waiting r entries) tr ->
  rcalls r (run w (nested w depth) tr st1) = []
  /\ forall ee event,
       length (race_listeners r (run w (nested w depth) tr st1) ee event) =
         watch_count entries ee event.
Proof.
  intros _.
  intros Hp Hw W Hd H Hq.
  destruct (race_observed w depth _ _ _ _ _ Hp Hw W Hd H) as (cs & Hk & _ & Hrun).
  destruct (Hrun tr) as (I & C).
  destruct (foldl_observe_waiting r entries (start d) tr Hq eq_refl) as (Hwt & Hc & _).
  split; [by rewrite C|]. intros ee event. rewrite Hwt in I.
  rewrite (inv_phase _ _ _ _ _ I ee event). unfold watch_count. by rewrite own_length, Hk.
Qed.

Lemma unwatched_events_are_ignored_witness :
  let entries := [EArray 0 ["a"]; EArray 1 ["b"]] in
  let n := nested busy 2 in
  let st1 := snd (first n (Array entries) (DoneUser 0) init) in
  let tr := [AEmit 0 "b" [VNull]; AEmit 2 "a" []; AThunk 0 4; AOn 0 "a" 1;
             ARemoveListener 0 "a" 1] in
  rcalls 0 (run busy n tr st1) = []
  /\ forall ee event,
       length (race_listeners 0 (run busy n tr st1) ee event) = watch_count entries ee event.
Proof.
  intros entries n st1 tr.
  apply (unwatched_events_are_ignored busy 2 entries (DoneUser 0) init 0 st1 tr).
  - apply tame_busy.
  - intros ee event Hin. unfold entries, combos in Hin. simpl in Hin.
    repeat (apply elem_of_cons in Hin as [Hin|Hin]; [by inversion Hin|]).
    by apply elem_of_nil in Hin.
  - intros k; split; quiet_trace.
  - apply wf_init.
  - intros q res Hq. discriminate Hq.
  - reflexivity.
  - repeat (apply List.Forall_cons;
      [split; [discriminate|]; intros ee event args He; inversion He; subst; by_evaluation|]).
    apply List.Forall_nil.
Defined.

(** X5: in a tame and passive world, [thunk(fn)] replaces the completion
    callback of a plain race which waits: the calls made when a watched
    event wins afterwards go to [fn], none to the callback given to
    [first]. *)
Theorem thunk_replaces_callback w depth entries d st r st1 tr1 k tr2 a tr3 ee event args :
  tame w ->
  plain entries -> passive w r entries ->
  wf st -> valid_done d st ->
  first (nested w depth) (Array entries) d st = (Return r, st1) ->
  Forall (leaves_waiting r entries) tr1 ->
  Forall (quiet r entries) tr2 ->
  fires entries a ee event args ->
  1 <= watch_count entries ee event
  /\ rcalls r (run w (nested w depth) (tr1 ++ AThunk r k :: tr2 ++ a :: tr3) st1) =
       replicate (watch_count entries ee event) (mkcall r (DoneUser k) ee event args).
Proof.
  intros _.
  intros Hp Hw W Hd H Hq1 Hq2 Hf.
  destruct (race_observed w depth _ _ _ _ _ Hp Hw W Hd H) as (cs & _ & _ & Hrun).
  destruct (Hrun (tr1 ++ AThunk r k :: tr2 ++ a :: tr3)) as (_ & ->).
  rewrite foldl_app. cbn [foldl observe]. rewrite decide_True by done.
  destruct (foldl_observe_waiting r entries (start d) tr1 Hq1 eq_refl) as (Hw1 & Hc1 & _).
  cbn [start v_calls] in Hc1. rewrite Hw1, Hc1. rewrite foldl_app. cbn [foldl].
  set (v1 := {| v_done := DoneUser k; v_phase := Waiting; v_calls := [] |}).
  destruct (foldl_observe_waiting r entries v1 tr2 (quiet_leaves_waiting _ _ _ Hq2) eq_refl)
    as (Hw2 & Hc2 & Hd2).
  specialize (Hd2 (quiet_no_thunk _ _ _ Hq2)).
  destruct (observe_fires r entries _ a _ _ _ Hf Hw2) as (n & Hn & ->).
  match goal with |- context [foldl _ ?v0 tr3] =>
    destruct (foldl_observe_settled r entries v0 tr3 eq_refl) as [_ ->] end.
  cbn [v_calls]. rewrite Hc2, Hd2, Hn. split; [lia|done].
Qed.

Lemma thunk_replaces_callback_witness :
  let entries := [EArray 0 ["a"]] in
  let n := nested busy 2 in
  let st1 := snd (first n (Array entries) (DoneUser 0) init) in
  1 <= watch_count entries 0 "a"
  /\ rcalls 0 (run busy n ([AThunk 0 1] ++ AThunk 0 2 :: [AEmit 1 "a" []] ++ AEmit 0 "a" [] :: [])
                 st1) =
       replicate (watch_count entries 0 "a") (mkcall 0 (DoneUser 2) 0 "a" []).
Proof.
  intros entries n st1.
  apply (thunk_replaces_callback busy 2 entries (DoneUser 0) init 0 st1 [AThunk 0 1] 2
           [AEmit 1 "a" []] (AEmit 0 "a" []) [] 0 "a" []).
  - apply tame_busy.
  - intros ee event Hin. unfold entries, combos in Hin. simpl in Hin.
    repeat (apply elem_of_cons in Hin as [Hin|Hin]; [by inversion Hin|]).
    by apply elem_of_nil in Hin.
  - intros k; split; quiet_trace.
  - apply wf_init.
  - intros q res Hq. discriminate Hq.
  - reflexivity.
  - apply List.Forall_cons; [|apply List.Forall_nil].
    split; [discriminate|]. intros ee event args He. discriminate He.
  - quiet_trace.
  - split; [reflexivity|by_evaluation].
Defined.

(** ** After a throw *)

Lemma attach_entries_throws below r pre bad rest st :
  Forall well_formed pre -> ~ well_formed bad ->
  attach_entries below r (pre ++ bad :: rest) st =
    (Throw "each array member must be [ee, events...]",
     snd (attach_entries below r pre st)).
Proof.
  intros Hpre Hbad. revert st. induction Hpre as [|arr pre Harr Hpre IH]; intros st.
  - simpl. destruct bad as [| |ee [|e es]]; try done.
    exfalso. apply Hbad. split; simpl; [done|lia].
  - destruct Harr as [Ha Hl]. destruct arr as [| |ee events]; simpl in Ha, Hl; try done; try lia.
    destruct events as [|e es]; simpl in Hl; [lia|].
    cbn [app attach_entries isArray arr_length negb orb Nat.ltb Nat.leb length].
    apply IH.
Qed.

(** X6: when [first] throws on a malformed member, the listeners attached
    for the members before it are live (these members being plain, the world
    tame and passive): the first watched event among them still calls the
    completion callback (once per listing) and removes all of these
    listeners, although the caller never got a controller. *)
Theorem throwing_first_leaves_live_listeners
    w depth pre bad rest d st tr1 a tr2 ee event args :
  tame w ->
  plain pre -> passive w (length (races st)) pre ->
  wf st -> valid_done d st ->
  Forall well_formed pre -> ~ well_formed bad ->
  Forall (quiet (length (races st)) pre) tr1 ->
  fires pre a ee event args ->
  let n := nested w depth in
  let r := length (races st) in
  let st1 := snd (first n (Array (pre ++ bad :: rest)) d st) in
  fst (first n (Array (pre ++ bad :: rest)) d st) =
    Throw "each array member must be [ee, events...]"
  /\ (forall ee' event',
        length (race_listeners r st1 ee' event') = watch_count pre ee' event')
  /\ 1 <= watch_count pre ee event
  /\ rcalls r (run w n (tr1 ++ a :: tr2) st1) =
       replicate (watch_count pre ee event) (mkcall r d ee event args)
  /\ (forall ee' event', race_listeners r (run w n (tr1 ++ a :: tr2) st1) ee' event' = []).
Proof.
  intros _.
  intros Hp Hw W Hd Hpre Hbad Hq Hf n r st1.
  assert (first n (Array (pre ++ bad :: rest)) d st =
          (Throw "each array member must be [ee, events...]", snd (first n (Array pre) d st)))
    as E by (unfold first; by apply attach_entries_throws).
  unfold st1. rewrite E. cbn [fst snd].
  pose proof (first_returns_id n pre d st Hpre) as H. fold r in H.
  set (st0 := snd (first n (Array pre) d st)) in *.
  pose proof (attached_at_return w depth pre d st r st0 Hp Hw W Hd H) as X1.
  destruct (calls_after_win w depth _ _ _ _ _ _ _ tr2 _ _ _ Hp Hw W Hd H
              (quiet_leaves_waiting _ _ _ Hq) Hf) as (m & d' & Hm & C & _ & Hd').
  rewrite (Hd' (quiet_no_thunk _ _ _ Hq)) in C.
  split; [done|]. split; [exact X1|]. split; [lia|]. split; [by rewrite Hm|].
  apply (detached_after_settling w depth pre d st r st0 tr1 a tr2 Hp Hw W Hd H).
  right. by exists ee, event, args.
Qed.

Lemma throwing_first_leaves_live_listeners_witness :
  let stuff := [EArray 0 ["a"]] ++ EArray 1 [] :: [EArray 2 ["b"]] in
  let n := nested busy 2 in
  let st1 := snd (first n (Array stuff) (DoneUser 0) init) in
  fst (first n (Array stuff) (DoneUser 0) init) =
    Throw "each array member must be [ee, events...]"
  /\ (forall ee' event',
        length (race_listeners 0 st1 ee' event') = watch_count [EArray 0 ["a"]] ee' event')
  /\ 1 <= watch_count [EArray 0 ["a"]] 0 "a"
  /\ rcalls 0 (run busy n ([AEmit 2 "b" []] ++ AEmit 0 "a" [VNumber 1] :: []) st1) =
       replicate (watch_count [EArray 0 ["a"]] 0 "a") (mkcall 0 (DoneUser 0) 0 "a" [VNumber 1])
  /\ (forall ee' event',
        race_listeners 0 (run busy n ([AEmit 2 "b" []] ++ AEmit 0 "a" [VNumber 1] :: []) st1)
          ee' event' = []).
Proof.
  apply (throwing_first_leaves_live_listeners busy 2 [EArray 0 ["a"]] (EArray 1 [])
           [EArray 2 ["b"]] (DoneUser 0) init [AEmit 2 "b" []] (AEmit 0 "a" [VNumber 1]) []
           0 "a" [VNumber 1]).
  - apply tame_busy.
  - intros ee event Hin. unfold combos in Hin. simpl in Hin.
    repeat (apply elem_of_cons in Hin as [Hin|Hin]; [by inversion Hin|]).
    by apply elem_of_nil in Hin.
  - intros k; split; quiet_trace.
  - apply wf_init.
  - intros q res Hq. discriminate Hq.
  - repeat constructor.
  - intros [_ Hl]. simpl in Hl. lia.
  - quiet_trace.
  - split; [reflexivity|by_evaluation].
Defined.

(** ** Several races *)

(** X8: two plain races which watch the same event on the same emitter do
    not disturb each other, in a tame world which is passive for both: when
    the event is delivered, each calls its own completion callback, once per
    listing of the pair in its own [stuff]. *)
Theorem races_sharing_an_event_both_settle
    w depth entries1 entries2 d1 k2 st r1 st1 r2 st2 tr1 a tr2 ee event args :
  tame w ->
  plain entries1 -> passive w r1 entries1 ->
  plain entries2 -> passive w r2 entries2 ->
  wf st -> valid_done d1 st ->
  first (nested w depth) (Array entries1) d1 st = (Return r1, st1) ->
  first (nested w depth) (Array entries2) (DoneUser k2) st1 = (Return r2, st2) ->
  Forall (quiet r1 entries1) tr1 -> Forall (quiet r2 entries2) tr1 ->
  fires entries1 a ee event args -> fires entries2 a ee event args ->
  r1 <> r2
  /\ rcalls r1 (run w (nested w depth) (tr1 ++ a :: tr2) st2) =
       replicate (watch_count entries1 ee event) (mkcall r1 d1 ee event args)
  /\ rcalls r2 (run w (nested w depth) (tr1 ++ a :: tr2) st2) =
       replicate (watch_count entries2 ee event) (mkcall r2 (DoneUser k2) ee event args).
Proof.
  intros _.
  intros Hp1 Hw1 Hp2 Hw2 W Hd H1 H2 Hq1 Hq2 Hf1 Hf2.
  destruct (race_observed w depth _ _ _ _ _ Hp1 Hw1 W Hd H1) as (cs1 & _ & I1 & _).
  pose proof (inv_wf _ _ _ _ _ I1) as W1.
  assert (valid_done (DoneUser k2) st1) as Hd2 by (intros q res Hq; discriminate Hq).
  destruct (first_Return_id _ _ _ _ _ _ H1) as [_ Hr1].
  destruct (first_Return_id _ _ _ _ _ _ H2) as [_ Hr2].
  assert (r1 < r2) as Hlt.
  { rewrite Hr2. eapply lookup_lt_Some. apply (inv_env _ _ _ _ _ I1). }
  split; [lia|]. split.
  - assert (st2 = step w (nested w depth) (AFirst (Array entries2) k2) st1) as ->
      by (cbn [step]; by rewrite H2).
    change (run w (nested w depth) (tr1 ++ a :: tr2)
              (step w (nested w depth) (AFirst (Array entries2) k2) st1))
      with (run w (nested w depth) ((AFirst (Array entries2) k2 :: tr1) ++ a :: tr2) st1).
    assert (Forall (quiet r1 entries1) (AFirst (Array entries2) k2 :: tr1)) as Hq.
    { apply List.Forall_cons; [|done]. split; [split; [discriminate|]|discriminate].
      intros ? ? ? He. discriminate He. }
    destruct (calls_after_win w depth _ _ _ _ _ _ _ tr2 _ _ _ Hp1 Hw1 W Hd H1
                (quiet_leaves_waiting _ _ _ Hq) Hf1) as (n & d' & Hn & C & _ & Hd').
    rewrite (Hd' (quiet_no_thunk _ _ _ Hq)) in C. by rewrite Hn.
  - destruct (calls_after_win w depth _ _ _ _ _ _ _ tr2 _ _ _ Hp2 Hw2 W1 Hd2 H2
                (quiet_leaves_waiting _ _ _ Hq2) Hf2) as (n & d' & Hn & C & _ & Hd').
    rewrite (Hd' (quiet_no_thunk _ _ _ Hq2)) in C. by rewrite Hn.
Qed.

Lemma races_sharing_an_event_both_settle_witness :
  let n := nested busy 2 in
  let st1 := snd (first n (Array [EArray 0 ["a"]; EArray 1 ["b"]]) (DoneUser 0) init) in
  let st2 := snd (first n (Array [EArray 0 ["a"]]) (DoneUser 1) st1) in
  0 <> 1
  /\ rcalls 0 (run busy n ([AEmit 0 "c" []] ++ AEmit 0 "a" [] :: [AEmit 1 "b" []]) st2) =
       replicate (watch_count [EArray 0 ["a"]; EArray 1 ["b"]] 0 "a")
         (mkcall 0 (DoneUser 0) 0 "a" [])
  /\ rcalls 1 (run busy n ([AEmit 0 "c" []] ++ AEmit 0 "a" [] :: [AEmit 1 "b" []]) st2) =
       replicate (watch_count [EArray 0 ["a"]] 0 "a") (mkcall 1 (DoneUser 1) 0 "a" []).
Proof.
  intros n st1 st2.
  apply (races_sharing_an_event_both_settle busy 2 [EArray 0 ["a"]; EArray 1 ["b"]]
           [EArray 0 ["a"]] (DoneUser 0) 1 init 0 st1 1 st2 [AEmit 0 "c" []] (AEmit 0 "a" [])
           [AEmit 1 "b" []] 0 "a" []).
  - apply tame_busy.
  - intros ee event Hin. unfold combos in Hin. simpl in Hin.
    repeat (apply elem_of_cons in Hin as [Hin|Hin]; [by inversion Hin|]).
    by apply elem_of_nil in Hin.
  - intros k; split; quiet_trace.
  - intros ee event Hin. unfold combos in Hin. simpl in Hin.
    repeat (apply elem_of_cons in Hin as [Hin|Hin]; [by inversion Hin|]).
    by apply elem_of_nil in Hin.
  - intros k; split; quiet_trace.
  - apply wf_init.
  - intros q res Hq. discriminate Hq.
  - reflexivity.
  - reflexivity.
  - quiet_trace.
  - quiet_trace.
  - split; [reflexivity|by_evaluation].
  - split; [reflexivity|by_evaluation].
Defined.

(** X9: in a tame world which is passive for both, cancelling one plain
    race leaves another plain race on the same event as it is: the cancelled
    race never calls its callback, the other one still wins when the event
    is delivered. *)
Theorem cancel_of_one_race_spares_the_other
    w depth entries1 entries2 d1 k2 st r1 st1 r2 st2 tr1 tr2 a tr3 ee event args :
  tame w ->
  plain entries1 -> passive w r1 entries1 ->
  plain entries2 -> passive w r2 entries2 ->
  wf st -> valid_done d1 st ->
  first (nested w depth) (Array entries1) d1 st = (Return r1, st1) ->
  first (nested w depth) (Array entries2) (DoneUser k2) st1 = (Return r2, st2) ->
  Forall (quiet r1 entries1) tr1 -> Forall (leaves_waiting r2 entries2) tr1 ->
  Forall (quiet r1 entries1) tr2 ->
  fires entries1 a ee event args ->
  rcalls r1 (run w (nested w depth) (tr1 ++ ACancel r2 :: tr2 ++ a :: tr3) st2) =
    replicate (watch_count entries1 ee event) (mkcall r1 d1 ee event args)
  /\ rcalls r2 (run w (nested w depth) (tr1 ++ ACancel r2 :: tr2 ++ a :: tr3) st2) = [].
Proof.
  intros _.
  intros Hp1 Hw1 Hp2 Hw2 W Hd H1 H2 Hq1 Hq2 Hq3 Hf1.
  destruct (race_observed w depth _ _ _ _ _ Hp1 Hw1 W Hd H1) as (cs1 & _ & I1 & _).
  pose proof (inv_wf _ _ _ _ _ I1) as W1.
  assert (valid_done (DoneUser k2) st1) as Hd2 by (intros q res Hq; discriminate Hq).
  destruct (first_Return_id _ _ _ _ _ _ H1) as [_ Hr1].
  destruct (first_Return_id _ _ _ _ _ _ H2) as [_ Hr2].
  assert (r1 < r2) as Hlt.
  { rewrite Hr2. eapply lookup_lt_Some. apply (inv_env _ _ _ _ _ I1). }
  split.
  - assert (st2 = step w (nested w depth) (AFirst (Array entries2) k2) st1) as ->
      by (cbn [step]; by rewrite H2).
    change (run w (nested w depth) (tr1 ++ ACancel r2 :: tr2 ++ a :: tr3)
              (step w (nested w depth) (AFirst (Array entries2) k2) st1))
      with (run w (nested w depth)
              (AFirst (Array entries2) k2 :: tr1 ++ ACancel r2 :: tr2 ++ a :: tr3) st1).
    replace (AFirst (Array entries2) k2 :: tr1 ++ ACancel r2 :: tr2 ++ a :: tr3)
      with ((AFirst (Array entries2) k2 :: tr1 ++ ACancel r2 :: tr2) ++ a :: tr3)
      by (simpl; rewrite <- app_assoc; done).
    assert (Forall (quiet r1 entries1) (AFirst (Array entries2) k2 :: tr1 ++ ACancel r2 :: tr2))
      as Hq.
    { apply List.Forall_cons.
      { split; [split; [discriminate|]|discriminate]. intros ? ? ? He. discriminate He. }
      apply Forall_app. split; [done|]. apply List.Forall_cons; [|done].
      split; [split; [intros E; inversion E; lia|]|discriminate].
      intros ? ? ? He. discriminate He. }
    destruct (calls_after_win w depth _ _ _ _ _ _ _ tr3 _ _ _ Hp1 Hw1 W Hd H1
                (quiet_leaves_waiting _ _ _ Hq) Hf1) as (n & d' & Hn & C & _ & Hd').
    rewrite (Hd' (quiet_no_thunk _ _ _ Hq)) in C. by rewrite Hn.
  - destruct (race_observed w depth _ _ _ _ _ Hp2 Hw2 W1 Hd2 H2) as (cs2 & _ & _ & Hrun).
    destruct (Hrun (tr1 ++ ACancel r2 :: tr2 ++ a :: tr3)) as (_ & ->).
    rewrite foldl_app. cbn [foldl observe]. rewrite decide_True by done.
    destruct (foldl_observe_waiting r2 entries2 (start (DoneUser k2)) tr1 Hq2 eq_refl)
      as (_ & Hc & _).
    match goal with |- context [foldl _ ?v0 (tr2 ++ a :: tr3)] =>
      destruct (foldl_observe_settled r2 entries2 v0 (tr2 ++ a :: tr3) eq_refl) as [_ ->] end.
    exact Hc.
Qed.

Lemma cancel_of_one_race_spares_the_other_witness :
  let n := nested busy 2 in
  let st1 := snd (first n (Array [EArray 0 ["a"]]) (DoneUser 0) init) in
  let st2 := snd (first n (Array [EArray 0 ["a"]]) (DoneUser 1) st1) in
  rcalls 0 (run busy n ([] ++ ACancel 1 :: [AEmit 0 "b" []] ++ AEmit 0 "a" [] :: []) st2) =
    replicate (watch_count [EArray 0 ["a"]] 0 "a") (mkcall 0 (DoneUser 0) 0 "a" [])
  /\ rcalls 1 (run busy n ([] ++ ACancel 1 :: [AEmit 0 "b" []] ++ AEmit 0 "a" [] :: []) st2)
     = [].
Proof.
  intros n st1 st2.
  apply (cancel_of_one_race_spares_the_other busy 2 [EArray 0 ["a"]] [EArray 0 ["a"]]
           (DoneUser 0) 1 init 0 st1 1 st2 [] [AEmit 0 "b" []] (AEmit 0 "a" []) [] 0 "a" []).
  - apply tame_busy.
  - intros ee event Hin. unfold combos in Hin. simpl in Hin.
    repeat (apply elem_of_cons in Hin as [Hin|Hin]; [by inversion Hin|]).
    by apply elem_of_nil in Hin.
  - intros k; split; quiet_trace.
  - intros ee event Hin. unfold combos in Hin. simpl in Hin.
    repeat (apply elem_of_cons in Hin as [Hin|Hin]; [by inversion Hin|]).
    by apply elem_of_nil in Hin.
  - intros k; split; quiet_trace.
  - apply wf_init.
  - intros q res Hq. discriminate Hq.
  - reflexivity.
  - reflexivity.
  - apply List.Forall_nil.
  - apply List.Forall_nil.
  - quiet_trace.
  - split; [reflexivity|by_evaluation].
Defined.
